(** * freud neighbor-query engine: NeighborBond and the LinkCell cell list

    A shallow embedding of [NeighborBond.h] and [LinkCell.cc] of the freud
    locality module, with the properties of the neighbor-query
    specification stated and proved over it.

    Conventions of the embedding:
    - [float] is IEEE 754 binary32, as the [spec_float] of the Standard
      Library with the operations taken at precision 24 and exponent bound
      128; comparisons are the IEEE ones, so a NaN compares false with
      everything, itself included, and the two zeros compare equal;
    - [unsigned int] is a [Z] in [0, 2^32) with the wrap-around written out
      where the code does arithmetic on it. *)

From Stdlib Require Import ZArith List Bool Lia Permutation Sorted.
From Stdlib Require String.
Import String.StringSyntax.
Delimit Scope string_scope with string.
From Stdlib Require Import Floats.SpecFloat.
Import ListNotations.
Local Open Scope Z_scope.

(* ================================================================== *)
(** * Definitions *)
(* ================================================================== *)

(** ** binary32 arithmetic *)

Definition float := spec_float.

Definition prec32 : Z := 24.
Definition emax32 : Z := 128.

Definition fmul (a b : float) : float := SFmul prec32 emax32 a b.
Definition fdiv (a b : float) : float := SFdiv prec32 emax32 a b.
Definition fadd (a b : float) : float := SFadd prec32 emax32 a b.
Definition fsub (a b : float) : float := SFsub prec32 emax32 a b.
Definition fsqrt (a : float) : float := SFsqrt prec32 emax32 a.

(** The C++ comparison operators on floats. *)
Definition feq (a b : float) : bool := SFeqb a b.
Definition fne (a b : float) : bool := negb (SFeqb a b).
Definition flt (a b : float) : bool := SFltb a b.
Definition fgt (a b : float) : bool := SFltb b a.

Definition is_nan (a : float) : bool :=
  match a with S754_nan => true | _ => false end.

(** Conversion of an integer to binary32 (round to nearest, ties to even). *)
Definition float_of_Z (n : Z) : float := binary_normalize prec32 emax32 n 0 false.

(** ** Three-component vectors ([vec3<T>] of VectorMath.h) *)

Record vec3 (T : Type) : Type := mk_vec3 { vx : T; vy : T; vz : T }.
Arguments mk_vec3 {T} _ _ _.
Arguments vx {T} _.
Arguments vy {T} _.
Arguments vz {T} _.

(** ** NeighborBond (NeighborBond.h) *)

Record NeighborBond : Type := mkNeighborBond {
  query_point_idx : Z;      (* unsigned int *)
  point_idx : Z;            (* unsigned int *)
  distance : float;
  weight : float;
  vector : vec3 float
}.

Section NeighborBondOps.

(** [operator==] of [vec3<float>] is declared in VectorMath.h, which is not
    part of the sources at hand; the bond operations take it as given. *)
Variable vec3_eq : vec3 float -> vec3 float -> bool.

(** [NeighborBond::operator==] *)
Definition bond_eq (a other : NeighborBond) : bool :=
  (query_point_idx a =? query_point_idx other)
  && (point_idx a =? point_idx other)
  && feq (distance a) (distance other)
  && vec3_eq (vector a) (vector other).

(** [NeighborBond::operator!=] *)
Definition bond_ne (a other : NeighborBond) : bool := negb (bond_eq a other).

End NeighborBondOps.

(** [NeighborBond::operator<] *)
Definition bond_lt (a n : NeighborBond) : bool :=
  flt (distance a) (distance n).

(** [NeighborBond::less_id_ref_weight] *)
Definition less_id_ref_weight (a n : NeighborBond) : bool :=
  if negb (query_point_idx a =? query_point_idx n)
  then query_point_idx a <? query_point_idx n
  else if negb (point_idx a =? point_idx n)
  then point_idx a <? point_idx n
  else flt (weight a) (weight n).

(** [NeighborBond::less_as_tuple] *)
Definition less_as_tuple (a n : NeighborBond) : bool :=
  if negb (query_point_idx a =? query_point_idx n)
  then query_point_idx a <? query_point_idx n
  else if negb (point_idx a =? point_idx n)
  then point_idx a <? point_idx n
  else if fne (weight a) (weight n)
  then flt (weight a) (weight n)
  else flt (distance a) (distance n).

(** [NeighborBond::less_as_distance] *)
Definition less_as_distance (a n : NeighborBond) : bool :=
  if negb (query_point_idx a =? query_point_idx n)
  then query_point_idx a <? query_point_idx n
  else if fne (distance a) (distance n)
  then flt (distance a) (distance n)
  else if negb (point_idx a =? point_idx n)
  then point_idx a <? point_idx n
  else flt (weight a) (weight n).

(** The strict lexicographic order on [(query_point_idx, point_idx, weight,
    distance)], written from the components' own [<] and [==]. *)
Definition lex_tuple (a n : NeighborBond) : bool :=
  (query_point_idx a <? query_point_idx n)
  || ((query_point_idx a =? query_point_idx n)
      && ((point_idx a <? point_idx n)
          || ((point_idx a =? point_idx n)
              && (flt (weight a) (weight n)
                  || (feq (weight a) (weight n)
                      && flt (distance a) (distance n)))))).

(** A strict weak ordering on the values satisfying [dom], as the standard
    sorting routines require of their comparator: irreflexive, transitive,
    and with a transitive incomparability relation. *)
Definition strict_weak_order {A : Type} (dom : A -> Prop) (lt : A -> A -> bool) : Prop :=
  (forall a, dom a -> lt a a = false)
  /\ (forall a b c, dom a -> dom b -> dom c ->
        lt a b = true -> lt b c = true -> lt a c = true)
  /\ (forall a b c, dom a -> dom b -> dom c ->
        lt a b = false -> lt b a = false ->
        lt b c = false -> lt c b = false ->
        lt a c = false /\ lt c a = false).

(** Bonds whose distance, respectively distance and weight, are numbers. *)
Definition distance_ordered (b : NeighborBond) : Prop :=
  is_nan (distance b) = false.
Definition tuple_ordered (b : NeighborBond) : Prop :=
  is_nan (distance b) = false /\ is_nan (weight b) = false.

(** A totally ordered key of a float that is a number: the sign class, then
    the exponent and the mantissa, both negated for negative values. *)
Definition float_key (x : float) : Z * Z * Z :=
  match x with
  | S754_nan => (0, 0, 0)
  | S754_zero _ => (0, 0, 0)
  | S754_infinity true => (-2, 0, 0)
  | S754_infinity false => (2, 0, 0)
  | S754_finite true m e => (-1, - e, - Zpos m)
  | S754_finite false m e => (1, e, Zpos m)
  end.

Definition key_lt (a b : Z * Z * Z) : Prop :=
  let '(a1, a2, a3) := a in
  let '(b1, b2, b3) := b in
  a1 < b1 \/ (a1 = b1 /\ (a2 < b2 \/ (a2 = b2 /\ a3 < b3))).

Definition key_eq (a b : Z * Z * Z) : Prop :=
  let '(a1, a2, a3) := a in
  let '(b1, b2, b3) := b in
  a1 = b1 /\ a2 = b2 /\ a3 = b3.

(** The order [less_as_tuple] computes, on the keys of the four fields. *)
Definition tuple_key_lt (a n : NeighborBond) : Prop :=
  query_point_idx a < query_point_idx n
  \/ (query_point_idx a = query_point_idx n
      /\ (point_idx a < point_idx n
          \/ (point_idx a = point_idx n
              /\ (key_lt (float_key (weight a)) (float_key (weight n))
                  \/ (key_eq (float_key (weight a)) (float_key (weight n))
                      /\ key_lt (float_key (distance a)) (float_key (distance n))))))).

Ltac open_keys :=
  repeat match goal with
  | |- context [float_key ?x] =>
      let k1 := fresh "k" in let k2 := fresh "k" in let k3 := fresh "k" in
      destruct (float_key x) as [[k1 k2] k3]
  | H : context [float_key ?x] |- _ =>
      let k1 := fresh "k" in let k2 := fresh "k" in let k3 := fresh "k" in
      destruct (float_key x) as [[k1 k2] k3]
  end.

(** Componentwise IEEE equality of two vectors, the usual reading of
    [vec3<float>::operator==]; used where a concrete instance is needed. *)
Definition vec3_feq (a b : vec3 float) : bool :=
  feq (vx a) (vx b) && feq (vy a) (vy b) && feq (vz a) (vz b).

Definition f_zero : float := S754_zero false.
Definition f_one : float := float_of_Z 1.
Definition f_two : float := float_of_Z 2.
Definition vec3_zero : vec3 float := mk_vec3 f_zero f_zero f_zero.

(** Sample bonds of query point 0 to point 1: one per distance, weight 1,
    and one per weight, distance 1. *)
Definition bond_at_distance (d : float) : NeighborBond :=
  mkNeighborBond 0 1 d f_one vec3_zero.
Definition bond_of_weight (w : float) : NeighborBond :=
  mkNeighborBond 0 1 f_one w vec3_zero.

(** ** Machine integers and arrays *)

(** Wrap-around of [unsigned int] arithmetic and the conversion of an
  [unsigned int] to [int]. *)
Definition u32 (z : Z) : Z := z mod 2 ^ 32.
Definition s32 (z : Z) : Z := (z + 2 ^ 31) mod 2 ^ 32 - 2 ^ 31.

(** Reading and writing an array at an index; [None] outside its bounds. *)
Definition read {A : Type} (a : list A) (i : Z) : option A :=
  if (i <? 0) || (Z.of_nat (List.length a) <=? i) then None
  else nth_error a (Z.to_nat i).

Fixpoint set_nth {A : Type} (a : list A) (n : nat) (v : A) : list A :=
  match a, n with
  | [], _ => []
  | _ :: t, O => v :: t
  | h :: t, S m => h :: set_nth t m v
  end.

Definition write {A : Type} (a : list A) (i : Z) (v : A) : option (list A) :=
  if (0 <=? i) && (i <? Z.of_nat (length a)) then Some (set_nth a (Z.to_nat i) v)
  else None.

(** ** Outcomes *)

(** Every failure of the cell list is a [std::runtime_error]; the message
  tells them apart. *)
Inductive exn : Type := runtime_error (what : String.string).

Definition InvalidCellWidth : exn :=
  runtime_error "Cannot generate a cell list where cell_width is larger than half the box."%string.
Definition NoCells : exn :=
  runtime_error "At least one cell must be present."%string.
Definition EmptyPointSet : exn :=
  runtime_error "Cannot generate a cell list of 0 particles."%string.
Definition InvalidQueryMode : exn :=
  runtime_error "Invalid query mode provided to generic query function."%string.

(** The outcome of running a piece of the code: a value, an exception, an
  access outside an array (for which C++ defines no behaviour), or a loop
  that was still running when the fuel of the model ran out. *)
Inductive result (A : Type) : Type :=
| Ok (a : A)
| Throw (e : exn)
| Undefined
| OutOfFuel.
Arguments Ok {A} _.
Arguments Throw {A} _.
Arguments Undefined {A}.
Arguments OutOfFuel {A}.

Definition bind {A B : Type} (r : result A) (k : A -> result B) : result B :=
  match r with
  | Ok a => k a
  | Throw e => Throw e
  | Undefined => Undefined
  | OutOfFuel => OutOfFuel
  end.

Notation "x <- r ;; k" := (bind r (fun x => k))
  (at level 61, r at next level, right associativity).

Definition of_option {A : Type} (o : option A) : result A :=
  match o with Some a => Ok a | None => Undefined end.

(** ** Query arguments (as exported in export-NeighborQuery) *)

Inductive QueryType : Type := none | ball | nearest.

Record QueryArgs : Type := mkQueryArgs {
  mode : QueryType;
  num_neighbors : Z;        (* unsigned int *)
  r_max : float;
  r_min : float;
  r_guess : float;
  scale : float;
  exclude_ii : bool
}.

Definition QueryType_eqb (a b : QueryType) : bool :=
  match a, b with
  | none, none | ball, ball | nearest, nearest => true
  | _, _ => false
  end.

(** ** What LinkCell.cc uses and the sources at hand do not define

  [Box.h], [Index3D.h], [VectorMath.h], [NeighborQuery.h] and the inline
    members of [LinkCell.h] are not among the sources.  The embedding of
    LinkCell.cc takes them as an interface; every property proved below that
    does not name an instance holds for all implementations of it. *)
Class Externals : Type := {
(** box::Box *)
  Box : Type;
  null_box : Box;                                (* box::Box() *)
  box_ne : Box -> Box -> bool;                   (* operator!= *)
  is2D : Box -> bool;
  getNearestPlaneDistance : Box -> vec3 float;
  wrap : Box -> vec3 float -> vec3 float;
(** VectorMath *)
  vsub : vec3 float -> vec3 float -> vec3 float; (* operator- *)
  dot : vec3 float -> vec3 float -> float;
  vadd_int : vec3 Z -> vec3 Z -> vec3 Z;         (* operator+ on vec3<int> *)
(** Index3D *)
  Index3D : Type;
  Index3D_default : Index3D;                     (* Index3D() *)
  mkIndex3D : Z -> Z -> Z -> Index3D;            (* Index3D(w, h, d) *)
  getNumElements : Index3D -> Z;
(** inline members of LinkCell *)
  LINK_CELL_TERMINATOR : Z;
  getCell : Box -> Index3D -> vec3 float -> Z;
  getCellCoord : Box -> Index3D -> vec3 float -> vec3 Z;
  getCellIndex : Index3D -> vec3 Z -> Z;
(** IteratorCellShell *)
  IteratorCellShell : Type;
  mkIteratorCellShell : Z -> bool -> IteratorCellShell;  (* (range, is2D) *)
  shell_incr : IteratorCellShell -> IteratorCellShell;   (* operator++ *)
  shell_deref : IteratorCellShell -> vec3 Z;             (* operator* *)
  shell_eq : IteratorCellShell -> IteratorCellShell -> bool;
  getRange : IteratorCellShell -> Z;
(** NeighborQuery::validateQueryArgs; it may throw and may change the
      arguments it is given. *)
  validateQueryArgs : QueryArgs -> result QueryArgs;
(** the conversion of a float to [unsigned int]: truncation where the
      value fits, whatever the platform yields where C++ leaves it open *)
  float_to_uint : float -> Z
}.

(** ** binary64 arithmetic of the width check *)

(** A binary32 value as the binary64 value it is promoted to. *)
Definition to_double (x : float) : spec_float :=
  match x with
  | S754_finite s m e => binary_round 53 1024 s m e
  | _ => x
  end.

(** [cell_width * 2.0 > d], computed in binary64 as C++ does. *)
Definition twice_exceeds (cell_width d : float) : bool :=
  SFltb (to_double d)
        (SFmul 53 1024 (to_double cell_width) (binary_normalize 53 1024 2 0 false)).

(** [std::ceil] on a binary32 value. *)
Definition fceil (x : float) : float :=
  match x with
  | S754_finite s m e =>
      if 0 <=? e then x
      else binary_normalize prec32 emax32
             (- ((cond_Zopp (negb s) (Zpos m)) / 2 ^ (- e))) 0 s
  | _ => x
  end.

(** [std::min(a, b)]: [b] when [b < a], else [a]. *)
Definition fmin (a b : float) : float := if flt b a then b else a.

(** ** LinkCell (LinkCell.cc) *)

Section LinkCellModel.
Context {E : Externals}.

(** The members of [LinkCell] that LinkCell.cc reads and writes, with the
    point array of its base class [NeighborQuery]. *)
Record LinkCell : Type := mkLinkCell {
  m_box : Box;
  m_n_points : Z;               (* unsigned int *)
  m_cell_width : float;
  m_celldim : vec3 Z;           (* vec3<unsigned int> *)
  m_cell_index : Index3D;
  m_cell_list : list Z;         (* unsigned int[n_points + Nc] *)
  m_Nc : Z;                     (* unsigned int *)
  m_points : list (vec3 float)  (* NeighborQuery::m_points *)
}.

Definition set_box (lc : LinkCell) (b : Box) : LinkCell :=
  mkLinkCell b (m_n_points lc) (m_cell_width lc) (m_celldim lc)
             (m_cell_index lc) (m_cell_list lc) (m_Nc lc) (m_points lc).
Definition set_cell_width (lc : LinkCell) (w : float) : LinkCell :=
  mkLinkCell (m_box lc) (m_n_points lc) w (m_celldim lc)
             (m_cell_index lc) (m_cell_list lc) (m_Nc lc) (m_points lc).
Definition set_cells (lc : LinkCell) (dim : vec3 Z) (idx : Index3D) : LinkCell :=
  mkLinkCell (m_box lc) (m_n_points lc) (m_cell_width lc) dim
             idx (m_cell_list lc) (m_Nc lc) (m_points lc).
Definition set_cell_list (lc : LinkCell) (n Nc : Z) (l : list Z)
    (pts : list (vec3 float)) : LinkCell :=
  mkLinkCell (m_box lc) n (m_cell_width lc) (m_celldim lc)
             (m_cell_index lc) l Nc pts.

(** [LinkCell::computeDimensions] *)
Definition computeDimensions (box : Box) (cell_width : float) : vec3 Z :=
  let L := getNearestPlaneDistance box in
  let dimx := float_to_uint (fdiv (vx L) cell_width) in
  let dimy := float_to_uint (fdiv (vy L) cell_width) in
  let dimz := if is2D box then 1
              else float_to_uint (fdiv (vz L) cell_width) in
  mk_vec3 (if dimx =? 0 then 1 else dimx)
          (if dimy =? 0 then 1 else dimy)
          (if dimz =? 0 then 1 else dimz).

(** The test of [updateInternal] that the box is too small for the width. *)
Definition box_too_small (box : Box) (cell_width : float) : bool :=
  let nearest_plane_distance := getNearestPlaneDistance box in
  twice_exceeds cell_width (vx nearest_plane_distance)
  || twice_exceeds cell_width (vy nearest_plane_distance)
  || (negb (is2D box) && twice_exceeds cell_width (vz nearest_plane_distance)).

(** [LinkCell::updateInternal] *)
Definition updateInternal (lc : LinkCell) (box : Box) (cell_width : float)
  : result LinkCell :=
  if fne cell_width (m_cell_width lc) || box_ne box (m_box lc) then
    let celldim := computeDimensions box cell_width in
    celldim <-
      (if box_ne box null_box then
         if box_too_small box cell_width then Throw InvalidCellWidth
         else Ok (if is2D box
                  then mk_vec3 (vx celldim) (vy celldim) 1
                  else celldim)
       else Ok celldim) ;;
    let lc := set_box lc box in
    lc <-
      (if negb ((vx celldim =? vx (m_celldim lc))
                && (vy celldim =? vy (m_celldim lc))
                && (vz celldim =? vz (m_celldim lc)))
       then
         let cell_index := mkIndex3D (vx celldim) (vy celldim) (vz celldim) in
         if getNumElements cell_index <? 1 then Throw NoCells
         else Ok (set_cells lc celldim cell_index)
       else Ok lc) ;;
    Ok (set_cell_width lc cell_width)
  else Ok lc.

(** [LinkCell::setCellWidth] and [LinkCell::updateBox] *)
Definition setCellWidth (lc : LinkCell) (cell_width : float) : result LinkCell :=
  updateInternal lc (m_box lc) cell_width.
Definition updateBox (lc : LinkCell) (box : Box) : result LinkCell :=
  updateInternal lc box (m_cell_width lc).

Definition getNumCells (lc : LinkCell) : Z := getNumElements (m_cell_index lc).

(** First loop of [computeCellList]: the head of every cell is set to
    the terminator, for [cell] from its value up, [todo] times. *)
Fixpoint init_heads (todo : nat) (n_points cell : Z) (l : list Z)
  : result (list Z) :=
  match todo with
  | O => Ok l
  | S todo' =>
      l <- of_option (write l (u32 (n_points + cell)) LINK_CELL_TERMINATOR) ;;
      init_heads todo' n_points (u32 (cell + 1)) l
  end.

(** Second loop of [computeCellList]: for [i] from [todo - 1] down to 0,
    point [i] is put in front of the list of its cell. *)
Fixpoint fill_cells (todo : nat) (lc : LinkCell) (points : list (vec3 float))
    (n_points : Z) (l : list Z) : result (list Z) :=
  match todo with
  | O => Ok l
  | S todo' =>
      let i := Z.of_nat todo' in
      p <- of_option (read points i) ;;
      let cell := getCell (m_box lc) (m_cell_index lc) p in
      head <- of_option (read l (u32 (n_points + cell))) ;;
      l <- of_option (write l i head) ;;
      l <- of_option (write l (u32 (n_points + cell)) i) ;;
      fill_cells todo' lc points n_points l
  end.

(** [LinkCell::computeCellList].  A fresh array holds zeros here; every
    entry the code reads later has been written by one of the loops. *)
Definition computeCellList (lc : LinkCell) (box : Box)
    (points : list (vec3 float)) (n_points : Z) : result LinkCell :=
  lc <- updateBox lc box ;;
  if n_points =? 0 then Throw EmptyPointSet
  else
    let Nc := getNumCells lc in
    let l := if negb (m_n_points lc =? n_points) || negb (m_Nc lc =? Nc)
             then repeat 0 (Z.to_nat (u32 (n_points + Nc)))
             else m_cell_list lc in
    l <- init_heads (Z.to_nat Nc) n_points 0 l ;;
    l <- fill_cells (Z.to_nat (s32 (u32 (n_points - 1)) + 1)) lc points n_points l ;;
    Ok (set_cell_list lc n_points Nc l points).

(** [LinkCell::LinkCell(box, cell_width)]: the members as the initializer
    list leaves them, then [updateInternal]. *)
Definition LinkCell_init (box : Box) (points : list (vec3 float)) : LinkCell :=
  mkLinkCell box 0 f_zero (mk_vec3 0 0 0) Index3D_default [] 0 points.

Definition LinkCell_of_box (box : Box) (cell_width : float) : result LinkCell :=
  updateInternal (LinkCell_init box []) box cell_width.

(** [LinkCell::LinkCell(box, cell_width, points, n_points)] *)
Definition LinkCell_of_points (box : Box) (cell_width : float)
    (points : list (vec3 float)) (n_points : Z) : result LinkCell :=
  lc <- updateInternal (LinkCell_init box points) box cell_width ;;
  computeCellList lc box points n_points.

End LinkCellModel.

(** ** Walking the list of a cell *)

Section IteratorLinkCellModel.
Context {E : Externals}.

(** Modelled from the spec: [IteratorLinkCell] and [LinkCell::itercell]
    (LinkCell.h is not among the sources).  "Each cell exposes a head index
    chained through a per-point next array terminated by a sentinel": the
    iterator is the index it stands at in the array [computeCellList]
    fills, where the head of [cell] is entry [n_points + cell] and the
    successor of point [i] is entry [i]. *)
Definition itercell (lc : LinkCell) (cell : Z) : Z :=
  u32 (m_n_points lc + cell).

(** [IteratorLinkCell::next]: step to the entry the current one names. *)
Definition cell_next (lc : LinkCell) (cur_idx : Z) : result Z :=
  of_option (read (m_cell_list lc) cur_idx).

(** [IteratorLinkCell::atEnd] *)
Definition atEnd (cur_idx : Z) : bool := cur_idx =? LINK_CELL_TERMINATOR.

(** [NeighborQuery::operator[]]: the point of an index. *)
Definition point_at (lc : LinkCell) (j : Z) : result (vec3 float) :=
  of_option (read (m_points lc) j).

(** Modelled from the spec: the three-argument constructor
    [NeighborBond(query_point_idx, point_idx, d)] that LinkCell.cc calls
    ("weight defaults to 1"). *)
Definition NeighborBond3 (qpi j : Z) (d : float) : NeighborBond :=
  mkNeighborBond qpi j d f_one vec3_zero.

(** Squared length of the wrapped separation of point [pj] from the
    query point: [dot(rij, rij)] with [rij = box.wrap(pj - query_point)]. *)
Definition wrapped_rsq (lc : LinkCell) (query_point pj : vec3 float) : float :=
  let rij := wrap (m_box lc) (vsub pj query_point) in
  dot rij rij.

(** Insertion into [m_searched_cells]; the flag tells whether the cell
    was new, as the [second] of [std::unordered_set::insert] does. *)
Definition searched (cells : list Z) (c : Z) : bool :=
  existsb (Z.eqb c) cells.
Definition insert_cell (cells : list Z) (c : Z) : list Z * bool :=
  if searched cells c then (cells, false) else (c :: cells, true).

End IteratorLinkCellModel.

(** What [next()] hands back: a bond it built, or the terminator bond
  [NeighborQueryIterator::ITERATOR_TERMINATOR] (declared in
  NeighborQuery.h), which the model keeps apart from the bonds. *)
Inductive yielded : Type :=
| Yield (b : NeighborBond)
| ITERATOR_TERMINATOR.

(** ** LinkCellQueryBallIterator *)

Module LinkCellQueryBallIterator.
Section Model.
Context {E : Externals}.

Record t : Type := mk {
  m_r : float;
  m_query_point : vec3 float;
  m_query_point_idx : Z;
  m_exclude_ii : bool;
  m_neigh_cell_iter : IteratorCellShell;
  m_cell_iter : Z;                   (* IteratorLinkCell *)
  m_searched_cells : list Z;         (* std::unordered_set<unsigned int> *)
  m_extra_search_width : Z;          (* int *)
  m_finished : bool
}.

Definition set_cell_iter (it : t) (c : Z) : t :=
  mk (m_r it) (m_query_point it) (m_query_point_idx it) (m_exclude_ii it)
     (m_neigh_cell_iter it) c (m_searched_cells it)
     (m_extra_search_width it) (m_finished it).
Definition set_neigh_cell_iter (it : t) (s : IteratorCellShell) : t :=
  mk (m_r it) (m_query_point it) (m_query_point_idx it) (m_exclude_ii it)
     s (m_cell_iter it) (m_searched_cells it)
     (m_extra_search_width it) (m_finished it).
Definition set_searched_cells (it : t) (cells : list Z) : t :=
  mk (m_r it) (m_query_point it) (m_query_point_idx it) (m_exclude_ii it)
     (m_neigh_cell_iter it) (m_cell_iter it) cells
     (m_extra_search_width it) (m_finished it).
Definition set_finished (it : t) : t :=
  mk (m_r it) (m_query_point it) (m_query_point_idx it) (m_exclude_ii it)
     (m_neigh_cell_iter it) (m_cell_iter it) (m_searched_cells it)
     (m_extra_search_width it) true.

(** The acceptance test of the ball query on point [j] at squared
    distance [rsq]. *)
Definition accepts (it : t) (r_cutsq rsq : float) (j : Z) : bool :=
  flt rsq r_cutsq && (negb (m_exclude_ii it) || negb (m_query_point_idx it =? j)).

(** The [for] loop over the particles of the current cell: it returns at
    the first accepted point, or leaves the cell iterator at its end. *)
Fixpoint scan_cell (fuel : nat) (lc : LinkCell) (r_cutsq : float) (it : t)
  : result (option NeighborBond * t) :=
  match fuel with
  | O => OutOfFuel
  | S fuel' =>
      j <- cell_next lc (m_cell_iter it) ;;
      let it := set_cell_iter it j in
      if atEnd j then Ok (None, it)
      else
        pj <- point_at lc j ;;
        let rsq := wrapped_rsq lc (m_query_point it) pj in
        if accepts it r_cutsq rsq j
        then Ok (Some (NeighborBond3 (m_query_point_idx it) j (fsqrt rsq)), it)
        else scan_cell fuel' lc r_cutsq it
  end.

(** The exit test on a position of the shell iterator. *)
Definition out_of_range (lc : LinkCell) (it : t) (s : IteratorCellShell) : bool :=
  fgt (fmul (float_of_Z (getRange s - m_extra_search_width it)) (m_cell_width lc))
      (m_r it).

(** The inner [while (true)]: step the shell iterator to the next cell
    that has not been searched; the flag is [out_of_range]. *)
Fixpoint next_cell (fuel : nat) (lc : LinkCell) (point_cell : vec3 Z) (it : t)
  : result (bool * t) :=
  match fuel with
  | O => OutOfFuel
  | S fuel' =>
      let it := set_neigh_cell_iter it (shell_incr (m_neigh_cell_iter it)) in
      if out_of_range lc it (m_neigh_cell_iter it) then Ok (true, it)
      else
        let neighbor_cell_index :=
          getCellIndex (m_cell_index lc)
                       (vadd_int point_cell (shell_deref (m_neigh_cell_iter it))) in
        let '(cells, fresh) := insert_cell (m_searched_cells it) neighbor_cell_index in
        if fresh
        then Ok (false, set_cell_iter (set_searched_cells it cells)
                                      (itercell lc neighbor_cell_index))
        else next_cell fuel' lc point_cell it
  end.

(** The outer [while (true)] of [next]. *)
Fixpoint search (fuel : nat) (lc : LinkCell) (point_cell : vec3 Z)
    (r_cutsq : float) (it : t) : result (yielded * t) :=
  match fuel with
  | O => OutOfFuel
  | S fuel' =>
      found <- scan_cell fuel lc r_cutsq it ;;
      match found with
      | (Some b, it) => Ok (Yield b, it)
      | (None, it) =>
          moved <- next_cell fuel lc point_cell it ;;
          match moved with
          | (true, it) => Ok (ITERATOR_TERMINATOR, set_finished it)
          | (false, it) => search fuel' lc point_cell r_cutsq it
          end
      end
  end.

(** [LinkCellQueryBallIterator::next] *)
Definition next (fuel : nat) (lc : LinkCell) (it : t) : result (yielded * t) :=
  let r_cutsq := fmul (m_r it) (m_r it) in
  let point_cell := getCellCoord (m_box lc) (m_cell_index lc) (m_query_point it) in
  let point_cell_index :=
    getCellIndex (m_cell_index lc)
                 (vadd_int point_cell (shell_deref (m_neigh_cell_iter it))) in
  let it := set_searched_cells it (fst (insert_cell (m_searched_cells it) point_cell_index)) in
  search fuel lc point_cell r_cutsq it.

(** Modelled from the spec: the state a freshly constructed iterator
    starts in (its constructor is in LinkCell.h): shell 0, the list of the
    query point's own cell, no cell searched yet. *)
Definition init (lc : LinkCell) (query_point : vec3 float) (query_point_idx : Z)
    (r_max : float) (exclude_ii : bool) (extra_search_width : Z) : t :=
  mk r_max query_point query_point_idx exclude_ii
     (mkIteratorCellShell 0 (is2D (m_box lc)))
     (itercell lc (getCell (m_box lc) (m_cell_index lc) query_point))
     [] extra_search_width false.

(** A caller that asks for bonds until the terminator comes, at most
    [calls] times. *)
Fixpoint drain (calls fuel : nat) (lc : LinkCell) (it : t)
  : result (list NeighborBond * t) :=
  match calls with
  | O => OutOfFuel
  | S calls' =>
      r <- next fuel lc it ;;
      match r with
      | (Yield b, it) =>
          rest <- drain calls' fuel lc it ;;
          Ok (b :: fst rest, snd rest)
      | (ITERATOR_TERMINATOR, it) => Ok ([], it)
      end
  end.

End Model.
End LinkCellQueryBallIterator.

(** ** Sorting by [operator<] *)

(** [std::sort] with the default comparator, as an insertion sort; the
    order it leaves bonds of equal distance in is the model's own. *)
Fixpoint insert_sorted (b : NeighborBond) (l : list NeighborBond) : list NeighborBond :=
  match l with
  | [] => [b]
  | h :: t => if bond_lt b h then b :: l else h :: insert_sorted b t
  end.

Definition sort_bonds (l : list NeighborBond) : list NeighborBond :=
  fold_right insert_sorted [] l.

(** ** LinkCellQueryIterator (k nearest neighbors) *)

Module LinkCellQueryIterator.
Section Model.
Context {E : Externals}.

Record t : Type := mk {
  m_query_point : vec3 float;
  m_query_point_idx : Z;
  m_exclude_ii : bool;
  m_neigh_cell_iter : IteratorCellShell;
  m_cell_iter : Z;                           (* IteratorLinkCell *)
  m_searched_cells : list Z;
  m_current_neighbors : list NeighborBond;   (* std::vector<NeighborBond> *)
  m_num_neighbors : Z;                       (* unsigned int *)
  m_count : Z;                               (* unsigned int *)
  m_finished : bool
}.

Definition set_cell_iter (it : t) (c : Z) : t :=
  mk (m_query_point it) (m_query_point_idx it) (m_exclude_ii it)
     (m_neigh_cell_iter it) c (m_searched_cells it) (m_current_neighbors it)
     (m_num_neighbors it) (m_count it) (m_finished it).
Definition set_neigh_cell_iter (it : t) (s : IteratorCellShell) : t :=
  mk (m_query_point it) (m_query_point_idx it) (m_exclude_ii it)
     s (m_cell_iter it) (m_searched_cells it) (m_current_neighbors it)
     (m_num_neighbors it) (m_count it) (m_finished it).
Definition set_searched_cells (it : t) (cells : list Z) : t :=
  mk (m_query_point it) (m_query_point_idx it) (m_exclude_ii it)
     (m_neigh_cell_iter it) (m_cell_iter it) cells (m_current_neighbors it)
     (m_num_neighbors it) (m_count it) (m_finished it).
Definition set_current_neighbors (it : t) (l : list NeighborBond) : t :=
  mk (m_query_point it) (m_query_point_idx it) (m_exclude_ii it)
     (m_neigh_cell_iter it) (m_cell_iter it) (m_searched_cells it) l
     (m_num_neighbors it) (m_count it) (m_finished it).
Definition set_count (it : t) (c : Z) : t :=
  mk (m_query_point it) (m_query_point_idx it) (m_exclude_ii it)
     (m_neigh_cell_iter it) (m_cell_iter it) (m_searched_cells it)
     (m_current_neighbors it) (m_num_neighbors it) c (m_finished it).
Definition set_finished (it : t) : t :=
  mk (m_query_point it) (m_query_point_idx it) (m_exclude_ii it)
     (m_neigh_cell_iter it) (m_cell_iter it) (m_searched_cells it)
     (m_current_neighbors it) (m_num_neighbors it) (m_count it) true.

Definition size (it : t) : Z := Z.of_nat (List.length (m_current_neighbors it)).

(** [max_range], from the smallest nearest-plane distance of the box. *)
Definition max_range (lc : LinkCell) : Z :=
  let plane_distance := getNearestPlaneDistance (m_box lc) in
  let min_plane_distance := fmin (vx plane_distance) (vy plane_distance) in
  let min_plane_distance :=
    if negb (is2D (m_box lc))
    then fmin min_plane_distance (vz plane_distance)
    else min_plane_distance in
  float_to_uint
    (fadd (fceil (fdiv min_plane_distance
                       (fmul (float_of_Z 2) (m_cell_width lc))))
          (float_of_Z 1)).

(** The [for] loop over the particles of the current cell: every point
    but the excluded one is appended to [m_current_neighbors]. *)
Fixpoint scan_cell (fuel : nat) (lc : LinkCell) (it : t) : result t :=
  match fuel with
  | O => OutOfFuel
  | S fuel' =>
      j <- cell_next lc (m_cell_iter it) ;;
      let it := set_cell_iter it j in
      if atEnd j then Ok it
      else if m_exclude_ii it && (m_query_point_idx it =? j)
      then scan_cell fuel' lc it
      else
        pj <- point_at lc j ;;
        let rsq := wrapped_rsq lc (m_query_point it) pj in
        scan_cell fuel' lc
          (set_current_neighbors it
             (m_current_neighbors it
                ++ [NeighborBond3 (m_query_point_idx it) j (fsqrt rsq)]))
  end.

(** The inner [while (true)]: step the shell iterator until it is at
    [max_range] or at a cell that has not been searched. *)
Fixpoint next_cell (fuel : nat) (lc : LinkCell) (point_cell : vec3 Z)
    (last : IteratorCellShell) (it : t) : result t :=
  match fuel with
  | O => OutOfFuel
  | S fuel' =>
      let it := set_neigh_cell_iter it (shell_incr (m_neigh_cell_iter it)) in
      if shell_eq (m_neigh_cell_iter it) last then Ok it
      else
        let neighbor_cell_index :=
          getCellIndex (m_cell_index lc)
                       (vadd_int point_cell (shell_deref (m_neigh_cell_iter it))) in
        let '(cells, fresh) := insert_cell (m_searched_cells it) neighbor_cell_index in
        if fresh
        then Ok (set_cell_iter (set_searched_cells it cells)
                               (itercell lc neighbor_cell_index))
        else next_cell fuel' lc point_cell last it
  end.

(** The early-termination test made after each step of the shell
    iterator; reading [m_current_neighbors] past its end is undefined. *)
Definition enough (lc : LinkCell) (it : t) : result bool :=
  if m_num_neighbors it <=? size it then
    b <- of_option (read (m_current_neighbors it) (u32 (m_num_neighbors it - 1))) ;;
    Ok (flt (distance b)
            (fmul (float_of_Z (getRange (m_neigh_cell_iter it) - 1))
                  (m_cell_width lc)))
  else Ok false.

(** The [while] loop that widens the searched shell. *)
Fixpoint expand (fuel : nat) (lc : LinkCell) (point_cell : vec3 Z)
    (last : IteratorCellShell) (it : t) : result t :=
  match fuel with
  | O => OutOfFuel
  | S fuel' =>
      if shell_eq (m_neigh_cell_iter it) last then Ok it
      else
        it <- (if negb (atEnd (m_cell_iter it)) then scan_cell fuel lc it
               else Ok it) ;;
        it <- next_cell fuel lc point_cell last it ;;
        stop <- enough lc it ;;
        if stop
        then Ok (set_current_neighbors it (sort_bonds (m_current_neighbors it)))
        else expand fuel' lc point_cell last it
  end.

(** [LinkCellQueryIterator::next] *)
Definition next (fuel : nat) (lc : LinkCell) (it : t) : result (yielded * t) :=
  let last := mkIteratorCellShell (max_range lc) (is2D (m_box lc)) in
  let point_cell := getCellCoord (m_box lc) (m_cell_index lc) (m_query_point it) in
  let point_cell_index :=
    getCellIndex (m_cell_index lc)
                 (vadd_int point_cell (shell_deref (m_neigh_cell_iter it))) in
  let it := set_searched_cells it (fst (insert_cell (m_searched_cells it) point_cell_index)) in
  it <- (if size it =? 0 then expand fuel lc point_cell last it else Ok it) ;;
  if (m_count it <? m_num_neighbors it) && (m_count it <? size it) then
    let it := set_count it (u32 (m_count it + 1)) in
    b <- of_option (read (m_current_neighbors it) (u32 (m_count it - 1))) ;;
    Ok (Yield b, it)
  else Ok (ITERATOR_TERMINATOR, set_finished it).

(** Modelled from the spec: the state a freshly constructed iterator
    starts in (its constructor is in LinkCell.h): shell 0, the list of the
    query point's own cell, no cell searched, no candidate, none given
    out. *)
Definition init (lc : LinkCell) (query_point : vec3 float) (query_point_idx : Z)
    (num_neighbors : Z) (exclude_ii : bool) : t :=
  mk query_point query_point_idx exclude_ii
     (mkIteratorCellShell 0 (is2D (m_box lc)))
     (itercell lc (getCell (m_box lc) (m_cell_index lc) query_point))
     [] [] num_neighbors 0 false.

(** A caller that asks for bonds until the terminator comes, at most
    [calls] times. *)
Fixpoint drain (calls fuel : nat) (lc : LinkCell) (it : t)
  : result (list NeighborBond * t) :=
  match calls with
  | O => OutOfFuel
  | S calls' =>
      r <- next fuel lc it ;;
      match r with
      | (Yield b, it) =>
          rest <- drain calls' fuel lc it ;;
          Ok (b :: fst rest, snd rest)
      | (ITERATOR_TERMINATOR, it) => Ok ([], it)
      end
  end.

End Model.
End LinkCellQueryIterator.

(** ** LinkCell::querySingle *)

Section QuerySingle.
Context {E : Externals}.

(** The two iterators behind [NeighborQueryPerPointIterator]. *)
Inductive NeighborQueryPerPointIterator : Type :=
| BallIterator (it : LinkCellQueryBallIterator.t)
| NearestIterator (it : LinkCellQueryIterator.t).

(** [LinkCell::querySingle]; [extra_search_width] stands for what the
    constructor of the ball iterator stores in [m_extra_search_width]. *)
Definition querySingle (lc : LinkCell) (extra_search_width : float -> Z)
    (query_point : vec3 float) (query_point_idx : Z) (args : QueryArgs)
  : result NeighborQueryPerPointIterator :=
  args <- validateQueryArgs args ;;
  if QueryType_eqb (mode args) ball then
    Ok (BallIterator
          (LinkCellQueryBallIterator.init lc query_point query_point_idx
             (r_max args) (exclude_ii args) (extra_search_width (r_max args))))
  else if QueryType_eqb (mode args) nearest then
    Ok (NearestIterator
          (LinkCellQueryIterator.init lc query_point query_point_idx
             (num_neighbors args) (exclude_ii args)))
  else Throw InvalidQueryMode.

End QuerySingle.

(** ** Well-formed cell lists *)

Section CellListSpec.
Context {E : Externals}.

(** The cell [computeCellList] files point [j] under. *)
Definition cell_of (lc : LinkCell) (j : Z) : option Z :=
  option_map (getCell (m_box lc) (m_cell_index lc)) (read (m_points lc) j).

(** The array is a family of linked lists: the head of a cell is the
    terminator or a point of that cell, and the successor of a point is the
    terminator or a later point of the same cell. *)
Definition cell_list_wf (lc : LinkCell) : Prop :=
  let n := m_n_points lc in
  let Nc := m_Nc lc in
  0 <= n /\ 0 <= Nc /\ n + Nc < 2 ^ 32
  /\ Z.of_nat (List.length (m_cell_list lc)) = n + Nc
  /\ n <= Z.of_nat (List.length (m_points lc))
  /\ (forall c, 0 <= c < Nc ->
        exists j, read (m_cell_list lc) (n + c) = Some j
                  /\ (j = LINK_CELL_TERMINATOR
                      \/ (0 <= j < n /\ cell_of lc j = Some c)))
  /\ (forall i, 0 <= i < n ->
        exists j, read (m_cell_list lc) i = Some j
                  /\ (j = LINK_CELL_TERMINATOR
                      \/ (i < j < n /\ cell_of lc j = cell_of lc i))).

(** The state of the array when the points from [m] on have been filed. *)
Definition filed_from (lc : LinkCell) (points : list (vec3 float))
    (n Nc m : Z) (l : list Z) : Prop :=
  Z.of_nat (List.length l) = n + Nc
  /\ (forall c, 0 <= c < Nc ->
        exists j, read l (n + c) = Some j
                  /\ (j = LINK_CELL_TERMINATOR
                      \/ (m <= j < n
                          /\ option_map (getCell (m_box lc) (m_cell_index lc)) (read points j)
                             = Some c)))
  /\ (forall i, m <= i < n ->
        exists j, read l i = Some j
                  /\ (j = LINK_CELL_TERMINATOR
                      \/ (i < j < n
                          /\ option_map (getCell (m_box lc) (m_cell_index lc)) (read points j)
                             = option_map (getCell (m_box lc) (m_cell_index lc)) (read points i)))).

(** Every point of the list lies in a cell of the grid. *)
Definition cells_in_grid (box : Box) (idx : Index3D) (points : list (vec3 float)) : bool :=
  forallb (fun p => (0 <=? getCell box idx p) && (getCell box idx p <? getNumElements idx))
          points.

(** A position of the cell iterator from which [next] can be called. *)
Definition valid_cursor (lc : LinkCell) (cur : Z) : Prop :=
  0 <= cur < m_n_points lc + m_Nc lc.

(** How many more entries the list holds after a position, at most. *)
Definition remaining (lc : LinkCell) (cur : Z) : nat :=
  if cur <? m_n_points lc then Z.to_nat (m_n_points lc - cur)
  else S (Z.to_nat (m_n_points lc)).

End CellListSpec.

Section CursorSpec.
Context {E : Externals}.

(** The cell whose list a position of the cell iterator is in: the cell of
    the point it stands at, or the cell whose head it stands at. *)
Definition cursor_cell (lc : LinkCell) (cur : Z) : option Z :=
  if cur <? m_n_points lc then cell_of lc cur else Some (cur - m_n_points lc).

(** A cell index that [itercell] can be given. *)
Definition in_grid (lc : LinkCell) (c : Z) : bool :=
  (0 <=? c) && (c <? m_Nc lc).

End CursorSpec.

(** ** Statements about the ball iterator *)

Section BallSpec.
Context {E : Externals}.
Import LinkCellQueryBallIterator.

(** The members that no loop of [next] writes. *)
Definition same_query (it it' : t) : Prop :=
  m_r it' = m_r it
  /\ m_query_point it' = m_query_point it
  /\ m_query_point_idx it' = m_query_point_idx it
  /\ m_exclude_ii it' = m_exclude_ii it
  /\ m_extra_search_width it' = m_extra_search_width it.

(** A bond that [next] may build for point [j]. *)
Definition accepted_bond (lc : LinkCell) (it : t) (r_cutsq : float)
    (b : NeighborBond) : Prop :=
  exists j pj,
    point_at lc j = Ok pj
    /\ b = NeighborBond3 (m_query_point_idx it) j
             (fsqrt (wrapped_rsq lc (m_query_point it) pj))
    /\ flt (wrapped_rsq lc (m_query_point it) pj) r_cutsq = true
    /\ (m_exclude_ii it = true -> j <> m_query_point_idx it).

(** The shell positions reached from [s] by steps none of which met the
    exit test. *)
Inductive in_range_steps (lc : LinkCell) (it : t) (s : IteratorCellShell)
  : IteratorCellShell -> Prop :=
| steps_none : in_range_steps lc it s s
| steps_more (s' : IteratorCellShell) :
    in_range_steps lc it s s' ->
    out_of_range lc it (shell_incr s') = false ->
    in_range_steps lc it s (shell_incr s').

(** The search from shell position [s] meets the exit test within [k]
    steps, and every cell it comes to before is a cell of the grid. *)
Fixpoint exits_within (k : nat) (lc : LinkCell) (it : t) (point_cell : vec3 Z)
    (s : IteratorCellShell) : bool :=
  match k with
  | O => false
  | S k' =>
      out_of_range lc it (shell_incr s)
      || (in_grid lc (getCellIndex (m_cell_index lc)
                        (vadd_int point_cell (shell_deref (shell_incr s))))
          && exits_within k' lc it point_cell (shell_incr s))
  end.

(** No point of the array passes the acceptance test of the iterator. *)
Definition none_accepted (lc : LinkCell) (it : t) : bool :=
  forallb (fun jp : Z * vec3 float =>
             negb (accepts it (fmul (m_r it) (m_r it))
                     (wrapped_rsq lc (m_query_point it) (snd jp)) (fst jp)))
          (combine (map Z.of_nat (seq 0 (List.length (m_points lc)))) (m_points lc)).

(** The cell coordinate [next] computes for the query point. *)
Definition home (lc : LinkCell) (it : t) : vec3 Z :=
  getCellCoord (m_box lc) (m_cell_index lc) (m_query_point it).

(** The shell iterator comes to a shell of range [R] within [k] increments
    from position [s]. *)
Fixpoint range_ahead (k : nat) (s : IteratorCellShell) (R : Z) : bool :=
  match k with
  | O => false
  | S k' => (getRange (shell_incr s) =? R) || range_ahead k' (shell_incr s) R
  end.

(** The radius [r] lies below [(R - extra_search_width) * cell_width], the
    bound that the exit test of [next] puts on a shell of range [R].  No
    [R] gives this for a radius that is NaN or +infinity. *)
Definition radius_below (lc : LinkCell) (extra_search_width : Z) (r : float)
    (R : Z) : bool :=
  fgt (fmul (float_of_Z (R - extra_search_width)) (m_cell_width lc)) r.

End BallSpec.

(** ** Statements about the k-nearest iterator *)

Section NearestSpec.
Context {E : Externals}.
Import LinkCellQueryIterator.

(** [getCellIndex] names a cell of the grid, whatever offset it is given. *)
Definition grid_closed (lc : LinkCell) : Prop :=
  forall v, in_grid lc (getCellIndex (m_cell_index lc) v) = true.

(** The members that no loop of [next] writes. *)
Definition same_nearest_query (it it' : t) : Prop :=
  m_query_point it' = m_query_point it
  /\ m_query_point_idx it' = m_query_point_idx it
  /\ m_exclude_ii it' = m_exclude_ii it
  /\ m_num_neighbors it' = m_num_neighbors it
  /\ m_count it' = m_count it
  /\ m_finished it' = m_finished it.

(** The cell coordinate [next] computes for the query point. *)
Definition nearest_home (lc : LinkCell) (it : t) : vec3 Z :=
  getCellCoord (m_box lc) (m_cell_index lc) (m_query_point it).

(** A candidate of the accumulator: a bond of the query point to a point of
    the array, other than the query point when it is excluded, filed under a
    cell that has been searched. *)
Definition candidate (lc : LinkCell) (it : t) (b : NeighborBond) : Prop :=
  0 <= point_idx b < m_n_points lc
  /\ (m_exclude_ii it = true -> point_idx b <> m_query_point_idx it)
  /\ exists c, cell_of lc (point_idx b) = Some c
               /\ searched (m_searched_cells it) c = true.

(** The state of the search between two steps: no point is a candidate
    twice, and the cell iterator is at its end or in the list of a searched
    cell, past every candidate of that cell. *)
Definition search_inv (lc : LinkCell) (it : t) : Prop :=
  NoDup (map point_idx (m_current_neighbors it))
  /\ (forall b, In b (m_current_neighbors it) -> candidate lc it b)
  /\ (atEnd (m_cell_iter it) = true
      \/ (valid_cursor lc (m_cell_iter it)
          /\ exists c, cursor_cell lc (m_cell_iter it) = Some c
               /\ searched (m_searched_cells it) c = true
               /\ forall b, In b (m_current_neighbors it) ->
                    cell_of lc (point_idx b) = Some c ->
                    point_idx b <= m_cell_iter it < m_n_points lc)).

(** A freshly constructed iterator: nothing searched, found or given out,
    the cell iterator at the head of the cell that the shell iterator
    stands at. *)
Definition fresh (lc : LinkCell) (it : t) : Prop :=
  m_current_neighbors it = []
  /\ m_count it = 0
  /\ m_searched_cells it = []
  /\ m_cell_iter it
     = itercell lc (getCellIndex (m_cell_index lc)
                      (vadd_int (nearest_home lc it)
                                (shell_deref (m_neigh_cell_iter it)))).

(** The shell iterator comes to [last] within [k] steps from [s]. *)
Fixpoint reaches (k : nat) (last s : IteratorCellShell) : bool :=
  match k with
  | O => false
  | S k' => shell_eq (shell_incr s) last || reaches k' last (shell_incr s)
  end.

(** The position the widening of the search stops at. *)
Definition last_shell (lc : LinkCell) : IteratorCellShell :=
  mkIteratorCellShell (max_range lc) (is2D (m_box lc)).

End NearestSpec.

(** ** A query point without eligible neighbors *)

Section EmptyQuerySpec.
Context {E : Externals}.

(** The query point has no eligible neighbor: for a ball query no point of
    the array passes the acceptance test of the iterator that [querySingle]
    builds, for a k-nearest query every point of the array is the excluded
    query point. *)
Definition no_eligible_neighbor (lc : LinkCell) (extra_search_width : float -> Z)
    (query_point : vec3 float) (query_point_idx : Z) (args : QueryArgs) : Prop :=
  match mode args with
  | none => True
  | ball =>
      none_accepted lc
        (LinkCellQueryBallIterator.init lc query_point query_point_idx
           (r_max args) (exclude_ii args) (extra_search_width (r_max args))) = true
  | nearest =>
      exclude_ii args = true
      /\ (forall j, 0 <= j < m_n_points lc -> j = query_point_idx)
  end.

(** What the search of the iterator that [querySingle] builds needs to come
    to an end over a well-formed cell list.  A ball query: the radius lies
    below [(R - extra_search_width) * cell_width] for a range [R] that the
    shell iterator comes to within [k] increments.  A k-nearest query: at
    least one neighbor is asked for, and the shell iterator comes to
    [IteratorCellShell(max_range)] within [k] increments. *)
Definition search_bounded (lc : LinkCell) (extra_search_width : float -> Z)
    (query_point : vec3 float) (query_point_idx : Z) (args : QueryArgs)
    (k fuel : nat) (R : Z) : Prop :=
  match mode args with
  | none => True
  | ball =>
      let it := LinkCellQueryBallIterator.init lc query_point query_point_idx
                  (r_max args) (exclude_ii args) (extra_search_width (r_max args)) in
      cell_list_wf lc /\ grid_closed lc
      /\ in_grid lc (getCell (m_box lc) (m_cell_index lc) query_point) = true
      /\ range_ahead k (LinkCellQueryBallIterator.m_neigh_cell_iter it) R = true
      /\ radius_below lc (extra_search_width (r_max args)) (r_max args) R = true
      /\ (k + S (Z.to_nat (m_n_points lc)) < fuel)%nat
  | nearest =>
      let it := LinkCellQueryIterator.init lc query_point query_point_idx
                  (num_neighbors args) (exclude_ii args) in
      cell_list_wf lc /\ grid_closed lc /\ fresh lc it
      /\ (shell_eq (LinkCellQueryIterator.m_neigh_cell_iter it) (last_shell lc) = true
          \/ reaches k (last_shell lc) (LinkCellQueryIterator.m_neigh_cell_iter it) = true)
      /\ 1 <= num_neighbors args < 2 ^ 32
      /\ (k + S (Z.to_nat (m_n_points lc)) < fuel)%nat
  end.

End EmptyQuerySpec.

(** ** An implementation of the interface, for running the code *)

(** Modelled from the spec: a periodic box given by the "lengths along three
    axes" and "a 2D/3D flag" (no tilt), centred on the origin; [Box.h] is
    not among the sources. *)
Record SampleBox : Type := mkSampleBox {
  Lx : float; Ly : float; Lz : float; flat : bool
}.

Definition SampleBox_ne (a b : SampleBox) : bool :=
  fne (Lx a) (Lx b) || fne (Ly a) (Ly b) || fne (Lz a) (Lz b)
  || negb (Bool.eqb (flat a) (flat b)).

Definition f_half : float := fdiv f_one f_two.

(** Modelled from the spec: the minimum-image convention along one axis of
    length [L], for separations of points of the box. *)
Definition wrap_axis (L x : float) : float :=
  if flt x (fmul (SFopp f_half) L) then fadd x L
  else if flt x (fmul f_half L) then x
  else fsub x L.

(** Modelled from the spec: "2D boxes force the z-component of every
    wrapped vector to zero". *)
Definition SampleBox_wrap (b : SampleBox) (v : vec3 float) : vec3 float :=
  mk_vec3 (wrap_axis (Lx b) (vx v)) (wrap_axis (Ly b) (vy v))
          (if flat b then f_zero else wrap_axis (Lz b) (vz v)).

(** Truncation of a float to an [unsigned int]; 0 where it does not fit. *)
Definition trunc_uint (x : float) : Z :=
  match x with
  | S754_finite false m e =>
      let z := if 0 <=? e then Zpos m * 2 ^ e else Zpos m / 2 ^ (- e) in
      if z <? 2 ^ 32 then z else 0
  | _ => 0
  end.

(** Modelled from the spec: a grid of [w * h * d] cells indexed row by
    row ([Index3D.h] is not among the sources). *)
Definition grid_index (dim c : vec3 Z) : Z :=
  (vz c * vy dim + vy c) * vx dim + vx c.

(** Modelled from the spec: "wrapping indices modulo grid dimensions". *)
Definition grid_wrap_index (dim c : vec3 Z) : Z :=
  grid_index dim (mk_vec3 (vx c mod vx dim) (vy c mod vy dim) (vz c mod vz dim)).

(** Modelled from the spec: "the point's grid coordinate after wrapping
    into [0, dim) per axis". *)
Definition axis_coord (L x : float) (n : Z) : Z :=
  let alpha := fadd (fdiv x L) f_half in
  let alpha := if flt alpha f_zero then fadd alpha f_one else alpha in
  trunc_uint (fmul alpha (float_of_Z n)) mod n.

Definition grid_coord (b : SampleBox) (dim : vec3 Z) (p : vec3 float) : vec3 Z :=
  mk_vec3 (axis_coord (Lx b) (vx p) (vx dim)) (axis_coord (Ly b) (vy p) (vy dim))
          (if flat b then 0 else axis_coord (Lz b) (vz p) (vz dim)).

(** Modelled from the spec: "Shell: the set of grid cells at a given
    Chebyshev distance from a point's home cell".  The offsets of shell
    [range], row by row. *)
Definition axis_range (r : Z) : list Z :=
  map (fun k => Z.of_nat k - r) (seq 0 (Z.to_nat (2 * r + 1))).

Definition shell_offsets (range : Z) (flat : bool) : list (vec3 Z) :=
  filter (fun c => Z.max (Z.abs (vx c)) (Z.max (Z.abs (vy c)) (Z.abs (vz c))) =? range)
    (flat_map (fun z =>
       flat_map (fun y => map (fun x => mk_vec3 x y z) (axis_range range))
                (axis_range range))
       (if flat then [0] else axis_range range)).

(** Modelled from the spec: the shell iterator, as the shell it is in and
    its position among the offsets of that shell. *)
Record SampleShell : Type := mkSampleShell {
  shell_range : Z; shell_pos : nat; shell_flat : bool
}.

Definition SampleShell_incr (s : SampleShell) : SampleShell :=
  if Nat.ltb (S (shell_pos s)) (List.length (shell_offsets (shell_range s) (shell_flat s)))
  then mkSampleShell (shell_range s) (S (shell_pos s)) (shell_flat s)
  else mkSampleShell (shell_range s + 1) 0 (shell_flat s).

Definition SampleShell_deref (s : SampleShell) : vec3 Z :=
  nth (shell_pos s) (shell_offsets (shell_range s) (shell_flat s)) (mk_vec3 0 0 0).

Definition SampleShell_eq (a b : SampleShell) : bool :=
  (shell_range a =? shell_range b) && Nat.eqb (shell_pos a) (shell_pos b).

Definition SampleExternals : Externals := {|
  Box := SampleBox;
  null_box := mkSampleBox f_zero f_zero f_zero false;
  box_ne := SampleBox_ne;
  is2D := flat;
  getNearestPlaneDistance := fun b => mk_vec3 (Lx b) (Ly b) (Lz b);
  wrap := SampleBox_wrap;
  vsub := fun a b => mk_vec3 (fsub (vx a) (vx b)) (fsub (vy a) (vy b)) (fsub (vz a) (vz b));
  dot := fun a b =>
    fadd (fadd (fmul (vx a) (vx b)) (fmul (vy a) (vy b))) (fmul (vz a) (vz b));
  vadd_int := fun a b => mk_vec3 (vx a + vx b) (vy a + vy b) (vz a + vz b);
  Index3D := vec3 Z;
  Index3D_default := mk_vec3 0 0 0;
  mkIndex3D := fun w h d => mk_vec3 w h d;
  getNumElements := fun dim => u32 (vx dim * vy dim * vz dim);
  LINK_CELL_TERMINATOR := 4294967295;
  getCell := fun b dim p => grid_index dim (grid_coord b dim p);
  getCellCoord := grid_coord;
  getCellIndex := grid_wrap_index;
  IteratorCellShell := SampleShell;
  mkIteratorCellShell := fun r flat => mkSampleShell r 0 flat;
  shell_incr := SampleShell_incr;
  shell_deref := SampleShell_deref;
  shell_eq := SampleShell_eq;
  getRange := shell_range;
  validateQueryArgs := fun args => Ok args;
  float_to_uint := trunc_uint
|}.

(** Floats of the examples. *)
Definition fz (n : Z) : float := float_of_Z n.
Definition pt (x y z : Z) : vec3 float := mk_vec3 (fz x) (fz y) (fz z).

(** The cubic box of side 10 and the flat box of sides 10 by 10. *)
Definition cube10 : SampleBox := mkSampleBox (fz 10) (fz 10) (fz 10) false.
Definition square10 : SampleBox := mkSampleBox (fz 10) (fz 10) f_zero true.

(** Three points in the cube: the origin, a point near a corner of the
    origin's cell, and a point at distance 1 in the next cell. *)
Definition three_points : list (vec3 float) := [pt 0 0 0; pt 4 4 4; pt (-1) 0 0].

(** The cell list of the three points for cells of width 5: a grid of
    2 by 2 by 2 cells. *)
Definition grid2 : LinkCell (E := SampleExternals) :=
  Eval vm_compute in
    match LinkCell_of_points (E := SampleExternals) cube10 (fz 5) three_points 3 with
    | Ok lc => lc
    | _ => LinkCell_init (E := SampleExternals) cube10 three_points
    end.

(** Iterators of the origin (point 0, itself excluded) over [grid2]: the
    nearest neighbor; the balls of radius 5 and 1/2. *)
Definition nearest_of_origin : LinkCellQueryIterator.t (E := SampleExternals) :=
  LinkCellQueryIterator.init grid2 (pt 0 0 0) 0 1 true.
Definition ball5_of_origin (extra_search_width : Z)
  : LinkCellQueryBallIterator.t (E := SampleExternals) :=
  LinkCellQueryBallIterator.init grid2 (pt 0 0 0) 0 (fz 5) true extra_search_width.
Definition small_ball_of_origin : LinkCellQueryBallIterator.t (E := SampleExternals) :=
  LinkCellQueryBallIterator.init grid2 (pt 0 0 0) 0 f_half true 1.

(** An iterator for the origin as query point number 5 of another set of
    query points, asking for three neighbors with index 5 excluded. *)
Definition nearest_of_foreign_point : LinkCellQueryIterator.t (E := SampleExternals) :=
  LinkCellQueryIterator.init grid2 (pt 0 0 0) 5 3 true.

(** The result of a run, or a default where the run gives none. *)
Definition run_result {A : Type} (r : result A) (default : A) : A :=
  match r with Ok a => a | _ => default end.

(** The cell list of the origin alone, for cells of width 5. *)
Definition lonely_grid : LinkCell (E := SampleExternals) :=
  Eval vm_compute in
    match LinkCell_of_points (E := SampleExternals) cube10 (fz 5) [pt 0 0 0] 1 with
    | Ok lc => lc
    | _ => LinkCell_init (E := SampleExternals) cube10 [pt 0 0 0]
    end.

(** Query arguments of the three modes: no mode; the ball of radius 1/2;
    the nearest neighbor; each with the query point itself excluded. *)
Definition args_of_mode (m : QueryType) : QueryArgs :=
  mkQueryArgs m 1 f_half f_zero f_zero f_one true.

(** Ball queries of radius [r] and k-nearest queries for [k] neighbors,
    the query point itself excluded. *)
Definition args_of_radius (r : float) : QueryArgs :=
  mkQueryArgs ball 1 r f_zero f_zero f_one true.
Definition args_of_count (k : Z) : QueryArgs :=
  mkQueryArgs nearest k f_half f_zero f_zero f_one true.

(** Iterators with arguments at the edge: the balls around the origin over
    [grid2] whose radius is NaN and +infinity, the ball of radius +infinity
    around the only point of [lonely_grid], and the query for zero nearest
    neighbors of that point. *)
Definition nan_ball_of_origin : LinkCellQueryBallIterator.t (E := SampleExternals) :=
  LinkCellQueryBallIterator.init grid2 (pt 0 0 0) 0 S754_nan true 1.
Definition unbounded_ball_of_origin : LinkCellQueryBallIterator.t (E := SampleExternals) :=
  LinkCellQueryBallIterator.init grid2 (pt 0 0 0) 0 (S754_infinity false) true 1.
Definition unbounded_ball_alone : LinkCellQueryBallIterator.t (E := SampleExternals) :=
  LinkCellQueryBallIterator.init lonely_grid (pt 0 0 0) 0 (S754_infinity false) true 1.
Definition nearest_zero_alone : LinkCellQueryIterator.t (E := SampleExternals) :=
  LinkCellQueryIterator.init lonely_grid (pt 0 0 0) 0 0 true.

(** The state of [ball5_of_origin 1] after its first call of [next]. *)
Definition ball5_after_first : LinkCellQueryBallIterator.t (E := SampleExternals) :=
  Eval vm_compute in
    snd (run_result (LinkCellQueryBallIterator.next 100 grid2 (ball5_of_origin 1))
                    (ITERATOR_TERMINATOR, ball5_of_origin 1)).

(** The state of [nearest_of_origin] once driven to exhaustion. *)
Definition nearest_of_origin_after : LinkCellQueryIterator.t (E := SampleExternals) :=
  Eval vm_compute in
    snd (run_result (LinkCellQueryIterator.drain 2 100 grid2 nearest_of_origin)
                    ([], nearest_of_origin)).

(** The states of [ball5_of_origin 0], the ball whose radius is the cell
    width, after its first and after its second call of [next]. *)
Definition ball5_exact_after_first : LinkCellQueryBallIterator.t (E := SampleExternals) :=
  Eval vm_compute in
    snd (run_result (LinkCellQueryBallIterator.next 100 grid2 (ball5_of_origin 0))
                    (ITERATOR_TERMINATOR, ball5_of_origin 0)).
Definition ball5_exact_after_second : LinkCellQueryBallIterator.t (E := SampleExternals) :=
  Eval vm_compute in
    snd (run_result (LinkCellQueryBallIterator.next 100 grid2 ball5_exact_after_first)
                    (ITERATOR_TERMINATOR, ball5_exact_after_first)).

(** Runs the left-hand side of an equation between outcomes. *)
Ltac run_lhs :=
  match goal with
  | |- ?l = _ => let v := eval vm_compute in l in change l with v
  end.

(** ** NeighborBond accessors (NeighborBond.h) *)

Definition getQueryPointIdx (b : NeighborBond) : Z := query_point_idx b.
Definition setQueryPointIdx (b : NeighborBond) (new_qpidx : Z) : NeighborBond :=
  mkNeighborBond new_qpidx (point_idx b) (distance b) (weight b) (vector b).
Definition getPointIdx (b : NeighborBond) : Z := point_idx b.
Definition setPointIdx (b : NeighborBond) (new_pidx : Z) : NeighborBond :=
  mkNeighborBond (query_point_idx b) new_pidx (distance b) (weight b) (vector b).
Definition getWeight (b : NeighborBond) : float := weight b.
Definition setWeight (b : NeighborBond) (new_weight : float) : NeighborBond :=
  mkNeighborBond (query_point_idx b) (point_idx b) (distance b) new_weight (vector b).
Definition getVector (b : NeighborBond) : vec3 float := vector b.
Definition getDistance (b : NeighborBond) : float := distance b.

Section NeighborBondVector.

(** [dot] of two [vec3<float>] is declared in VectorMath.h, which is not
    part of the sources at hand; [setVector] takes it as given. *)
Variable dot : vec3 float -> vec3 float -> float.

(** [NeighborBond::setVector] *)
Definition setVector (b : NeighborBond) (new_vector : vec3 float) : NeighborBond :=
  mkNeighborBond (query_point_idx b) (point_idx b)
                 (fsqrt (dot new_vector new_vector)) (weight b) new_vector.

End NeighborBondVector.

(** Bonds whose weight is a number. *)
Definition weight_ordered (b : NeighborBond) : Prop :=
  is_nan (weight b) = false.

(** The strict lexicographic orders on [(query_point_idx, point_idx,
    weight)] and on [(query_point_idx, distance, point_idx, weight)],
    written from the components' own [<] and [==]. *)
Definition lex_ref_weight (a n : NeighborBond) : bool :=
  (query_point_idx a <? query_point_idx n)
  || ((query_point_idx a =? query_point_idx n)
      && ((point_idx a <? point_idx n)
          || ((point_idx a =? point_idx n) && flt (weight a) (weight n)))).
Definition lex_distance (a n : NeighborBond) : bool :=
  (query_point_idx a <? query_point_idx n)
  || ((query_point_idx a =? query_point_idx n)
      && (flt (distance a) (distance n)
          || (feq (distance a) (distance n)
              && ((point_idx a <? point_idx n)
                  || ((point_idx a =? point_idx n)
                      && flt (weight a) (weight n)))))).

(** A bond with its distance replaced. *)
Definition with_distance (b : NeighborBond) (d : float) : NeighborBond :=
  mkNeighborBond (query_point_idx b) (point_idx b) d (weight b) (vector b).

(** The orders [less_id_ref_weight] and [less_as_distance] compute, on the
    keys of the fields they read. *)
Definition ref_weight_key_lt (a n : NeighborBond) : Prop :=
  query_point_idx a < query_point_idx n
  \/ (query_point_idx a = query_point_idx n
      /\ (point_idx a < point_idx n
          \/ (point_idx a = point_idx n
              /\ key_lt (float_key (weight a)) (float_key (weight n))))).
Definition distance_key_lt (a n : NeighborBond) : Prop :=
  query_point_idx a < query_point_idx n
  \/ (query_point_idx a = query_point_idx n
      /\ (key_lt (float_key (distance a)) (float_key (distance n))
          \/ (key_eq (float_key (distance a)) (float_key (distance n))
              /\ (point_idx a < point_idx n
                  \/ (point_idx a = point_idx n
                      /\ key_lt (float_key (weight a)) (float_key (weight n))))))).

(** ** The cell grid and the members of a cell *)

Section GridSpec.
Context {E : Externals}.

(** The grid of an object whose dimensions have been set: the index is the
    one of the dimensions, no dimension is zero and there is a cell, which
    is what [assert(Nc > 0)] of [computeCellList] asks for. *)
Definition grid_built (lc : LinkCell) : Prop :=
  m_cell_index lc
  = mkIndex3D (vx (m_celldim lc)) (vy (m_celldim lc)) (vz (m_celldim lc))
  /\ 1 <= getNumCells lc
  /\ vx (m_celldim lc) <> 0 /\ vy (m_celldim lc) <> 0 /\ vz (m_celldim lc) <> 0.

(** The loop [for (j = it.next(); !it.atEnd(); j = it.next())] over the cell
    iterator at [cur], as [compute] and the query iterators run it: the
    indices it visits, in order. *)
Fixpoint cell_members (fuel : nat) (lc : LinkCell) (cur : Z) : result (list Z) :=
  match fuel with
  | O => OutOfFuel
  | S fuel' =>
      j <- cell_next lc cur ;;
      if atEnd j then Ok []
      else
        rest <- cell_members fuel' lc j ;;
        Ok (j :: rest)
  end.

(** The indices [m, m + 1, ..., n - 1]. *)
Definition indices_from (m n : Z) : list Z :=
  map (fun k => m + Z.of_nat k) (seq 0 (Z.to_nat (n - m))).

(** Whether point [i] of [points] lies in cell [c]. *)
Definition cell_in (lc : LinkCell) (points : list (vec3 float)) (c i : Z) : bool :=
  match option_map (getCell (m_box lc) (m_cell_index lc)) (read points i) with
  | Some c' => c' =? c
  | None => false
  end.

(** The points of cell [c], by increasing index. *)
Definition points_of_cell (lc : LinkCell) (c : Z) : list Z :=
  filter (cell_in lc (m_points lc) c) (indices_from 0 (m_n_points lc)).

(** The list [l] links [xs] from the entry at [cur] to the terminator. *)
Fixpoint chain (l : list Z) (cur : Z) (xs : list Z) : Prop :=
  match xs with
  | [] => read l cur = Some LINK_CELL_TERMINATOR
  | x :: xs' => read l cur = Some x /\ x <> LINK_CELL_TERMINATOR /\ chain l x xs'
  end.

(** The state of the cell list while [computeCellList] files the points,
    when those from [m] on are filed: every cell links its points among
    them. *)
Definition chained_from (lc : LinkCell) (points : list (vec3 float))
    (n Nc m : Z) (l : list Z) : Prop :=
  forall c, 0 <= c < Nc ->
    chain l (n + c) (filter (cell_in lc points c) (indices_from m n)).

End GridSpec.

(** The grid of the cube of side 10 for cells of width 5, before any point
    is filed. *)
Definition cube10_cells : LinkCell (E := SampleExternals) :=
  Eval vm_compute in
    run_result (LinkCell_of_box (E := SampleExternals) cube10 (fz 5))
               (LinkCell_init (E := SampleExternals) cube10 []).

(** The same grid in the object of the three points, before they are
    filed. *)
Definition three_points_cells : LinkCell (E := SampleExternals) :=
  Eval vm_compute in
    run_result (updateInternal (E := SampleExternals)
                  (LinkCell_init (E := SampleExternals) cube10 three_points)
                  cube10 (fz 5))
               (LinkCell_init (E := SampleExternals) cube10 three_points).

(** ** The neighbor cells of a cell (LinkCell::computeCellNeighbors) *)

(** Modelled from the spec: the members of [Index3D] that
    [computeCellNeighbors] calls, "a grid dimension vector (nx, ny, nz)"
    with its two index operators; Index3D.h is not among the sources, and
    the properties below state what they need of it as hypotheses. *)
Class Index3DOps {E : Externals} : Type := {
  getW : Index3D -> Z;
  getH : Index3D -> Z;
  getD : Index3D -> Z;
  index_of : Index3D -> Z -> Z -> Z -> Z;     (* operator()(i, j, k) *)
  coords_of : Index3D -> Z -> vec3 Z           (* operator()(idx) *)
}.

(** [std::sort] of a vector of cell indices, as an insertion sort. *)
Fixpoint insert_cell_sorted (c : Z) (l : list Z) : list Z :=
  match l with
  | [] => [c]
  | h :: t => if c <? h then c :: l else h :: insert_cell_sorted c t
  end.
Definition sort_cells (l : list Z) : list Z := fold_right insert_cell_sorted [] l.

(** [m_cell_neighbors], the table from a cell to its neighbor cells. *)
Definition CellNeighbors : Type := Z -> option (list Z).
Definition CellNeighbors_insert (t : CellNeighbors) (cell : Z) (cells : list Z)
  : CellNeighbors :=
  fun c => if c =? cell then Some cells else t c.

Section CellNeighborsModel.
Context {E : Externals} {I : Index3DOps}.

(** The values a loop [for (int x = lo; x <= hi; x++)] takes. *)
Definition int_range (lo hi : Z) : list Z := indices_from lo (hi + 1).

(** The first and the last offset of the loop along an axis of [dim] cells
    around the coordinate [i]. *)
Definition neighbor_start (dim i : Z) : Z := if dim <? 3 then i else s32 (i - 1).
Definition neighbor_end (dim i : Z) : Z := if dim <? 2 then i else s32 (i + 1).

(** "wrap back into the box": [(getW() + neighi) % getW()], unsigned, put
    in an [int]. *)
Definition wrap_coord (w neigh : Z) : Z := s32 (u32 (w + neigh) mod w).

(** The three nested loops, pushing one cell each turn. *)
Definition neighbor_cells (lc : LinkCell) (cur_cell : Z) : list Z :=
  let l_idx := coords_of (m_cell_index lc) cur_cell in
  let i := s32 (vx l_idx) in
  let j := s32 (vy l_idx) in
  let k := s32 (vz l_idx) in
  let starti := neighbor_start (vx (m_celldim lc)) i in
  let startj := neighbor_start (vy (m_celldim lc)) j in
  let startk := neighbor_start (vz (m_celldim lc)) k in
  let endi := neighbor_end (vx (m_celldim lc)) i in
  let endj := neighbor_end (vy (m_celldim lc)) j in
  let endk := neighbor_end (vz (m_celldim lc)) k in
  let startk := if is2D (m_box lc) then k else startk in
  let endk := if is2D (m_box lc) then k else endk in
  flat_map (fun neighk =>
    flat_map (fun neighj =>
      map (fun neighi =>
             let wrapi := wrap_coord (getW (m_cell_index lc)) neighi in
             let wrapj := wrap_coord (getH (m_cell_index lc)) neighj in
             let wrapk := wrap_coord (getD (m_cell_index lc)) neighk in
             index_of (m_cell_index lc) (u32 wrapi) (u32 wrapj) (u32 wrapk))
          (int_range starti endi))
      (int_range startj endj))
    (int_range startk endk).

(** [LinkCell::computeCellNeighbors]: the sorted list, entered in the table
    and returned; the remainder by a zero width is undefined. *)
Definition computeCellNeighbors (lc : LinkCell) (t : CellNeighbors) (cur_cell : Z)
  : result (list Z * CellNeighbors) :=
  if (getW (m_cell_index lc) =? 0) || (getH (m_cell_index lc) =? 0)
     || (getD (m_cell_index lc) =? 0)
  then Undefined
  else
    let neighbor_cells := sort_cells (neighbor_cells lc cur_cell) in
    Ok (neighbor_cells, CellNeighbors_insert t cur_cell neighbor_cells).

(** The number of offsets the loop along an axis of [dim] cells takes. *)
Definition axis_count (dim : Z) : Z :=
  if dim <? 2 then 1 else if dim <? 3 then 2 else 3.

End CellNeighborsModel.

(** Modelled from the spec: the index operators of a grid whose cells are
    numbered row by row, as [grid_index] numbers them. *)
Definition SampleIndex3DOps : Index3DOps (E := SampleExternals) :=
  @Build_Index3DOps SampleExternals
    (fun dim => vx (dim : vec3 Z))
    (fun dim => vy (dim : vec3 Z))
    (fun dim => vz (dim : vec3 Z))
    (fun dim i j k => grid_index (dim : vec3 Z) (mk_vec3 i j k))
    (fun dim idx =>
       mk_vec3 (idx mod vx (dim : vec3 Z))
               ((idx / vx (dim : vec3 Z)) mod vy (dim : vec3 Z))
               (idx / (vx (dim : vec3 Z) * vy (dim : vec3 Z)))).

(** An empty table of neighbor cells. *)
Definition no_neighbors : CellNeighbors := fun _ => None.

(** ** Sorted accumulators *)

(** A list of bonds in which no bond is at a smaller distance than one
    before it, as [std::sort] with [operator<] leaves it. *)
Definition distance_sorted (l : list NeighborBond) : Prop :=
  StronglySorted (fun a b => bond_lt b a = false) l.

(** The cell list of four points for cells of width 2, a grid of 5 by 5 by
    5 cells, and the iterator for the two nearest neighbors of the origin
    with its state once driven to exhaustion. *)
Definition four_points : list (vec3 float) :=
  [pt 0 0 0; pt 1 0 0; pt 0 1 0; pt (-4) (-4) (-4)].
Definition grid5 : LinkCell (E := SampleExternals) :=
  Eval vm_compute in
    match LinkCell_of_points (E := SampleExternals) cube10 (fz 2) four_points 4 with
    | Ok lc => lc
    | _ => LinkCell_init (E := SampleExternals) cube10 four_points
    end.
Definition nearest2_of_origin : LinkCellQueryIterator.t (E := SampleExternals) :=
  LinkCellQueryIterator.init grid5 (pt 0 0 0) 0 2 true.
Definition nearest2_drained
  : list NeighborBond * LinkCellQueryIterator.t (E := SampleExternals) :=
  Eval vm_compute in
    run_result (LinkCellQueryIterator.drain 3 400 grid5 nearest2_of_origin)
               ([], nearest2_of_origin).

(** ** fastio: file names for the Windows API (fastio.h) *)

(** A C string is an array of [char] read up to its first NUL; [strlen]
    is undefined on an array that holds none. *)
Fixpoint strlen (s : list Z) : option Z :=
  match s with
  | [] => None
  | c :: t => if c =? 0 then Some 0 else option_map Z.succ (strlen t)
  end.

(** The characters ['/'] and ['\\']. *)
Definition slash : Z := 47.
Definition backslash : Z := 92.

(** The loop of [fio_win32convertfilename], from index [i] for [todo]
    characters. *)
Fixpoint convert_chars (todo : nat) (i : Z) (filename newfilename : list Z)
  : result (list Z) :=
  match todo with
  | O => Ok newfilename
  | S todo' =>
      c <- of_option (read filename i) ;;
      newfilename <-
        (if c =? slash
         then of_option (write newfilename i backslash)
         else of_option (write newfilename i c)) ;;
      convert_chars todo' (i + 1) filename newfilename
  end.

(** [fio_win32convertfilename]: the return value and the buffer. *)
Definition fio_win32convertfilename (filename newfilename : list Z) (maxlen : Z)
  : result (Z * list Z) :=
  n <- of_option (strlen filename) ;;
  let len := s32 n in
  if s32 (len + 1) >=? maxlen then Ok (-1, newfilename)
  else
    newfilename <- convert_chars (Z.to_nat len) 0 filename newfilename ;;
    newfilename <- of_option (write newfilename len 0) ;;
    Ok (0, newfilename).

(** The character a character of the file name is written as. *)
Definition to_backslash (c : Z) : Z := if c =? slash then backslash else c.

(** The name [a/b], a buffer of eight characters and the name as
    converted into the buffer. *)
Definition name_a_b : list Z := [97; 47; 98].
Definition buffer8 : list Z := [1; 1; 1; 1; 1; 1; 1; 1].
Definition name_a_b_converted : list Z := [97; 92; 98; 0; 1; 1; 1; 1].

(** ** The bonds of the k-nearest iterator *)

Section NearestBondSpec.
Context {E : Externals}.

(** A bond as the k-nearest iterator builds it for the query of [it]: to a
    point of the array, at the distance of the wrapped separation, and not
    to the query point itself when self-exclusion is set. *)
Definition nearest_bond (lc : LinkCell) (it : LinkCellQueryIterator.t)
    (b : NeighborBond) : Prop :=
  exists j pj,
    point_at lc j = Ok pj
    /\ b = NeighborBond3 (LinkCellQueryIterator.m_query_point_idx it) j
             (fsqrt (wrapped_rsq lc (LinkCellQueryIterator.m_query_point it) pj))
    /\ (LinkCellQueryIterator.m_exclude_ii it = true ->
        point_idx b <> query_point_idx b).

(** The query of [it'] is the query of [it]. *)
Definition same_nearest_query_point (it it' : LinkCellQueryIterator.t) : Prop :=
  LinkCellQueryIterator.m_query_point it' = LinkCellQueryIterator.m_query_point it
  /\ LinkCellQueryIterator.m_query_point_idx it'
     = LinkCellQueryIterator.m_query_point_idx it
  /\ LinkCellQueryIterator.m_exclude_ii it' = LinkCellQueryIterator.m_exclude_ii it.

End NearestBondSpec.

(** ** The result of a ball query *)

Section BallResultSpec.
Context {E : Externals}.

(** A cell list that links, from the head of every cell of the grid, the
    points of the cell: what [computeCellList] builds. *)
Definition cell_list_complete (lc : LinkCell) : Prop :=
  0 <= m_n_points lc /\ m_n_points lc + m_Nc lc < 2 ^ 32
  /\ forall c, 0 <= c < m_Nc lc ->
       chain (m_cell_list lc) (m_n_points lc + c) (points_of_cell lc c).

(** Whether the ball query of [it] accepts point [j]: the test of
    [LinkCellQueryBallIterator::next] on the point. *)
Definition ball_accepts (lc : LinkCell) (it : LinkCellQueryBallIterator.t) (j : Z)
  : bool :=
  match read (m_points lc) j with
  | Some pj =>
      LinkCellQueryBallIterator.accepts it
        (fmul (LinkCellQueryBallIterator.m_r it) (LinkCellQueryBallIterator.m_r it))
        (wrapped_rsq lc (LinkCellQueryBallIterator.m_query_point it) pj) j
  | None => false
  end.

(** The cell the shell iterator of [it] points at. *)
Definition ball_cell (lc : LinkCell) (it : LinkCellQueryBallIterator.t) : Z :=
  getCellIndex (m_cell_index lc)
               (vadd_int (home lc it)
                         (shell_deref (LinkCellQueryBallIterator.m_neigh_cell_iter it))).

(** A ball iterator before its first call: no cell searched, the cell
    iterator at the head of the cell its shell iterator points at. *)
Definition ball_fresh (lc : LinkCell) (it : LinkCellQueryBallIterator.t) : Prop :=
  LinkCellQueryBallIterator.m_searched_cells it = []
  /\ LinkCellQueryBallIterator.m_cell_iter it = itercell lc (ball_cell lc it).

(** The state of a ball iterator of the query [it0] between two calls,
    after it has yielded the points [ys]: its cell iterator is inside the
    list of the current cell, with [pre] behind it and [suf] ahead; the
    points yielded are the accepted ones of [pre] and of the other cells
    searched. *)
Definition ball_inv (lc : LinkCell) (it0 it : LinkCellQueryBallIterator.t)
    (ys : list Z) : Prop :=
  same_query it0 it
  /\ exists pre suf,
       points_of_cell lc (ball_cell lc it) = pre ++ suf
       /\ chain (m_cell_list lc) (LinkCellQueryBallIterator.m_cell_iter it) suf
       /\ NoDup ys
       /\ forall j, In j ys <->
            ball_accepts lc it0 j = true
            /\ (In j pre
                \/ exists c', c' <> ball_cell lc it
                     /\ In j (points_of_cell lc c')
                     /\ searched (LinkCellQueryBallIterator.m_searched_cells it) c' = true).

(** The points a ball iterator of the query [it0] has yielded when it ends
    in the state [it]: the accepted points of the cells searched, each
    once. *)
Definition ball_result (lc : LinkCell) (it0 it : LinkCellQueryBallIterator.t)
    (ys : list Z) : Prop :=
  NoDup ys
  /\ forall j, In j ys <->
       ball_accepts lc it0 j = true
       /\ exists c, In j (points_of_cell lc c)
            /\ searched (LinkCellQueryBallIterator.m_searched_cells it) c = true.

End BallResultSpec.

(** The bonds and the state of [ball5_of_origin 1] driven to exhaustion. *)
Definition ball5_drained
  : list NeighborBond * LinkCellQueryBallIterator.t (E := SampleExternals) :=
  Eval vm_compute in
    run_result (LinkCellQueryBallIterator.drain 4 200 grid2 (ball5_of_origin 1))
               ([], ball5_of_origin 1).

(** ** The accumulator of a k-nearest query *)

Section NearestResultSpec.
Context {E : Externals}.

(** Whether the k-nearest query of [it] takes point [j]: every point but
    the query point itself under self-exclusion. *)
Definition nearest_eligible (it : LinkCellQueryIterator.t) (j : Z) : bool :=
  negb (LinkCellQueryIterator.m_exclude_ii it
        && (LinkCellQueryIterator.m_query_point_idx it =? j)).

(** The cell whose list the cell iterator of [it] has not started on, if
    any: the iterator is at its end, or at the head of such a cell. *)
Definition nearest_pending (lc : LinkCell) (it : LinkCellQueryIterator.t)
    (p : option Z) : Prop :=
  match p with
  | None => atEnd (LinkCellQueryIterator.m_cell_iter it) = true
  | Some c =>
      atEnd (LinkCellQueryIterator.m_cell_iter it) = false
      /\ LinkCellQueryIterator.m_cell_iter it = m_n_points lc + c
      /\ 0 <= c < m_Nc lc
      /\ searched (LinkCellQueryIterator.m_searched_cells it) c = true
  end.

(** The state of the search of the query [it0]: the accumulator holds one
    bond for each eligible point of the cells searched, the pending one
    apart. *)
Definition nearest_inv (lc : LinkCell) (it0 it : LinkCellQueryIterator.t)
    (p : option Z) : Prop :=
  same_nearest_query_point it0 it
  /\ nearest_pending lc it p
  /\ NoDup (map point_idx (LinkCellQueryIterator.m_current_neighbors it))
  /\ forall j, In j (map point_idx (LinkCellQueryIterator.m_current_neighbors it)) <->
       nearest_eligible it0 j = true
       /\ exists c, In j (points_of_cell lc c)
            /\ searched (LinkCellQueryIterator.m_searched_cells it) c = true
            /\ Some c <> p.

End NearestResultSpec.

(** The outcome of the first call of [next] on [nearest_of_origin]. *)
Definition nearest_of_origin_first
  : yielded * LinkCellQueryIterator.t (E := SampleExternals) :=
  Eval vm_compute in
    run_result (LinkCellQueryIterator.next 100 grid2 nearest_of_origin)
               (ITERATOR_TERMINATOR, nearest_of_origin).

(* ================================================================== *)
(** * Properties *)
(* ================================================================== *)

(** ** Float comparison *)

Lemma flt_key (a b : float) :
  is_nan a = false -> is_nan b = false ->
  (flt a b = true <-> key_lt (float_key a) (float_key b)).
Proof.
  unfold flt, SFltb.
  destruct a as [sa|sa| |sa ma ea], b as [sb|sb| |sb mb eb]; simpl;
    try discriminate; intros _ _;
    try (destruct sa); try (destruct sb); simpl;
    try (split; [discriminate | lia]);
    try (split; [lia | reflexivity]).
  - change (Pos.compare_cont Eq ma mb) with (Pos.compare ma mb).
    destruct (Z.compare_spec ea eb); destruct (Pos.compare_spec ma mb); simpl;
      split; try discriminate; try reflexivity; lia.
  - change (Pos.compare_cont Eq ma mb) with (Pos.compare ma mb).
    destruct (Z.compare_spec ea eb); destruct (Pos.compare_spec ma mb); simpl;
      split; try discriminate; try reflexivity; lia.
Qed.

Lemma feq_key (a b : float) :
  is_nan a = false -> is_nan b = false ->
  (feq a b = true <-> float_key a = float_key b).
Proof.
  unfold feq, SFeqb.
  destruct a as [sa|sa| |sa ma ea], b as [sb|sb| |sb mb eb]; simpl;
    try discriminate; intros _ _;
    try (destruct sa); try (destruct sb); simpl;
    try (split; [discriminate | intros H; inversion H; lia]);
    try (split; [reflexivity | reflexivity]);
    try (split; [intros _; reflexivity | reflexivity]).
  - change (Pos.compare_cont Eq ma mb) with (Pos.compare ma mb).
    destruct (Z.compare_spec ea eb); destruct (Pos.compare_spec ma mb); simpl;
      split; try discriminate; try (intros H'; inversion H'; lia);
      intros _; subst; reflexivity.
  - change (Pos.compare_cont Eq ma mb) with (Pos.compare ma mb).
    destruct (Z.compare_spec ea eb); destruct (Pos.compare_spec ma mb); simpl;
      split; try discriminate; try (intros H'; inversion H'; lia);
      intros _; subst; reflexivity.
Qed.

(** ** NeighborBond comparators *)


Lemma key_eq_iff (a b : Z * Z * Z) : a = b <-> key_eq a b.
Proof.
  destruct a as [[a1 a2] a3], b as [[b1 b2] b3]; simpl; split.
  - intros H; inversion H; auto.
  - intros (-> & -> & ->); reflexivity.
Qed.

Lemma flt_false_key (a b : float) :
  is_nan a = false -> is_nan b = false ->
  (flt a b = false <-> ~ key_lt (float_key a) (float_key b)).
Proof.
  intros Ha Hb. rewrite <- (flt_key a b Ha Hb).
  destruct (flt a b); split; congruence.
Qed.

Lemma fne_key (a b : float) :
  is_nan a = false -> is_nan b = false ->
  (fne a b = true <-> ~ key_eq (float_key a) (float_key b)).
Proof.
  intros Ha Hb. unfold fne. rewrite <- key_eq_iff, <- (feq_key a b Ha Hb).
  destruct (feq a b) eqn:E; unfold feq in E; rewrite E; simpl; split; congruence.
Qed.

(** [flt] never relates a NaN, so it is irreflexive and transitive on all
    floats. *)
Lemma flt_not_nan (a b : float) :
  flt a b = true -> is_nan a = false /\ is_nan b = false.
Proof.
  unfold flt, SFltb. destruct a, b; simpl; try discriminate; auto.
Qed.

Lemma flt_irrefl (a : float) : flt a a = false.
Proof.
  destruct (is_nan a) eqn:Ha.
  - destruct a; try discriminate; reflexivity.
  - apply flt_false_key; trivial.
    destruct (float_key a) as [[a1 a2] a3]; simpl; lia.
Qed.

Lemma flt_trans (a b c : float) :
  flt a b = true -> flt b c = true -> flt a c = true.
Proof.
  intros Hab Hbc.
  destruct (flt_not_nan _ _ Hab) as [Ha Hb].
  destruct (flt_not_nan _ _ Hbc) as [_ Hc].
  apply flt_key in Hab; trivial. apply flt_key in Hbc; trivial.
  apply flt_key; trivial.
  destruct (float_key a) as [[a1 a2] a3], (float_key b) as [[b1 b2] b3],
    (float_key c) as [[c1 c2] c3]; simpl in *; lia.
Qed.

Lemma feq_flt_false (a b : float) : feq a b = true -> flt a b = false.
Proof.
  unfold feq, flt, SFeqb, SFltb. destruct (SFcompare a b) as [[]|]; congruence.
Qed.


Lemma less_as_tuple_lex (a n : NeighborBond) : less_as_tuple a n = lex_tuple a n.
Proof.
  unfold less_as_tuple, lex_tuple, fne.
  destruct (Z.eqb_spec (query_point_idx a) (query_point_idx n)) as [Hq|Hq]; simpl.
  - rewrite Hq, Z.ltb_irrefl; simpl.
    destruct (Z.eqb_spec (point_idx a) (point_idx n)) as [Hp|Hp]; simpl.
    + rewrite Hp, Z.ltb_irrefl; simpl.
      destruct (feq (weight a) (weight n)) eqn:Hw; unfold feq in Hw; rewrite Hw; simpl.
      * rewrite (feq_flt_false _ _ Hw); reflexivity.
      * rewrite orb_false_r; reflexivity.
    + rewrite orb_false_r; reflexivity.
  - rewrite orb_false_r; reflexivity.
Qed.

Lemma less_as_tuple_key (a n : NeighborBond) :
  tuple_ordered a -> tuple_ordered n ->
  (less_as_tuple a n = true <-> tuple_key_lt a n).
Proof.
  intros [Hda Hwa] [Hdn Hwn]. unfold less_as_tuple, tuple_key_lt.
  pose proof (flt_key _ _ Hwa Hwn) as Kw.
  pose proof (flt_key _ _ Hda Hdn) as Kd.
  pose proof (fne_key _ _ Hwa Hwn) as Nw.
  destruct (Z.eqb_spec (query_point_idx a) (query_point_idx n)) as [Hq|Hq]; simpl.
  - destruct (Z.eqb_spec (point_idx a) (point_idx n)) as [Hp|Hp]; simpl.
    + destruct (fne (weight a) (weight n)) eqn:Hw.
      * rewrite Kw. assert (~ key_eq (float_key (weight a)) (float_key (weight n)))
          by (apply Nw; reflexivity). split; [intros; right; split; trivial; right; split; trivial; left; trivial|].
        intros [?|[_ [?|[_ [?|[? _]]]]]]; trivial; try lia; contradiction.
      * assert (He : key_eq (float_key (weight a)) (float_key (weight n))).
        { destruct (float_key (weight a)) as [[a1 a2] a3], (float_key (weight n)) as [[b1 b2] b3].
          simpl in *. destruct Nw as [_ Nw].
          destruct (Z.eq_dec a1 b1), (Z.eq_dec a2 b2), (Z.eq_dec a3 b3); auto;
            (assert (false = true) by (apply Nw; lia); discriminate). }
        rewrite Kd. split; [intros; right; split; trivial; right; split; trivial; right; split; trivial|].
        intros [?|[_ [?|[_ [Hlt|[_ ?]]]]]]; trivial; try lia.
        exfalso. destruct (float_key (weight a)) as [[a1 a2] a3], (float_key (weight n)) as [[b1 b2] b3].
        simpl in *; lia.
    + rewrite Z.ltb_lt. split; [intros; right; split; trivial; left; trivial|].
      intros [?|[_ [?|[? _]]]]; trivial; try lia.
  - rewrite Z.ltb_lt. split; [intros; left; trivial|]. intros [?|[? _]]; trivial; lia.
Qed.

Lemma less_as_tuple_false_key (a n : NeighborBond) :
  tuple_ordered a -> tuple_ordered n ->
  (less_as_tuple a n = false <-> ~ tuple_key_lt a n).
Proof.
  intros Ha Hn. rewrite <- (less_as_tuple_key a n Ha Hn).
  destruct (less_as_tuple a n); split; congruence.
Qed.


Lemma bond_lt_strict_weak_order : strict_weak_order distance_ordered bond_lt.
Proof.
  unfold strict_weak_order, distance_ordered, bond_lt. repeat split.
  - intros a _. apply flt_irrefl.
  - intros a b c _ _ _. apply flt_trans.
  - revert H2 H3 H4 H5. rewrite !flt_false_key by assumption.
    open_keys; simpl; lia.
  - revert H2 H3 H4 H5. rewrite !flt_false_key by assumption.
    open_keys; simpl; lia.
Qed.

Lemma less_as_tuple_strict_weak_order : strict_weak_order tuple_ordered less_as_tuple.
Proof.
  unfold strict_weak_order. repeat split.
  - intros a Ha. apply less_as_tuple_false_key; trivial.
    unfold tuple_key_lt. open_keys; simpl; lia.
  - intros a b c Ha Hb Hc. rewrite !less_as_tuple_key by assumption.
    unfold tuple_key_lt. open_keys; simpl; lia.
  - revert H2 H3 H4 H5. rewrite !less_as_tuple_false_key by assumption.
    unfold tuple_key_lt. open_keys; simpl; lia.
  - revert H2 H3 H4 H5. rewrite !less_as_tuple_false_key by assumption.
    unfold tuple_key_lt. open_keys; simpl; lia.
Qed.

(** C7 (as amended).  [operator<] compares two bonds by their distances
    alone, and [less_as_tuple] is the strict lexicographic order on
    [(query_point_idx, point_idx, weight, distance)]; each of them is a strict
    weak ordering on the bonds whose compared float fields are numbers (not
    NaN). *)
Theorem NeighborBond_comparison_orders :
  (forall a n, bond_lt a n = flt (distance a) (distance n))
  /\ (forall a n, less_as_tuple a n = lex_tuple a n)
  /\ strict_weak_order distance_ordered bond_lt
  /\ strict_weak_order tuple_ordered less_as_tuple.
Proof.
  split; [reflexivity|].
  split; [exact less_as_tuple_lex|].
  split; [exact bond_lt_strict_weak_order | exact less_as_tuple_strict_weak_order].
Qed.

(** C7 as stated fails on bonds that hold a NaN: a bond of distance NaN is
    incomparable under [operator<] with the bonds of distance 1 and 2, which
    are ordered; the same happens to [less_as_tuple] with a NaN weight.
    Neither comparator is a strict weak ordering on all bonds. *)
Lemma NeighborBond_orders_break_on_nan :
  bond_lt (bond_at_distance f_one) (bond_at_distance S754_nan) = false
  /\ bond_lt (bond_at_distance S754_nan) (bond_at_distance f_one) = false
  /\ bond_lt (bond_at_distance S754_nan) (bond_at_distance f_two) = false
  /\ bond_lt (bond_at_distance f_two) (bond_at_distance S754_nan) = false
  /\ bond_lt (bond_at_distance f_one) (bond_at_distance f_two) = true
  /\ ~ strict_weak_order (fun _ : NeighborBond => True) bond_lt
  /\ ~ strict_weak_order (fun _ : NeighborBond => True) less_as_tuple.
Proof.
  repeat (split; [reflexivity|]). split.
  - intros (_ & _ & H).
    destruct (H (bond_at_distance f_one) (bond_at_distance S754_nan)
                (bond_at_distance f_two) I I I) as [H1 _]; try reflexivity.
    discriminate H1.
  - intros (_ & _ & H).
    destruct (H (bond_of_weight f_one) (bond_of_weight S754_nan)
                (bond_of_weight f_two) I I I) as [H1 _]; try reflexivity.
    discriminate H1.
Qed.



(** ** Building the cell list *)

Section BuildProperties.
Context {E : Externals}.

Lemma bind_Ok {A B : Type} (r : result A) (k : A -> result B) (b : B) :
  bind r k = Ok b -> exists a, r = Ok a /\ k a = Ok b.
Proof. destruct r; simpl; try discriminate. intros H; eauto. Qed.

Lemma vec3_eta {T : Type} (d : vec3 T) : mk_vec3 (vx d) (vy d) (vz d) = d.
Proof. destruct d; reflexivity. Qed.

(** What a successful [updateInternal] leaves in the object. *)
Lemma updateInternal_Ok (lc lc' : LinkCell) (box : Box) (cell_width : float) :
  updateInternal lc box cell_width = Ok lc' ->
  (fne cell_width (m_cell_width lc) || box_ne box (m_box lc) = false /\ lc' = lc)
  \/ (m_box lc' = box /\ m_cell_width lc' = cell_width
      /\ (box_ne box null_box = true -> box_too_small box cell_width = false)
      /\ m_celldim lc' =
           (if box_ne box null_box && is2D box
            then mk_vec3 (vx (computeDimensions box cell_width))
                         (vy (computeDimensions box cell_width)) 1
            else computeDimensions box cell_width)).
Proof.
  unfold updateInternal.
  destruct (fne cell_width (m_cell_width lc) || box_ne box (m_box lc)).
  2:{ intros H; inversion H; auto. }
  intros H. right.
  apply bind_Ok in H. destruct H as (celldim & Hdim & H).
  apply bind_Ok in H. destruct H as (lc1 & Hlc1 & H).
  inversion H; subst lc'; clear H. simpl.
  assert (Hd : (box_ne box null_box = true -> box_too_small box cell_width = false)
               /\ celldim = (if box_ne box null_box && is2D box
                             then mk_vec3 (vx (computeDimensions box cell_width))
                                          (vy (computeDimensions box cell_width)) 1
                             else computeDimensions box cell_width)).
  { destruct (box_ne box null_box); simpl in *.
    - destruct (box_too_small box cell_width); [discriminate|].
      inversion Hdim. split; [reflexivity|].
      destruct (is2D box); reflexivity.
    - inversion Hdim. split; [discriminate | reflexivity]. }
  destruct Hd as [Hsmall Hd]. subst celldim.
  destruct (negb _) eqn:Hcmp in Hlc1.
  - destruct (getNumElements _ <? 1); [discriminate|].
    inversion Hlc1; subst lc1. cbn [set_cell_width set_cells set_box m_box m_cell_width m_celldim].
    auto.
  - inversion Hlc1; subst lc1. cbn [set_cell_width set_cells set_box m_box m_cell_width m_celldim].
    apply negb_false_iff in Hcmp. cbn [set_box m_celldim] in Hcmp.
    apply andb_prop in Hcmp. destruct Hcmp as [Hxy Hz].
    apply andb_prop in Hxy. destruct Hxy as [Hx Hy].
    apply Z.eqb_eq in Hx, Hy, Hz.
    repeat split; trivial.
    destruct (m_celldim lc) as [cx cy cz]. cbn [vx vy vz] in Hx, Hy, Hz. subst cx cy cz.
    apply vec3_eta.
Qed.

(** A width the box is too small for is refused, whenever the request
    is not the cached one. *)
Lemma updateInternal_too_small (lc : LinkCell) (box : Box) (cell_width : float) :
  fne cell_width (m_cell_width lc) || box_ne box (m_box lc) = true ->
  box_ne box null_box = true ->
  box_too_small box cell_width = true ->
  updateInternal lc box cell_width = Throw InvalidCellWidth.
Proof.
  intros Hg Hn Hs. unfold updateInternal. rewrite Hg, Hn, Hs. reflexivity.
Qed.

(** [computeCellList] on no points. *)
Lemma computeCellList_no_points (lc lc' : LinkCell) (box : Box)
    (points : list (vec3 float)) :
  updateBox lc box = Ok lc' ->
  computeCellList lc box points 0 = Throw EmptyPointSet.
Proof.
  intros H. unfold computeCellList. rewrite H. reflexivity.
Qed.

(** After a successful [updateInternal], the same request succeeds
    again. *)
Lemma updateInternal_again (lc lc' : LinkCell) (box : Box) (cell_width : float) :
  updateInternal lc box cell_width = Ok lc' ->
  exists lc'', updateInternal lc' box cell_width = Ok lc''.
Proof.
  intros H. destruct (updateInternal_Ok _ _ _ _ H) as [[_ ->]|(Hb & Hw & Hs & Hd)].
  - eauto.
  - unfold updateInternal.
    destruct (fne cell_width (m_cell_width lc') || box_ne box (m_box lc')); [|eauto].
    assert (Hdim : (if box_ne box null_box
                    then if box_too_small box cell_width then Throw InvalidCellWidth
                         else Ok (if is2D box
                                  then mk_vec3 (vx (computeDimensions box cell_width))
                                               (vy (computeDimensions box cell_width)) 1
                                  else computeDimensions box cell_width)
                    else Ok (computeDimensions box cell_width))
                   = Ok (m_celldim lc')).
    { rewrite Hd. destruct (box_ne box null_box); simpl.
      - rewrite Hs by reflexivity. reflexivity.
      - reflexivity. }
    rewrite Hdim. simpl. rewrite !Z.eqb_refl. simpl. eauto.
Qed.

(** The constructor from points, on no points. *)
Lemma LinkCell_of_no_points (box : Box) (cell_width : float)
    (points : list (vec3 float)) (lc' : LinkCell) :
  updateInternal (LinkCell_init box points) box cell_width = Ok lc' ->
  LinkCell_of_points box cell_width points 0 = Throw EmptyPointSet.
Proof.
  intros H. unfold LinkCell_of_points. rewrite H. simpl.
  destruct (updateInternal_Ok _ _ _ _ H) as [[Hg ->]|(Hb & Hw & _)].
  - apply orb_false_elim in Hg. destruct Hg as [_ Hg].
    unfold computeCellList, updateBox, updateInternal.
    cbn [LinkCell_init m_cell_width m_box] in *. rewrite Hg. reflexivity.
  - destruct (updateInternal_again _ _ _ _ H) as [lc'' H'].
    apply computeCellList_no_points with (lc' := lc'').
    unfold updateBox. rewrite Hw. exact H'.
Qed.

End BuildProperties.

(** ** The ball iterator: what a call of [next] can yield *)

Section BallYield.
Context {E : Externals}.
Import LinkCellQueryBallIterator.


Lemma same_query_refl (it : t) : same_query it it.
Proof. repeat split. Qed.

Lemma same_query_trans (a b c : t) :
  same_query a b -> same_query b c -> same_query a c.
Proof.
  unfold same_query. intros (?&?&?&?&?) (?&?&?&?&?). repeat split; congruence.
Qed.


Lemma accepts_spec (it : t) (r_cutsq rsq : float) (j : Z) :
  accepts it r_cutsq rsq j = true ->
  flt rsq r_cutsq = true /\ (m_exclude_ii it = true -> j <> m_query_point_idx it).
Proof.
  unfold accepts. intros H. apply andb_prop in H. destruct H as [H1 H2].
  split; trivial. intros He Hj. rewrite He, Hj, Z.eqb_refl in H2. discriminate.
Qed.

Lemma scan_cell_spec (fuel : nat) (lc : LinkCell) (r_cutsq : float) :
  forall (it it' : t) (found : option NeighborBond),
    scan_cell fuel lc r_cutsq it = Ok (found, it') ->
    same_query it it'
    /\ m_neigh_cell_iter it' = m_neigh_cell_iter it
    /\ m_searched_cells it' = m_searched_cells it
    /\ m_finished it' = m_finished it
    /\ match found with
       | Some b => accepted_bond lc it r_cutsq b /\ m_cell_iter it' = point_idx b
       | None => atEnd (m_cell_iter it') = true
       end.
Proof.
  induction fuel as [|fuel IH]; intros it it' found; simpl; [discriminate|].
  intros H. apply bind_Ok in H. destruct H as (j & Hj & H).
  destruct (atEnd j) eqn:Hend.
  - inversion H; subst. repeat split; assumption.
  - apply bind_Ok in H. destruct H as (pj & Hpj & H).
    cbn [set_cell_iter m_query_point m_query_point_idx] in H.
    destruct (accepts _ _ _ _) eqn:Hacc.
    + inversion H; subst. repeat split.
      apply accepts_spec in Hacc. cbn [set_cell_iter m_exclude_ii m_query_point_idx] in Hacc.
      exists j, pj. tauto.
    + apply IH in H. destruct H as (Hq & Hs & Hc & Hf & Hfound).
      repeat split; try apply Hq; trivial.
Qed.

Lemma next_cell_spec (fuel : nat) (lc : LinkCell) (point_cell : vec3 Z) :
  forall (it it' : t) (out : bool),
    next_cell fuel lc point_cell it = Ok (out, it') ->
    same_query it it' /\ m_finished it' = m_finished it
    /\ out = out_of_range lc it (m_neigh_cell_iter it').
Proof.
  induction fuel as [|fuel IH]; intros it it' out; simpl; [discriminate|].
  destruct (out_of_range lc _ _) eqn:Hout.
  - intros H; inversion H; subst. repeat split. symmetry; exact Hout.
  - destruct (insert_cell _ _) as [cells fresh]. destruct fresh.
    + intros H; inversion H; subst. repeat split. symmetry; exact Hout.
    + intros H. apply IH in H. destruct H as (Hq & Hf & Ho).
      repeat split; try apply Hq; trivial.
Qed.

Lemma search_yield (fuel : nat) (lc : LinkCell) (point_cell : vec3 Z)
    (r_cutsq : float) :
  forall (it it' : t) (b : NeighborBond),
    search fuel lc point_cell r_cutsq it = Ok (Yield b, it') ->
    accepted_bond lc it r_cutsq b /\ m_cell_iter it' = point_idx b
    /\ m_finished it' = m_finished it.
Proof.
  induction fuel as [|fuel IH]; intros it it' b; [discriminate|].
  cbn [search]. intros H.
  apply bind_Ok in H. destruct H as ([found it1] & Hscan & H).
  apply scan_cell_spec in Hscan. destruct Hscan as (Hq & _ & _ & Hf & Hfound).
  destruct found as [b'|].
  - inversion H; subst. destruct Hfound. auto.
  - apply bind_Ok in H. destruct H as ([out it2] & Hmove & H).
    apply next_cell_spec in Hmove. destruct Hmove as (Hq2 & Hf2 & _).
    destruct out; [discriminate|].
    apply IH in H. destruct H as ((j & pj & Hp & Hb & Hlt & Hex) & Hcur & Hf3).
    destruct Hq as (_ & Hq1 & Hq2' & Hq3 & _). destruct Hq2 as (_ & Hq4 & Hq5 & Hq6 & _).
    split; [|split; [exact Hcur|congruence]].
    exists j, pj. rewrite <- Hq1, <- Hq4, <- Hq2', <- Hq5, <- Hq3, <- Hq6. auto.
Qed.

(** Every bond a call of [next] yields was built for a point whose wrapped
    squared distance is below [m_r * m_r] and which is not the query point
    itself when [m_exclude_ii] is set. *)
Lemma next_yield (fuel : nat) (lc : LinkCell) (it it' : t) (b : NeighborBond) :
  next fuel lc it = Ok (Yield b, it') ->
  accepted_bond lc it (fmul (m_r it) (m_r it)) b /\ m_cell_iter it' = point_idx b.
Proof.
  unfold next. intros H. apply search_yield in H. destruct H as (H & Hc & _).
  split; [exact H|exact Hc].
Qed.

End BallYield.

(** ** Arrays *)

Lemma set_nth_length {A : Type} (a : list A) (n : nat) (v : A) :
  List.length (set_nth a n v) = List.length a.
Proof.
  revert n; induction a as [|h t IH]; intros [|n]; simpl; auto.
Qed.

Lemma nth_error_set_nth_eq {A : Type} (a : list A) (n : nat) (v : A) :
  (n < List.length a)%nat -> nth_error (set_nth a n v) n = Some v.
Proof.
  revert n; induction a as [|h t IH]; intros [|n]; simpl; intros H;
    try lia; auto. apply IH. lia.
Qed.

Lemma nth_error_set_nth_neq {A : Type} (a : list A) (n m : nat) (v : A) :
  n <> m -> nth_error (set_nth a n v) m = nth_error a m.
Proof.
  revert n m; induction a as [|h t IH]; intros [|n] [|m]; simpl; intros H;
    try congruence; auto.
Qed.

Lemma read_eq {A : Type} (a : list A) (i : Z) :
  0 <= i -> read a i = nth_error a (Z.to_nat i).
Proof.
  intros Hi. unfold read.
  destruct (Z.ltb_spec i 0) as [Hlt|Hge]; [lia|].
  destruct (Z.leb_spec (Z.of_nat (List.length a)) i) as [Hle|Hlt]; simpl.
  - symmetry. apply nth_error_None. lia.
  - reflexivity.
Qed.

Lemma read_Some {A : Type} (a : list A) (i : Z) (v : A) :
  read a i = Some v -> 0 <= i < Z.of_nat (List.length a).
Proof.
  unfold read.
  destruct (Z.ltb_spec i 0); [discriminate|].
  destruct (Z.leb_spec (Z.of_nat (List.length a)) i); simpl; try discriminate.
  intros _. lia.
Qed.

Lemma read_in_bounds {A : Type} (a : list A) (i : Z) :
  0 <= i < Z.of_nat (List.length a) -> exists v, read a i = Some v.
Proof.
  intros Hb. rewrite read_eq by lia.
  destruct (nth_error a (Z.to_nat i)) eqn:Hn; [eauto|].
  apply nth_error_None in Hn. lia.
Qed.

Lemma write_Some {A : Type} (a a' : list A) (i : Z) (v : A) :
  write a i v = Some a' ->
  0 <= i < Z.of_nat (List.length a)
  /\ List.length a' = List.length a
  /\ read a' i = Some v
  /\ (forall k, k <> i -> read a' k = read a k).
Proof.
  unfold write.
  destruct (Z.leb_spec 0 i); simpl; [|discriminate].
  destruct (Z.ltb_spec i (Z.of_nat (List.length a))); [|discriminate].
  intros H'; inversion H'; subst a'; clear H'.
  split; [lia|]. split; [apply set_nth_length|]. split.
  - rewrite read_eq by lia. apply nth_error_set_nth_eq. lia.
  - intros k Hk. unfold read. rewrite set_nth_length.
    destruct ((k <? 0) || (Z.of_nat (List.length a) <=? k)) eqn:Hb; trivial.
    apply orb_false_elim in Hb. destruct Hb as [Hb _]. apply Z.ltb_ge in Hb.
    apply nth_error_set_nth_neq. lia.
Qed.

Lemma write_in_bounds {A : Type} (a : list A) (i : Z) (v : A) :
  0 <= i < Z.of_nat (List.length a) -> exists a', write a i v = Some a'.
Proof.
  intros Hb. unfold write.
  destruct (Z.leb_spec 0 i); simpl; [|lia].
  destruct (Z.ltb_spec i (Z.of_nat (List.length a))); [eauto|lia].
Qed.

Lemma of_option_Ok {A : Type} (o : option A) (a : A) :
  of_option o = Ok a -> o = Some a.
Proof. destruct o; simpl; congruence. Qed.

Lemma u32_small (z : Z) : 0 <= z < 2 ^ 32 -> u32 z = z.
Proof. intros H. unfold u32. apply Z.mod_small. exact H. Qed.

Lemma s32_small (z : Z) : 0 <= z < 2 ^ 31 -> s32 z = z.
Proof.
  intros H. unfold s32. rewrite Z.mod_small; lia.
Qed.

(** ** The cell list that [computeCellList] builds *)

Section CellListProperties.
Context {E : Externals}.

Lemma init_heads_spec (todo : nat) (n : Z) :
  forall (cell : Z) (l l' : list Z),
    0 <= n -> 0 <= cell -> n + cell + Z.of_nat todo < 2 ^ 32 ->
    init_heads todo n cell l = Ok l' ->
    List.length l' = List.length l
    /\ (forall c, cell <= c < cell + Z.of_nat todo ->
          read l' (n + c) = Some LINK_CELL_TERMINATOR)
    /\ (forall k, ~ (n + cell <= k < n + cell + Z.of_nat todo) ->
          read l' k = read l k).
Proof.
  induction todo as [|todo IH]; intros cell l l' Hn Hc Hb; simpl.
  - intros H; inversion H; subst. repeat split; intros; try lia; reflexivity.
  - intros H. apply bind_Ok in H. destruct H as (l1 & Hw & H).
    apply of_option_Ok in Hw. rewrite u32_small in Hw by lia.
    rewrite u32_small in H by lia.
    apply write_Some in Hw. destruct Hw as (Hi & Hlen & Hrd & Hoth).
    apply IH in H; try lia. destruct H as (Hlen' & Hheads & Hrest).
    split; [congruence|]. split.
    + intros c Hcr. destruct (Z.eq_dec c cell) as [->|Hne].
      * rewrite Hrest by lia. exact Hrd.
      * apply Hheads. lia.
    + intros k Hk. rewrite Hrest by lia. apply Hoth. lia.
Qed.


Lemma fill_cells_spec (lc : LinkCell) (points : list (vec3 float)) (n Nc : Z) :
  forall (todo : nat) (l l' : list Z),
    Z.of_nat todo <= n -> 0 <= Nc -> n + Nc < 2 ^ 32 ->
    cells_in_grid (m_box lc) (m_cell_index lc) points = true ->
    Nc = getNumElements (m_cell_index lc) ->
    filed_from lc points n Nc (Z.of_nat todo) l ->
    fill_cells todo lc points n l = Ok l' ->
    filed_from lc points n Nc 0 l'.
Proof.
  induction todo as [|todo IH]; intros l l' Htodo HNc Hb Hgrid HNcE Hinv; simpl.
  - intros H; inversion H; subst. exact Hinv.
  - intros H. apply bind_Ok in H. destruct H as (p & Hp & H).
    apply of_option_Ok in Hp.
    apply bind_Ok in H. destruct H as (head & Hhead & H).
    apply of_option_Ok in Hhead.
    apply bind_Ok in H. destruct H as (l1 & Hw1 & H).
    apply of_option_Ok in Hw1.
    apply bind_Ok in H. destruct H as (l2 & Hw2 & H).
    apply of_option_Ok in Hw2.
    set (i := Z.of_nat todo) in *.
    set (cell := getCell (m_box lc) (m_cell_index lc) p) in *.
    assert (Hcell : 0 <= cell < Nc).
    { unfold cells_in_grid in Hgrid. rewrite forallb_forall in Hgrid.
      assert (Hin : In p points).
      { pose proof (read_Some _ _ _ Hp) as Hpb.
        rewrite read_eq in Hp by lia. eapply nth_error_In; eauto. }
      specialize (Hgrid p Hin). apply andb_prop in Hgrid.
      destruct Hgrid as [H1 H2]. apply Z.leb_le in H1. apply Z.ltb_lt in H2.
      subst cell Nc. lia. }
    rewrite u32_small in Hhead, Hw2 by lia.
    apply write_Some in Hw1. destruct Hw1 as (Hi1 & Hlen1 & Hrd1 & Hoth1).
    apply write_Some in Hw2. destruct Hw2 as (Hi2 & Hlen2 & Hrd2 & Hoth2).
    destruct Hinv as (Hlen & Hheads & Hnext).
    assert (Hi : Z.of_nat (S todo) = i + 1) by lia.
    rewrite Hi in *.
    apply (IH l2 l'); trivial; try lia.
    split; [|split].
    + lia.
    + intros c Hc. destruct (Z.eq_dec c cell) as [->|Hne].
      * exists i. split; [exact Hrd2|]. right. split; [lia|].
        rewrite Hp. reflexivity.
      * rewrite Hoth2 by lia. rewrite Hoth1 by lia.
        destruct (Hheads c Hc) as (j & Hj & Hjs). exists j. split; trivial.
        destruct Hjs as [?|[? ?]]; [left; trivial | right; split; trivial; lia].
    + intros k Hk. destruct (Z.eq_dec k i) as [->|Hne].
      * rewrite Hoth2 by lia. exists head. split; [exact Hrd1|].
        destruct (Hheads cell Hcell) as (j & Hj & Hjs).
        assert (j = head) by congruence. subst j.
        destruct Hjs as [?|[? Hcj]]; [left; trivial|right].
        split; [lia|]. rewrite Hcj, Hp. reflexivity.
      * rewrite Hoth2 by lia. rewrite Hoth1 by lia. apply Hnext. lia.
Qed.

Lemma filed_from_wf (lc : LinkCell) :
  0 <= m_n_points lc -> 0 <= m_Nc lc -> m_n_points lc + m_Nc lc < 2 ^ 32 ->
  m_n_points lc <= Z.of_nat (List.length (m_points lc)) ->
  filed_from lc (m_points lc) (m_n_points lc) (m_Nc lc) 0 (m_cell_list lc) ->
  cell_list_wf lc.
Proof.
  intros Hn HNc Hb Hp (Hlen & Hheads & Hnext).
  unfold cell_list_wf, cell_of. repeat split; trivial.
Qed.

(** [computeCellList] leaves a well-formed cell list, when it allocates the
    array or is handed one of the right size. *)
Lemma computeCellList_wf (lc0 lc1 lc : LinkCell) (box : Box)
    (points : list (vec3 float)) (n : Z) :
  updateBox lc0 box = Ok lc1 ->
  computeCellList lc0 box points n = Ok lc ->
  0 < n <= 2 ^ 31 ->
  n <= Z.of_nat (List.length points) ->
  0 <= getNumCells lc1 -> n + getNumCells lc1 < 2 ^ 32 ->
  (m_n_points lc1 = n -> m_Nc lc1 = getNumCells lc1 ->
   Z.of_nat (List.length (m_cell_list lc1)) = n + getNumCells lc1) ->
  cells_in_grid (m_box lc1) (m_cell_index lc1) points = true ->
  cell_list_wf lc
  /\ m_box lc = m_box lc1 /\ m_cell_index lc = m_cell_index lc1
  /\ m_cell_width lc = m_cell_width lc1
  /\ m_n_points lc = n /\ m_Nc lc = getNumCells lc1 /\ m_points lc = points.
Proof.
  intros Hupd H Hn Hpts HNc Hb Hcached Hgrid.
  unfold computeCellList in H. rewrite Hupd in H. cbn [bind] in H.
  destruct (Z.eqb_spec n 0) as [->|_]; [lia|].
  apply bind_Ok in H. destruct H as (l1 & Hinit & H).
  apply bind_Ok in H. destruct H as (l2 & Hfill & H).
  inversion H; subst lc; clear H.
  cbn [set_cell_list m_box m_cell_index m_cell_width m_n_points m_Nc m_points].
  split; [|repeat split].
  set (Nc := getNumCells lc1) in *.
  set (l0 := if negb (m_n_points lc1 =? n) || negb (m_Nc lc1 =? Nc)
             then repeat 0 (Z.to_nat (u32 (n + Nc)))
             else m_cell_list lc1) in *.
  assert (Hl0 : Z.of_nat (List.length l0) = n + Nc).
  { subst l0. destruct (Z.eqb_spec (m_n_points lc1) n) as [He1|He1];
      destruct (Z.eqb_spec (m_Nc lc1) Nc) as [He2|He2]; simpl;
      try (rewrite repeat_length, u32_small by lia; lia).
    apply Hcached; assumption. }
  apply init_heads_spec in Hinit; try lia.
  destruct Hinit as (Hlen1 & Hheads1 & _).
  rewrite Z2Nat.id in Hheads1 by lia.
  assert (Htodo : Z.to_nat (s32 (u32 (n - 1)) + 1) = Z.to_nat n).
  { rewrite u32_small by lia. rewrite s32_small by lia. f_equal. lia. }
  rewrite Htodo in Hfill.
  apply filed_from_wf; cbn [set_cell_list m_box m_cell_index m_n_points m_Nc m_points m_cell_list];
    try lia.
  eapply (fill_cells_spec lc1 points n Nc (Z.to_nat n) l1 l2); trivial; try lia.
  rewrite Z2Nat.id by lia.
  split; [lia|]. split.
  - intros c Hc. exists LINK_CELL_TERMINATOR. split; [apply Hheads1; lia | left; reflexivity].
  - intros i Hi. lia.
Qed.

End CellListProperties.

(** ** Walking a well-formed cell list *)

Section CursorProperties.
Context {E : Externals}.

Lemma atEnd_true (j : Z) : atEnd j = true <-> j = LINK_CELL_TERMINATOR.
Proof. unfold atEnd. apply Z.eqb_eq. Qed.

Lemma atEnd_false (j : Z) : atEnd j = false <-> j <> LINK_CELL_TERMINATOR.
Proof. unfold atEnd. apply Z.eqb_neq. Qed.

Lemma remaining_pos (lc : LinkCell) (cur : Z) :
  valid_cursor lc cur -> (0 < remaining lc cur)%nat.
Proof.
  unfold valid_cursor, remaining. intros H.
  destruct (Z.ltb_spec cur (m_n_points lc)); lia.
Qed.

Lemma remaining_bound (lc : LinkCell) (cur : Z) :
  0 <= cur -> (remaining lc cur <= S (Z.to_nat (m_n_points lc)))%nat.
Proof.
  unfold remaining. intros H.
  destruct (Z.ltb_spec cur (m_n_points lc)); lia.
Qed.

(** One step of the cell iterator from a valid position: the terminator,
    or a point of the same cell that lies further in the array. *)
Lemma cell_next_wf (lc : LinkCell) (cur : Z) :
  cell_list_wf lc -> valid_cursor lc cur ->
  exists j,
    cell_next lc cur = Ok j
    /\ (j = LINK_CELL_TERMINATOR
        \/ (0 <= j < m_n_points lc
            /\ cell_of lc j = cursor_cell lc cur
            /\ (cur < m_n_points lc -> cur < j)
            /\ (remaining lc j < remaining lc cur)%nat)).
Proof.
  intros (Hn & HNc & Hb & Hlen & Hpts & Hheads & Hnext) Hcur.
  unfold valid_cursor in Hcur. unfold cell_next, cursor_cell, remaining.
  destruct (Z.ltb_spec cur (m_n_points lc)) as [Hlt|Hge].
  - destruct (Hnext cur) as (j & Hj & Hjs); [lia|].
    exists j. rewrite Hj. split; [reflexivity|].
    destruct Hjs as [?|[Hr Hc]]; [left; trivial|right].
    repeat split; try lia; trivial.
    destruct (Z.ltb_spec j (m_n_points lc)); lia.
  - destruct (Hheads (cur - m_n_points lc)) as (j & Hj & Hjs); [lia|].
    replace (m_n_points lc + (cur - m_n_points lc)) with cur in Hj by lia.
    exists j. rewrite Hj. split; [reflexivity|].
    destruct Hjs as [?|[Hr Hc]]; [left; trivial|right].
    repeat split; try lia; trivial.
    destruct (Z.ltb_spec j (m_n_points lc)); lia.
Qed.

Lemma point_at_wf (lc : LinkCell) (j : Z) :
  cell_list_wf lc -> 0 <= j < m_n_points lc ->
  exists pj, point_at lc j = Ok pj.
Proof.
  intros (Hn & HNc & Hb & Hlen & Hpts & _) Hj. unfold point_at.
  destruct (read_in_bounds (m_points lc) j) as [pj Hp]; [lia|].
  exists pj. rewrite Hp. reflexivity.
Qed.

Lemma itercell_valid (lc : LinkCell) (c : Z) :
  cell_list_wf lc -> in_grid lc c = true ->
  valid_cursor lc (itercell lc c) /\ itercell lc c = m_n_points lc + c.
Proof.
  intros (Hn & HNc & Hb & _) Hc. unfold in_grid in Hc.
  apply andb_prop in Hc. destruct Hc as [H1 H2].
  apply Z.leb_le in H1. apply Z.ltb_lt in H2.
  unfold itercell, valid_cursor. rewrite u32_small by lia. lia.
Qed.

End CursorProperties.

(** ** The ball iterator: when it is exhausted *)

Section BallExhaustion.
Context {E : Externals}.
Import LinkCellQueryBallIterator.

Lemma out_of_range_same (lc : LinkCell) (it it' : t) (s : IteratorCellShell) :
  same_query it it' -> out_of_range lc it' s = out_of_range lc it s.
Proof.
  intros (Hr & _ & _ & _ & He). unfold out_of_range. rewrite Hr, He. reflexivity.
Qed.

Lemma in_range_steps_same (lc : LinkCell) (it it' : t) (s s' : IteratorCellShell) :
  same_query it it' -> in_range_steps lc it' s s' -> in_range_steps lc it s s'.
Proof.
  intros Hq H. induction H as [|s' H IH Hout].
  - constructor.
  - constructor; trivial. rewrite <- Hout. symmetry. apply out_of_range_same; trivial.
Qed.

Lemma in_range_steps_trans (lc : LinkCell) (it : t) (a b c : IteratorCellShell) :
  in_range_steps lc it a b -> in_range_steps lc it b c -> in_range_steps lc it a c.
Proof.
  intros Hab Hbc. induction Hbc; trivial. constructor; trivial.
Qed.

(** The inner loop stops at the first position that meets the exit test or
    holds a cell not searched before; no position before it met the test. *)
Lemma next_cell_steps (fuel : nat) (lc : LinkCell) (point_cell : vec3 Z) :
  forall (it it' : t) (out : bool),
    next_cell fuel lc point_cell it = Ok (out, it') ->
    exists s,
      in_range_steps lc it (m_neigh_cell_iter it) s
      /\ m_neigh_cell_iter it' = shell_incr s
      /\ out_of_range lc it (shell_incr s) = out.
Proof.
  induction fuel as [|fuel IH]; intros it it' out; simpl; [discriminate|].
  destruct (out_of_range lc _ _) eqn:Hout.
  - intros H; inversion H; subst. exists (m_neigh_cell_iter it).
    split; [constructor|]. split; [reflexivity|exact Hout].
  - destruct (insert_cell _ _) as [cells fresh]. destruct fresh.
    + intros H; inversion H; subst. exists (m_neigh_cell_iter it).
      split; [constructor|]. split; [reflexivity|exact Hout].
    + intros H. apply IH in H. destruct H as (s & Hs & Hit' & Ho).
      assert (Hq : same_query it (set_neigh_cell_iter it (shell_incr (m_neigh_cell_iter it))))
        by (repeat split).
      apply (in_range_steps_same lc it) in Hs; trivial.
      rewrite (out_of_range_same lc it) in Ho by trivial.
      exists s. split; [|split; trivial].
      eapply in_range_steps_trans; [|exact Hs].
      constructor; [constructor|exact Hout].
Qed.

Lemma search_steps (fuel : nat) (lc : LinkCell) (point_cell : vec3 Z)
    (r_cutsq : float) :
  forall (it it' : t) (y : yielded),
    search fuel lc point_cell r_cutsq it = Ok (y, it') ->
    match y with
    | ITERATOR_TERMINATOR =>
        m_finished it' = true
        /\ exists s,
             in_range_steps lc it (m_neigh_cell_iter it) s
             /\ m_neigh_cell_iter it' = shell_incr s
             /\ out_of_range lc it (shell_incr s) = true
    | Yield _ =>
        m_finished it' = m_finished it
        /\ in_range_steps lc it (m_neigh_cell_iter it) (m_neigh_cell_iter it')
    end.
Proof.
  induction fuel as [|fuel IH]; intros it it' y; [discriminate|].
  cbn [search]. intros H.
  apply bind_Ok in H. destruct H as ([found it1] & Hscan & H).
  apply scan_cell_spec in Hscan. destruct Hscan as (Hq & Hs1 & _ & Hf & _).
  destruct found as [b'|].
  - inversion H; subst. split; [exact Hf|]. rewrite Hs1. constructor.
  - apply bind_Ok in H. destruct H as ([out it2] & Hmove & H).
    pose proof (next_cell_spec _ _ _ _ _ _ Hmove) as (Hq2 & Hf2 & _).
    apply next_cell_steps in Hmove. destruct Hmove as (s & Hs & Hit2 & Ho).
    rewrite Hs1 in Hs. apply (in_range_steps_same lc it it1) in Hs; trivial.
    rewrite (out_of_range_same lc it it1) in Ho by trivial.
    destruct out.
    + inversion H; subst. split; [reflexivity|]. exists s. auto.
    + apply IH in H.
      assert (Hq3 : same_query it it2) by (eapply same_query_trans; eauto).
      assert (Hstep : in_range_steps lc it (m_neigh_cell_iter it) (m_neigh_cell_iter it2)).
      { rewrite Hit2. constructor; trivial. }
      destruct y as [b|].
      * destruct H as [Hf3 H]. split; [congruence|].
        eapply in_range_steps_trans; [exact Hstep|].
        eapply in_range_steps_same; eauto.
      * destruct H as (Hf3 & s' & Hs' & Hit' & Ho'). split; trivial.
        exists s'. split; [|split; trivial].
        -- eapply in_range_steps_trans; [exact Hstep|].
           eapply in_range_steps_same; eauto.
        -- rewrite <- Ho'. symmetry. apply out_of_range_same; trivial.
Qed.

(** [next] returns the terminator exactly when a step of the shell
    iterator meets the exit test [(range - m_extra_search_width) *
    cell_width > m_r], no earlier step of this call having met it; a call
    that yields a bond has met it at no step. *)
Lemma next_steps (fuel : nat) (lc : LinkCell) (it it' : t) (y : yielded) :
  next fuel lc it = Ok (y, it') ->
  match y with
  | ITERATOR_TERMINATOR =>
      m_finished it' = true
      /\ exists s,
           in_range_steps lc it (m_neigh_cell_iter it) s
           /\ m_neigh_cell_iter it' = shell_incr s
           /\ out_of_range lc it (shell_incr s) = true
  | Yield _ =>
      m_finished it' = m_finished it
      /\ in_range_steps lc it (m_neigh_cell_iter it) (m_neigh_cell_iter it')
  end.
Proof.
  unfold next. intros H. apply search_steps in H.
  match type of H with context [in_range_steps lc ?i _ _] => set (it0 := i) in * end.
  assert (Hq : same_query it it0) by (repeat split).
  destruct y as [b|].
  - destruct H as [Hf Hs]. split; [exact Hf|].
    apply (in_range_steps_same lc it it0); trivial.
  - destruct H as (Hf & s & Hs & Hi & Ho). split; [exact Hf|].
    exists s. split; [eapply in_range_steps_same; eauto|]. split; [exact Hi|].
    rewrite <- Ho. symmetry. apply out_of_range_same; trivial.
Qed.

Lemma search_same_query (fuel : nat) (lc : LinkCell) (point_cell : vec3 Z)
    (r_cutsq : float) :
  forall (it it' : t) (y : yielded),
    search fuel lc point_cell r_cutsq it = Ok (y, it') -> same_query it it'.
Proof.
  induction fuel as [|fuel IH]; intros it it' y; [discriminate|].
  cbn [search]. intros H.
  apply bind_Ok in H. destruct H as ([found it1] & Hscan & H).
  apply scan_cell_spec in Hscan. destruct Hscan as (Hq & _).
  destruct found as [b'|].
  - inversion H; subst. exact Hq.
  - apply bind_Ok in H. destruct H as ([out it2] & Hmove & H).
    apply next_cell_spec in Hmove. destruct Hmove as (Hq2 & _).
    destruct out.
    + inversion H; subst.
      eapply same_query_trans; [exact Hq|].
      eapply same_query_trans; [exact Hq2|]. repeat split.
    + apply IH in H.
      eapply same_query_trans; [exact Hq|].
      eapply same_query_trans; [exact Hq2|exact H].
Qed.

Lemma next_same_query (fuel : nat) (lc : LinkCell) (it it' : t) (y : yielded) :
  next fuel lc it = Ok (y, it') -> same_query it it'.
Proof.
  unfold next. intros H. apply search_same_query in H.
  eapply same_query_trans; [|exact H]. repeat split.
Qed.

(** Over a whole run of the iterator: it ends at the first position of the
    shell iterator that meets the exit test, and is then finished. *)
Lemma drain_steps (fuel : nat) (lc : LinkCell) :
  forall (calls : nat) (it it' : t) (bs : list NeighborBond),
    drain calls fuel lc it = Ok (bs, it') ->
    m_finished it' = true
    /\ exists s,
         in_range_steps lc it (m_neigh_cell_iter it) s
         /\ m_neigh_cell_iter it' = shell_incr s
         /\ out_of_range lc it (shell_incr s) = true.
Proof.
  induction calls as [|calls IH]; intros it it' bs; [discriminate|].
  cbn [drain]. intros H. apply bind_Ok in H. destruct H as ([y it1] & Hn & H).
  pose proof (next_same_query _ _ _ _ _ Hn) as Hq.
  apply next_steps in Hn.
  destruct y as [b|].
  - apply bind_Ok in H. destruct H as ([bs' it2] & Hd & H).
    inversion H; subst; clear H. cbn [snd].
    apply IH in Hd. destruct Hd as (Hf & s & Hs & Hi & Ho).
    destruct Hn as [_ Hn]. split; [exact Hf|]. exists s.
    split; [|split; [exact Hi|]].
    + eapply in_range_steps_trans; [exact Hn|].
      eapply in_range_steps_same; eauto.
    + rewrite <- Ho. symmetry. apply out_of_range_same; trivial.
  - inversion H; subst. exact Hn.
Qed.

End BallExhaustion.

(** ** The ball iterator: termination *)

Section BallTermination.
Context {E : Externals}.
Import LinkCellQueryBallIterator.

Lemma exits_within_same (k : nat) (lc : LinkCell) (it it' : t)
    (point_cell : vec3 Z) :
  same_query it it' ->
  forall s, exits_within k lc it' point_cell s = exits_within k lc it point_cell s.
Proof.
  intros Hq. induction k as [|k IH]; intros s; simpl; trivial.
  rewrite IH, (out_of_range_same lc it it') by trivial. reflexivity.
Qed.

Lemma exits_within_mono (lc : LinkCell) (it : t) (point_cell : vec3 Z) :
  forall (k k' : nat) (s : IteratorCellShell),
    (k <= k')%nat ->
    exits_within k lc it point_cell s = true ->
    exits_within k' lc it point_cell s = true.
Proof.
  induction k as [|k IH]; intros k' s Hle; simpl; [discriminate|].
  destruct k' as [|k']; [lia|]. simpl.
  destruct (out_of_range lc it (shell_incr s)); simpl; trivial.
  intros H. apply andb_prop in H. destruct H as [Hg H].
  rewrite Hg. simpl. apply IH; trivial. lia.
Qed.

(** The loop over the current cell ends, given fuel for the entries that
    remain; a point it finds leaves the iterator further down the list. *)
Lemma scan_cell_total (lc : LinkCell) (r_cutsq : float) :
  cell_list_wf lc ->
  forall (fuel : nat) (it : t),
    valid_cursor lc (m_cell_iter it) ->
    (remaining lc (m_cell_iter it) <= fuel)%nat ->
    exists found it',
      scan_cell fuel lc r_cutsq it = Ok (found, it')
      /\ match found with
         | Some _ =>
             valid_cursor lc (m_cell_iter it')
             /\ (remaining lc (m_cell_iter it') < remaining lc (m_cell_iter it))%nat
         | None => True
         end.
Proof.
  intros Hwf. induction fuel as [|fuel IH]; intros it Hcur Hfuel.
  - pose proof (remaining_pos lc _ Hcur). lia.
  - cbn [scan_cell].
    destruct (cell_next_wf lc _ Hwf Hcur) as (j & Hj & Hjs).
    rewrite Hj. cbn [bind].
    destruct Hjs as [->|(Hr & _ & _ & Hrem)].
    + replace (atEnd LINK_CELL_TERMINATOR) with true
        by (symmetry; apply atEnd_true; reflexivity).
      eexists _, _. split; [reflexivity|exact I].
    + destruct (atEnd j) eqn:Hend.
      { eexists _, _. split; [reflexivity|exact I]. }
      destruct (point_at_wf lc j Hwf Hr) as (pj & Hpj). rewrite Hpj. cbn [bind].
      assert (Hv : valid_cursor lc j).
      { unfold valid_cursor. destruct Hwf as (_ & HNc & _). lia. }
      destruct (accepts _ _ _ _).
      * eexists _, _. split; [reflexivity|]. cbn [set_cell_iter m_cell_iter]. auto.
      * destruct (IH (set_cell_iter it j)) as (found & it' & Hscan & Hfound).
        { exact Hv. }
        { cbn [set_cell_iter m_cell_iter]. lia. }
        exists found, it'. split; [exact Hscan|].
        destruct found; trivial. cbn [set_cell_iter m_cell_iter] in Hfound.
        destruct Hfound; split; trivial; lia.
Qed.

(** The inner loop ends when the exit test is met within reach. *)
Lemma next_cell_total (lc : LinkCell) (point_cell : vec3 Z) :
  cell_list_wf lc ->
  forall (fuel k : nat) (it : t),
    exits_within k lc it point_cell (m_neigh_cell_iter it) = true ->
    (k <= fuel)%nat ->
    exists out it',
      next_cell fuel lc point_cell it = Ok (out, it')
      /\ (out = true
          \/ (valid_cursor lc (m_cell_iter it')
              /\ exists k', (k' < k)%nat
                   /\ exits_within k' lc it point_cell (m_neigh_cell_iter it') = true)).
Proof.
  intros Hwf. induction fuel as [|fuel IH]; intros k it Hk Hfuel.
  - assert (k = 0)%nat by lia. subst k. discriminate.
  - destruct k as [|k]; [discriminate|].
    cbn [exits_within] in Hk. cbn [next_cell].
    cbn [set_neigh_cell_iter m_neigh_cell_iter m_searched_cells].
    assert (Hq : same_query it (set_neigh_cell_iter it (shell_incr (m_neigh_cell_iter it))))
      by (repeat split).
    rewrite (out_of_range_same lc it _ _ Hq).
    destruct (out_of_range lc it (shell_incr (m_neigh_cell_iter it))).
    + eexists _, _. split; [reflexivity|left; reflexivity].
    + cbn [orb] in Hk. apply andb_prop in Hk. destruct Hk as [Hg Hk].
      destruct (insert_cell _ _) as [cells fresh]. destruct fresh.
      * eexists _, _. split; [reflexivity|right].
        cbn [set_cell_iter set_searched_cells set_neigh_cell_iter
             m_cell_iter m_neigh_cell_iter].
        split; [apply itercell_valid; trivial|].
        exists k. split; [lia|exact Hk].
      * destruct (IH k (set_neigh_cell_iter it (shell_incr (m_neigh_cell_iter it))))
          as (out & it' & Hn & Hres).
        { rewrite (exits_within_same k lc it _ point_cell Hq). exact Hk. }
        { lia. }
        exists out, it'. split; [exact Hn|].
        destruct Hres as [?|(Hv & k' & Hlt & Hk')]; [left; trivial|right].
        split; trivial. exists k'. split; [lia|].
        rewrite <- (exits_within_same k' lc it _ point_cell Hq). exact Hk'.
Qed.

(** The outer loop of [next] ends: with the terminator, or with a bond
    and the iterator further on, in the current cell or in the shells. *)
Lemma search_total (lc : LinkCell) (point_cell : vec3 Z) (r_cutsq : float) :
  cell_list_wf lc ->
  forall (k fuel : nat) (it : t),
    valid_cursor lc (m_cell_iter it) ->
    exits_within k lc it point_cell (m_neigh_cell_iter it) = true ->
    (k + S (Z.to_nat (m_n_points lc)) < fuel)%nat ->
    exists y it',
      search fuel lc point_cell r_cutsq it = Ok (y, it')
      /\ same_query it it'
      /\ match y with
         | ITERATOR_TERMINATOR => True
         | Yield _ =>
             valid_cursor lc (m_cell_iter it')
             /\ ((exists k', (k' < k)%nat
                    /\ exits_within k' lc it point_cell (m_neigh_cell_iter it') = true)
                 \/ (m_neigh_cell_iter it' = m_neigh_cell_iter it
                     /\ (remaining lc (m_cell_iter it')
                         < remaining lc (m_cell_iter it))%nat))
         end.
Proof.
  intros Hwf k. induction k as [k IH] using lt_wf_ind. intros fuel it Hcur Hk Hfuel.
  destruct fuel as [|fuel]; [lia|]. cbn [search].
  destruct (scan_cell_total lc r_cutsq Hwf (S fuel) it Hcur) as (found & it1 & Hscan & Hfound).
  { pose proof (remaining_bound lc (m_cell_iter it)). unfold valid_cursor in Hcur. lia. }
  rewrite Hscan. cbn [bind].
  apply scan_cell_spec in Hscan. destruct Hscan as (Hq1 & Hs1 & _ & _ & _).
  destruct found as [b|].
  - eexists _, _. split; [reflexivity|]. split; [exact Hq1|].
    destruct Hfound as [Hv Hrem]. split; [exact Hv|]. right. auto.
  - destruct (next_cell_total lc point_cell Hwf (S fuel) k it1) as (out & it2 & Hmove & Hres).
    { rewrite Hs1, (exits_within_same k lc it it1 point_cell Hq1). exact Hk. }
    { lia. }
    rewrite Hmove. cbn [bind].
    apply next_cell_spec in Hmove. destruct Hmove as (Hq2 & _ & _).
    assert (Hq12 : same_query it it2) by (eapply same_query_trans; eauto).
    destruct Hres as [->|(Hv2 & k' & Hlt & Hk')].
    + eexists _, _. split; [reflexivity|]. split; [|exact I].
      eapply same_query_trans; [exact Hq12|]. repeat split.
    + destruct out.
      { eexists _, _. split; [reflexivity|]. split; [|exact I].
        eapply same_query_trans; [exact Hq12|]. repeat split. }
      destruct (IH k' Hlt fuel it2 Hv2) as (y & it' & Hsearch & Hq3 & Hy).
      { rewrite (exits_within_same k' lc it1 it2 point_cell Hq2). exact Hk'. }
      { lia. }
      exists y, it'. split; [exact Hsearch|].
      split; [eapply same_query_trans; eauto|].
      destruct y as [b|]; trivial.
      destruct Hy as [Hv Hy]. split; [exact Hv|]. left.
      destruct Hy as [(k'' & Hlt' & Hk'')|[Hs Hrem]].
      * exists k''. split; [lia|].
        rewrite <- (exits_within_same k'' lc it it2 point_cell Hq12). exact Hk''.
      * exists k'. split; [lia|]. rewrite Hs.
        rewrite <- (exits_within_same k' lc it it1 point_cell Hq1). exact Hk'.
Qed.

(** A caller that keeps asking receives the terminator after finitely
    many calls. *)
Lemma drain_total (lc : LinkCell) :
  cell_list_wf lc ->
  forall (M k fuel : nat) (it : t),
    valid_cursor lc (m_cell_iter it) ->
    exits_within k lc it (home lc it) (m_neigh_cell_iter it) = true ->
    (k + S (Z.to_nat (m_n_points lc)) < fuel)%nat ->
    (k * S (S (Z.to_nat (m_n_points lc))) + remaining lc (m_cell_iter it) <= M)%nat ->
    exists bs it', drain M fuel lc it = Ok (bs, it') /\ m_finished it' = true.
Proof.
  intros Hwf. induction M as [|M IH]; intros k fuel it Hcur Hk Hfuel HM.
  - pose proof (remaining_pos lc _ Hcur). lia.
  - cbn [drain]. unfold next.
    match goal with |- context [search fuel lc ?pc ?r ?i] =>
      set (it0 := i); set (r_cutsq := r) end.
    assert (Hq0 : same_query it it0) by (repeat split).
    destruct (search_total lc (home lc it) r_cutsq Hwf k fuel it0) as (y & it' & Hs & Hq & Hy).
    { exact Hcur. }
    { rewrite (exits_within_same k lc it it0 _ Hq0). exact Hk. }
    { exact Hfuel. }
    unfold home in Hs. rewrite Hs. cbn [bind].
    destruct y as [b|].
    + destruct Hy as [Hv Hy].
      assert (Hqq : same_query it it') by exact (same_query_trans _ _ _ Hq0 Hq).
      assert (Hhome : home lc it' = home lc it).
      { unfold home. destruct Hqq as (_ & -> & _). reflexivity. }
      assert (Hdec : exists k', exits_within k' lc it' (home lc it') (m_neigh_cell_iter it') = true
                       /\ (k' <= k)%nat
                       /\ (k' * S (S (Z.to_nat (m_n_points lc)))
                           + remaining lc (m_cell_iter it') <= M)%nat).
      { pose proof (remaining_bound lc (m_cell_iter it')) as Hrb.
        unfold valid_cursor in Hv.
        destruct Hy as [(k' & Hlt & Hk')|[Hsame Hrem]].
        - exists k'. rewrite Hhome, (exits_within_same k' lc it it' _ Hqq).
          rewrite (exits_within_same k' lc it it0 _ Hq0) in Hk'.
          split; [exact Hk'|]. split; [lia|]. nia.
        - exists k. rewrite Hhome, (exits_within_same k lc it it' _ Hqq), Hsame.
          split; [exact Hk|]. split; [lia|].
          change (m_cell_iter it0) with (m_cell_iter it) in Hrem. lia. }
      destruct Hdec as (k' & Hk' & Hle & HM').
      destruct (IH k' fuel it' Hv Hk') as (bs & it'' & Hd & Hf); [lia|exact HM'|].
      rewrite Hd. cbn [bind fst snd]. eexists _, _. split; [reflexivity|exact Hf].
    + eexists _, _. split; [reflexivity|].
      unfold home in Hs. apply search_steps in Hs. apply Hs.
Qed.

Lemma combine_indices_In {A : Type} (l : list A) :
  forall (start n : nat) (x : A),
    nth_error l n = Some x ->
    In (Z.of_nat (start + n), x)
       (combine (map Z.of_nat (seq start (List.length l))) l).
Proof.
  induction l as [|h t IH]; intros start [|n] x; simpl; try discriminate.
  - intros H; inversion H; subst. left. rewrite Nat.add_0_r. reflexivity.
  - intros H. right. replace (start + S n)%nat with (S start + n)%nat by lia.
    apply IH. exact H.
Qed.

Lemma none_accepted_spec (lc : LinkCell) (it : t) (j : Z) (pj : vec3 float) :
  none_accepted lc it = true ->
  point_at lc j = Ok pj ->
  accepts it (fmul (m_r it) (m_r it)) (wrapped_rsq lc (m_query_point it) pj) j = false.
Proof.
  unfold none_accepted, point_at. intros Hnone Hp.
  apply of_option_Ok in Hp. pose proof (read_Some _ _ _ Hp) as Hb.
  rewrite read_eq in Hp by lia.
  apply (combine_indices_In _ 0) in Hp. cbn [Nat.add] in Hp.
  rewrite Z2Nat.id in Hp by lia.
  rewrite forallb_forall in Hnone. specialize (Hnone _ Hp).
  cbn [fst snd] in Hnone. apply negb_true_iff in Hnone. exact Hnone.
Qed.

(** With no point passing the acceptance test, the first answer of the
    iterator is the terminator. *)
Lemma next_none_accepted (lc : LinkCell) (k fuel : nat) (it : t) :
  cell_list_wf lc ->
  valid_cursor lc (m_cell_iter it) ->
  exits_within k lc it (home lc it) (m_neigh_cell_iter it) = true ->
  (k + S (Z.to_nat (m_n_points lc)) < fuel)%nat ->
  none_accepted lc it = true ->
  exists it', next fuel lc it = Ok (ITERATOR_TERMINATOR, it').
Proof.
  intros Hwf Hcur Hk Hfuel Hnone.
  destruct (drain_total lc Hwf
              (k * S (S (Z.to_nat (m_n_points lc))) + remaining lc (m_cell_iter it))
              k fuel it Hcur Hk Hfuel (Nat.le_refl _)) as (bs & it' & Hd & _).
  destruct (k * S (S (Z.to_nat (m_n_points lc))) + remaining lc (m_cell_iter it))%nat
    as [|M]; [discriminate|].
  cbn [drain] in Hd. destruct (next fuel lc it) as [[y it1]| | |] eqn:Hn; try discriminate.
  destruct y as [b|]; [|eauto].
  exfalso. apply next_yield in Hn. destruct Hn as ((j & pj & Hp & _ & Hlt & Hex) & _).
  pose proof (none_accepted_spec lc it j pj Hnone Hp) as Hacc.
  unfold accepts in Hacc. rewrite Hlt in Hacc. cbn [andb] in Hacc.
  destruct (m_exclude_ii it); [|discriminate].
  cbn [negb orb] in Hacc. apply negb_false_iff, Z.eqb_eq in Hacc.
  apply Hex; congruence.
Qed.

(** A radius below the bound of a range that the shell iterator comes to
    makes the search meet its exit test. *)
Lemma range_ahead_exits (lc : LinkCell) (it : t) (point_cell : vec3 Z) (R : Z) :
  grid_closed lc ->
  radius_below lc (m_extra_search_width it) (m_r it) R = true ->
  forall (k : nat) (s : IteratorCellShell),
    range_ahead k s R = true -> exits_within k lc it point_cell s = true.
Proof.
  intros Hgrid Hr. induction k as [|k IH]; intros s;
    cbn [range_ahead exits_within]; [discriminate|].
  intros H. destruct (out_of_range lc it (shell_incr s)) eqn:Ho; [reflexivity|].
  cbn [orb]. rewrite Hgrid. cbn [andb]. apply IH.
  destruct (Z.eqb_spec (getRange (shell_incr s)) R) as [He|_]; [|exact H].
  exfalso. unfold out_of_range in Ho. rewrite He in Ho.
  unfold radius_below in Hr. congruence.
Qed.

(** No shell meets the exit test of a radius that is NaN or +infinity. *)
Lemma out_of_range_unbounded (lc : LinkCell) (it : t) (s : IteratorCellShell) :
  m_r it = S754_nan \/ m_r it = S754_infinity false ->
  out_of_range lc it s = false.
Proof.
  intros H. unfold out_of_range, fgt.
  destruct H as [-> | ->]; destruct (fmul _ _) as [[|]|[|]| |[|] m e]; reflexivity.
Qed.

(** An iterator whose exit test no shell meets never returns the
    terminator, whatever the fuel. *)
Lemma next_never_exhausts (lc : LinkCell) (fuel : nat) (it it' : t) :
  (forall s, out_of_range lc it s = false) ->
  next fuel lc it <> Ok (ITERATOR_TERMINATOR, it').
Proof.
  intros Hno Hn. apply next_steps in Hn. destruct Hn as (_ & s & _ & _ & Ho).
  rewrite Hno in Ho. discriminate.
Qed.

Lemma drain_never_ends (lc : LinkCell) (calls fuel : nat) (it it' : t)
    (bs : list NeighborBond) :
  (forall s, out_of_range lc it s = false) ->
  drain calls fuel lc it <> Ok (bs, it').
Proof.
  intros Hno Hd. apply drain_steps in Hd. destruct Hd as (_ & s & _ & _ & Ho).
  rewrite Hno in Ho. discriminate.
Qed.

(** With no point to accept either, its [next] does not return at all. *)
Lemma next_never_returns (lc : LinkCell) (fuel : nat) (it it' : t) (y : yielded) :
  (forall s, out_of_range lc it s = false) ->
  none_accepted lc it = true ->
  next fuel lc it <> Ok (y, it').
Proof.
  intros Hno Hnone Hn. destruct y as [b|].
  - apply next_yield in Hn. destruct Hn as ((j & pj & Hp & _ & Hlt & Hex) & _).
    pose proof (none_accepted_spec lc it j pj Hnone Hp) as Hacc.
    unfold accepts in Hacc. rewrite Hlt in Hacc. cbn [andb] in Hacc.
    destruct (m_exclude_ii it); [|discriminate].
    cbn [negb orb] in Hacc. apply negb_false_iff, Z.eqb_eq in Hacc.
    apply Hex; congruence.
  - exact (next_never_exhausts lc fuel it it' Hno Hn).
Qed.

(** The terminator is returned with the cell iterator at its end. *)
Lemma next_cell_out_cursor (fuel : nat) (lc : LinkCell) (point_cell : vec3 Z) :
  forall it it' : t,
    next_cell fuel lc point_cell it = Ok (true, it') ->
    m_cell_iter it' = m_cell_iter it.
Proof.
  induction fuel as [|fuel IH]; intros it it'; simpl; [discriminate|].
  destruct (out_of_range lc _ _).
  - intros H; inversion H; subst. reflexivity.
  - destruct (insert_cell _ _) as [cells fresh]. destruct fresh.
    + discriminate.
    + intros H. apply IH in H. exact H.
Qed.

Lemma search_exhausted_cursor (fuel : nat) (lc : LinkCell) (point_cell : vec3 Z)
    (r_cutsq : float) :
  forall it it' : t,
    search fuel lc point_cell r_cutsq it = Ok (ITERATOR_TERMINATOR, it') ->
    atEnd (m_cell_iter it') = true.
Proof.
  induction fuel as [|fuel IH]; intros it it'; [discriminate|].
  cbn [search]. intros H.
  apply bind_Ok in H. destruct H as ([found it1] & Hscan & H).
  apply scan_cell_spec in Hscan. destruct Hscan as (_ & _ & _ & _ & Hfound).
  destruct found as [b|]; [discriminate|].
  apply bind_Ok in H. destruct H as ([out it2] & Hmove & H).
  destruct out.
  - apply next_cell_out_cursor in Hmove.
    assert (Hi : it' = set_finished it2) by congruence. subst it'.
    cbn [set_finished m_cell_iter]. rewrite Hmove. exact Hfound.
  - exact (IH it2 it' H).
Qed.

Lemma drain_exhausted_cursor (fuel : nat) (lc : LinkCell) :
  forall (calls : nat) (it it' : t) (bs : list NeighborBond),
    drain calls fuel lc it = Ok (bs, it') ->
    atEnd (m_cell_iter it') = true.
Proof.
  induction calls as [|calls IH]; intros it it' bs; [discriminate|].
  cbn [drain]. intros H. apply bind_Ok in H. destruct H as ([y it1] & Hn & H).
  destruct y as [b|].
  - apply bind_Ok in H. destruct H as ([bs' it2] & Hd & H).
    assert (Hi : it' = it2) by (cbn [snd] in H; congruence). subst it'.
    exact (IH it1 it2 bs' Hd).
  - assert (Hi : it' = it1) by congruence. subst it'.
    unfold next in Hn. exact (search_exhausted_cursor _ _ _ _ _ _ Hn).
Qed.

(** A call of [next] with the cell iterator at its end reads the cell list
    at the terminator index. *)
Lemma next_after_exhaustion (lc : LinkCell) (fuel : nat) (it : t) :
  atEnd (m_cell_iter it) = true ->
  read (m_cell_list lc) LINK_CELL_TERMINATOR = None ->
  next (S fuel) lc it = Undefined.
Proof.
  intros He Hr. apply atEnd_true in He. unfold next.
  cbn [search scan_cell set_searched_cells m_cell_iter]. unfold cell_next.
  rewrite He, Hr. reflexivity.
Qed.

Lemma read_outside {A : Type} (a : list A) (i : Z) :
  ~ (0 <= i < Z.of_nat (List.length a)) -> read a i = None.
Proof.
  intros H. destruct (read a i) as [v|] eqn:Hr; [|reflexivity].
  apply read_Some in Hr. contradiction.
Qed.

End BallTermination.

(** ** Sorting *)

Lemma insert_sorted_perm (b : NeighborBond) (l : list NeighborBond) :
  Permutation (insert_sorted b l) (b :: l).
Proof.
  induction l as [|h t IH]; simpl; [reflexivity|].
  destruct (bond_lt b h); [reflexivity|].
  rewrite IH. apply perm_swap.
Qed.

Lemma sort_bonds_perm (l : list NeighborBond) : Permutation (sort_bonds l) l.
Proof.
  induction l as [|h t IH]; simpl; [reflexivity|].
  rewrite insert_sorted_perm. constructor. exact IH.
Qed.

Lemma sort_bonds_length (l : list NeighborBond) :
  List.length (sort_bonds l) = List.length l.
Proof. apply Permutation_length, sort_bonds_perm. Qed.

(** ** The k-nearest iterator: how many bonds it yields *)

Section NearestCount.
Context {E : Externals}.
Import LinkCellQueryIterator.

Lemma same_nearest_query_refl (it : t) : same_nearest_query it it.
Proof. repeat split. Qed.

Lemma same_nearest_query_trans (a b c : t) :
  same_nearest_query a b -> same_nearest_query b c -> same_nearest_query a c.
Proof.
  unfold same_nearest_query.
  intros (?&?&?&?&?&?) (?&?&?&?&?&?). repeat split; congruence.
Qed.

Lemma scan_cell_frame (fuel : nat) (lc : LinkCell) :
  forall it it' : t,
    scan_cell fuel lc it = Ok it' ->
    same_nearest_query it it'
    /\ m_neigh_cell_iter it' = m_neigh_cell_iter it
    /\ m_searched_cells it' = m_searched_cells it
    /\ size it <= size it'
    /\ atEnd (m_cell_iter it') = true.
Proof.
  induction fuel as [|fuel IH]; intros it it'; simpl; [discriminate|].
  intros H. apply bind_Ok in H. destruct H as (j & Hj & H).
  destruct (atEnd j) eqn:Hend.
  - inversion H; subst. repeat split; try assumption. unfold size; simpl; lia.
  - destruct (_ && _).
    + apply IH in H. exact H.
    + apply bind_Ok in H. destruct H as (pj & Hpj & H).
      apply IH in H. destruct H as (Hq & Hs & Hc & Hsz & He).
      repeat split; try apply Hq; trivial.
      unfold size in *. cbn [set_current_neighbors set_cell_iter m_current_neighbors] in Hsz.
      rewrite length_app in Hsz. simpl in Hsz. lia.
Qed.

Lemma next_cell_frame (fuel : nat) (lc : LinkCell) (point_cell : vec3 Z)
    (last : IteratorCellShell) :
  forall it it' : t,
    next_cell fuel lc point_cell last it = Ok it' ->
    same_nearest_query it it'
    /\ m_current_neighbors it' = m_current_neighbors it.
Proof.
  induction fuel as [|fuel IH]; intros it it'; simpl; [discriminate|].
  destruct (shell_eq _ _).
  - intros H; inversion H; subst. repeat split.
  - destruct (insert_cell _ _) as [cells fresh]. destruct fresh.
    + intros H; inversion H; subst. repeat split.
    + intros H. apply IH in H. exact H.
Qed.

Lemma enough_Ok (lc : LinkCell) (it : t) (stop : bool) :
  enough lc it = Ok stop -> stop = true -> m_num_neighbors it <= size it.
Proof.
  unfold enough. destruct (Z.leb_spec (m_num_neighbors it) (size it)); trivial.
  intros Hen Hs. inversion Hen. congruence.
Qed.

Lemma expand_frame (fuel : nat) (lc : LinkCell) (point_cell : vec3 Z)
    (last : IteratorCellShell) :
  forall it it' : t,
    expand fuel lc point_cell last it = Ok it' ->
    same_nearest_query it it' /\ size it <= size it'.
Proof.
  induction fuel as [|fuel IH]; intros it it'; [discriminate|].
  cbn [expand]. destruct (shell_eq _ _).
  - intros H; inversion H; subst. split; [apply same_nearest_query_refl|lia].
  - intros H. apply bind_Ok in H. destruct H as (it1 & H1 & H).
    apply bind_Ok in H. destruct H as (it2 & H2 & H).
    apply bind_Ok in H. destruct H as (stop & H3 & H).
    assert (Hq1 : same_nearest_query it it1 /\ size it <= size it1).
    { destruct (negb _).
      - apply scan_cell_frame in H1. tauto.
      - inversion H1; subst. split; [apply same_nearest_query_refl|lia]. }
    destruct Hq1 as [Hq1 Hs1].
    apply next_cell_frame in H2. destruct H2 as [Hq2 Ha2].
    assert (Hs2 : size it2 = size it1) by (unfold size; rewrite Ha2; reflexivity).
    assert (Hq : same_nearest_query it it2)
      by exact (same_nearest_query_trans _ _ _ Hq1 Hq2).
    destruct stop.
    + inversion H; subst. split.
      * eapply same_nearest_query_trans; [exact Hq|]. repeat split.
      * unfold size in *. cbn [set_current_neighbors m_current_neighbors].
        rewrite sort_bonds_length. lia.
    + apply IH in H. destruct H as [Hq3 Hs3]. split.
      * exact (same_nearest_query_trans _ _ _ Hq Hq3).
      * lia.
Qed.

(** One call of [next]: a bond is given out only while fewer than
    [m_num_neighbors] have been, and it is counted. *)
Lemma next_count (fuel : nat) (lc : LinkCell) (it it' : t) (y : yielded) :
  next fuel lc it = Ok (y, it') ->
  m_num_neighbors it' = m_num_neighbors it
  /\ size it <= size it'
  /\ match y with
     | Yield _ =>
         m_count it < m_num_neighbors it
         /\ m_count it < size it'
         /\ m_count it' = u32 (m_count it + 1)
     | ITERATOR_TERMINATOR => m_count it' = m_count it
     end.
Proof.
  unfold next. intros H. apply bind_Ok in H. destruct H as (it1 & H1 & H).
  assert (Hq : same_nearest_query it it1 /\ size it <= size it1).
  { destruct (_ =? 0).
    - apply expand_frame in H1. destruct H1 as [Hq Hs]. split.
      + eapply same_nearest_query_trans; [|exact Hq]. repeat split.
      + exact Hs.
    - inversion H1; subst. split; [repeat split|]. unfold size. simpl. lia. }
  destruct Hq as [(_ & _ & _ & Hk & Hc & _) Hs].
  destruct (_ && _) eqn:Hlt in H.
  - apply bind_Ok in H. destruct H as (b & Hb & H). inversion H; subst.
    apply andb_prop in Hlt. destruct Hlt as [H2 H3].
    apply Z.ltb_lt in H2, H3.
    cbn [set_count m_num_neighbors m_count m_current_neighbors]. unfold size in *.
    cbn [set_count m_current_neighbors].
    repeat split; try congruence; try lia.
  - inversion H; subst. cbn [set_finished m_num_neighbors m_count].
    unfold size in *. cbn [set_finished m_current_neighbors].
    repeat split; try congruence; lia.
Qed.

Lemma next_query (fuel : nat) (lc : LinkCell) (it it' : t) (y : yielded) :
  next fuel lc it = Ok (y, it') ->
  m_exclude_ii it' = m_exclude_ii it
  /\ m_query_point_idx it' = m_query_point_idx it.
Proof.
  unfold next. intros H. apply bind_Ok in H. destruct H as (it1 & H1 & H).
  assert (Hq : m_exclude_ii it1 = m_exclude_ii it
               /\ m_query_point_idx it1 = m_query_point_idx it).
  { destruct (_ =? 0).
    - apply expand_frame in H1. destruct H1 as [(_ & Hq & Hx1 & _) _]. auto.
    - inversion H1; subst. auto. }
  destruct (_ && _) in H.
  - apply bind_Ok in H. destruct H as (b0 & _ & H). inversion H; subst.
    cbn [set_count m_exclude_ii m_query_point_idx]. exact Hq.
  - inversion H; subst. cbn [set_finished m_exclude_ii m_query_point_idx]. exact Hq.
Qed.

(** Driving the iterator to the terminator from a state in which [count]
    bonds are out yields at most [m_num_neighbors - count] more, and no more
    than the accumulator holds. *)
Lemma drain_count (fuel : nat) (lc : LinkCell) :
  forall (calls : nat) (it it' : t) (bs : list NeighborBond),
    m_num_neighbors it < 2 ^ 32 ->
    0 <= m_count it ->
    drain calls fuel lc it = Ok (bs, it') ->
    m_num_neighbors it' = m_num_neighbors it
    /\ size it <= size it'
    /\ (bs = []
        \/ (m_count it + Z.of_nat (List.length bs) <= m_num_neighbors it
            /\ m_count it + Z.of_nat (List.length bs) <= size it')).
Proof.
  induction calls as [|calls IH]; intros it it' bs Hk Hc; [discriminate|].
  cbn [drain]. intros H. apply bind_Ok in H. destruct H as ([y it1] & Hn & H).
  apply next_count in Hn. destruct Hn as (Hk1 & Hs1 & Hy).
  destruct y as [b|].
  - apply bind_Ok in H. destruct H as ([bs' it2] & Hd & H).
    inversion H; subst; clear H. cbn [fst snd].
    destruct Hy as (Hlt & Hlt' & Hc1).
    rewrite u32_small in Hc1 by lia.
    apply IH in Hd; try lia. destruct Hd as (Hk2 & Hs2 & Hbs).
    split; [congruence|]. split; [lia|]. right.
    cbn [List.length]. destruct Hbs as [->|[Hb1 Hb2]].
    + cbn [List.length]. lia.
    + lia.
  - inversion H; subst. split; [congruence|]. split; [lia|]. left. reflexivity.
Qed.

End NearestCount.

(** ** The k-nearest iterator: no point is a candidate twice *)

Section NearestInvariant.
Context {E : Externals}.
Import LinkCellQueryIterator.

Lemma searched_cons (cells : list Z) (c c' : Z) :
  searched (c :: cells) c' = (c' =? c) || searched cells c'.
Proof. reflexivity. Qed.

Lemma insert_cell_spec (cells : list Z) (c : Z) :
  let '(cells', fresh) := insert_cell cells c in
  searched cells' c = true
  /\ (forall c', searched cells c' = true -> searched cells' c' = true)
  /\ (if fresh then searched cells c = false /\ cells' = c :: cells
      else cells' = cells).
Proof.
  unfold insert_cell. destruct (searched cells c) eqn:Hs.
  - repeat split; auto.
  - repeat split; auto.
    + rewrite searched_cons, Z.eqb_refl. reflexivity.
    + intros c' Hc'. rewrite searched_cons, Hc'. apply orb_true_r.
Qed.

Lemma candidate_mono (lc : LinkCell) (it it' : t) (b : NeighborBond) :
  m_exclude_ii it' = m_exclude_ii it ->
  m_query_point_idx it' = m_query_point_idx it ->
  (forall c, searched (m_searched_cells it) c = true ->
             searched (m_searched_cells it') c = true) ->
  candidate lc it b -> candidate lc it' b.
Proof.
  intros He Hq Hs (Hr & Hx & c & Hc & Hsc). split; [exact Hr|]. split.
  - rewrite He, Hq. exact Hx.
  - exists c. auto.
Qed.

(** Widening the set of searched cells keeps the invariant. *)
Lemma search_inv_searched (lc : LinkCell) (it : t) (cells : list Z) :
  (forall c, searched (m_searched_cells it) c = true -> searched cells c = true) ->
  search_inv lc it -> search_inv lc (set_searched_cells it cells).
Proof.
  intros Hs (Hnd & Hcand & Hcur). split; [exact Hnd|]. split.
  - intros b Hb. apply (candidate_mono lc it); auto.
  - destruct Hcur as [He|(Hv & c & Hc & Hsc & Hpast)]; [left; exact He|right].
    split; [exact Hv|]. exists c. auto.
Qed.

Lemma scan_cell_inv (lc : LinkCell) :
  cell_list_wf lc ->
  forall (fuel : nat) (it it' : t),
    search_inv lc it ->
    atEnd (m_cell_iter it) = false ->
    scan_cell fuel lc it = Ok it' ->
    search_inv lc it'.
Proof.
  intros Hwf. induction fuel as [|fuel IH]; intros it it' Hinv Hne; [discriminate|].
  cbn [scan_cell]. intros H.
  destruct Hinv as (Hnd & Hcand & Hcur).
  destruct Hcur as [He|(Hv & c & Hc & Hsc & Hpast)]; [congruence|].
  destruct (cell_next_wf lc _ Hwf Hv) as (j & Hj & Hjs).
  rewrite Hj in H. cbn [bind] in H.
  destruct (atEnd j) eqn:Hend.
  { inversion H; subst. split; [exact Hnd|]. split; [exact Hcand|]. left. exact Hend. }
  destruct Hjs as [Hj'|(Hr & Hcj & Hlt & _)].
  { apply atEnd_false in Hend. contradiction. }
  assert (Hvj : valid_cursor lc j).
  { unfold valid_cursor. destruct Hwf as (_ & HNc & _). lia. }
  assert (Hcc : cursor_cell lc j = Some c).
  { unfold cursor_cell. destruct (Z.ltb_spec j (m_n_points lc)); [|lia]. congruence. }
  assert (Hpast' : forall b, In b (m_current_neighbors it) ->
                     cell_of lc (point_idx b) = Some c -> point_idx b < j).
  { intros b Hb Hcb. specialize (Hpast b Hb Hcb). lia. }
  destruct (_ && _) eqn:Hex in H.
  - apply (IH (set_cell_iter it j)); trivial.
    split; [exact Hnd|]. split; [exact Hcand|]. right.
    split; [exact Hvj|]. exists c. split; [exact Hcc|]. split; [exact Hsc|].
    cbn [set_cell_iter m_cell_iter m_current_neighbors].
    intros b Hb Hcb. specialize (Hpast' b Hb Hcb). lia.
  - apply bind_Ok in H. destruct H as (pj & Hpj & H).
    apply IH in H; trivial.
    cbn [set_current_neighbors set_cell_iter m_current_neighbors m_cell_iter
         m_searched_cells m_exclude_ii m_query_point_idx].
    split; [|split].
    + cbn [set_current_neighbors set_cell_iter m_current_neighbors].
      rewrite map_app. cbn [map NeighborBond3 point_idx].
      apply NoDup_app; [exact Hnd| |].
      * constructor; [intros []|constructor].
      * intros x Hx [Hxj|[]]. subst x.
        apply in_map_iff in Hx. destruct Hx as (b & Hbj & Hb).
        assert (Hcb : cell_of lc (point_idx b) = Some c) by congruence.
        specialize (Hpast' b Hb Hcb). lia.
    + cbn [set_current_neighbors set_cell_iter m_current_neighbors].
      intros b Hb. apply in_app_or in Hb. destruct Hb as [Hb|[Hb|[]]].
      * apply (candidate_mono lc it); auto.
      * subst b. unfold candidate.
        cbn [NeighborBond3 point_idx set_current_neighbors set_cell_iter
             m_exclude_ii m_query_point_idx m_searched_cells].
        split; [exact Hr|]. split.
        -- intros Hx Hjq. cbn [set_cell_iter m_exclude_ii m_query_point_idx] in Hex.
           rewrite Hx, Hjq, Z.eqb_refl in Hex. discriminate.
        -- exists c. split; [congruence|exact Hsc].
    + right. cbn [set_current_neighbors set_cell_iter m_current_neighbors m_cell_iter
                  m_searched_cells].
      split; [exact Hvj|]. exists c. split; [exact Hcc|]. split; [exact Hsc|].
      intros b Hb Hcb. apply in_app_or in Hb. destruct Hb as [Hb|[Hb|[]]].
      * specialize (Hpast' b Hb Hcb). lia.
      * subst b. cbn [NeighborBond3 point_idx]. lia.
Qed.

Lemma next_cell_inv (lc : LinkCell) (point_cell : vec3 Z) (last : IteratorCellShell) :
  cell_list_wf lc -> grid_closed lc ->
  forall (fuel : nat) (it it' : t),
    search_inv lc it ->
    next_cell fuel lc point_cell last it = Ok it' ->
    search_inv lc it'.
Proof.
  intros Hwf Hgrid. induction fuel as [|fuel IH]; intros it it' Hinv; [discriminate|].
  cbn [next_cell].
  cbn [set_neigh_cell_iter m_neigh_cell_iter m_searched_cells].
  destruct (shell_eq _ _).
  { intros H; inversion H; subst. exact Hinv. }
  set (idx := getCellIndex (m_cell_index lc)
                (vadd_int point_cell (shell_deref (shell_incr (m_neigh_cell_iter it))))).
  pose proof (insert_cell_spec (m_searched_cells it) idx) as Hins.
  destruct (insert_cell (m_searched_cells it) idx) as [cells fresh].
  destruct Hins as (Hin & Hmono & Hfresh).
  destruct fresh.
  - intros H; inversion H; subst it'; clear H.
    destruct Hfresh as [Hnew ->].
    destruct Hinv as (Hnd & Hcand & _).
    destruct (itercell_valid lc idx Hwf (Hgrid _)) as [Hv Hi].
    split; [exact Hnd|]. split.
    + intros b Hb. apply (candidate_mono lc it); auto.
    + right. cbn [set_cell_iter set_searched_cells set_neigh_cell_iter
                  m_cell_iter m_searched_cells m_current_neighbors].
      split; [exact Hv|]. exists idx. split; [|split; [exact Hin|]].
      * unfold cursor_cell. rewrite Hi.
        destruct (Z.ltb_spec (m_n_points lc + idx) (m_n_points lc)).
        -- pose proof (Hgrid (vadd_int point_cell
                                 (shell_deref (shell_incr (m_neigh_cell_iter it))))) as Hg.
           fold idx in Hg. unfold in_grid in Hg. apply andb_prop in Hg.
           destruct Hg as [Hg _]. apply Z.leb_le in Hg. lia.
        -- f_equal. lia.
      * intros b Hb Hcb. exfalso.
        destruct (Hcand b Hb) as (_ & _ & c & Hc & Hsc).
        assert (c = idx) by congruence. subst c. congruence.
  - intros H. apply IH in H; trivial.
Qed.

Lemma search_inv_sorted (lc : LinkCell) (it : t) :
  search_inv lc it ->
  search_inv lc (set_current_neighbors it (sort_bonds (m_current_neighbors it))).
Proof.
  intros (Hnd & Hcand & Hcur).
  pose proof (sort_bonds_perm (m_current_neighbors it)) as Hperm.
  split; [|split].
  - cbn [set_current_neighbors m_current_neighbors].
    apply (Permutation_NoDup (l := map point_idx (m_current_neighbors it))); trivial.
    apply Permutation_map. symmetry. exact Hperm.
  - cbn [set_current_neighbors m_current_neighbors]. intros b Hb.
    apply (candidate_mono lc it); auto.
    apply Hcand. eapply Permutation_in; eauto.
  - destruct Hcur as [He|(Hv & c & Hc & Hsc & Hpast)]; [left; exact He|right].
    split; [exact Hv|]. exists c. split; [exact Hc|]. split; [exact Hsc|].
    cbn [set_current_neighbors m_current_neighbors m_cell_iter].
    intros b Hb. apply Hpast. eapply Permutation_in; eauto.
Qed.

Lemma expand_inv (lc : LinkCell) (point_cell : vec3 Z) (last : IteratorCellShell) :
  cell_list_wf lc -> grid_closed lc ->
  forall (fuel : nat) (it it' : t),
    search_inv lc it ->
    expand fuel lc point_cell last it = Ok it' ->
    search_inv lc it'.
Proof.
  intros Hwf Hgrid. induction fuel as [|fuel IH]; intros it it' Hinv; [discriminate|].
  cbn [expand]. destruct (shell_eq _ _).
  { intros H; inversion H; subst. exact Hinv. }
  intros H. apply bind_Ok in H. destruct H as (it1 & H1 & H).
  apply bind_Ok in H. destruct H as (it2 & H2 & H).
  apply bind_Ok in H. destruct H as (stop & H3 & H).
  assert (Hinv1 : search_inv lc it1).
  { destruct (atEnd (m_cell_iter it)) eqn:He; cbn [negb] in H1.
    - inversion H1; subst. exact Hinv.
    - eapply scan_cell_inv; eauto. }
  assert (Hinv2 : search_inv lc it2) by (eapply next_cell_inv; eauto).
  destruct stop.
  - inversion H; subst. apply search_inv_sorted. exact Hinv2.
  - eapply IH; eauto.
Qed.

(** A fresh iterator satisfies the invariant once [next] has entered the
    cell it starts in among the searched cells. *)
Lemma fresh_inv (lc : LinkCell) (it : t) :
  cell_list_wf lc -> grid_closed lc -> fresh lc it ->
  search_inv lc
    (set_searched_cells it
       (fst (insert_cell (m_searched_cells it)
               (getCellIndex (m_cell_index lc)
                  (vadd_int (nearest_home lc it)
                            (shell_deref (m_neigh_cell_iter it))))))).
Proof.
  intros Hwf Hgrid (Hacc & _ & Hs & Hcur).
  set (idx := getCellIndex (m_cell_index lc)
                (vadd_int (nearest_home lc it) (shell_deref (m_neigh_cell_iter it)))) in *.
  pose proof (insert_cell_spec (m_searched_cells it) idx) as Hins.
  destruct (insert_cell (m_searched_cells it) idx) as [cells fr].
  destruct Hins as (Hin & _ & _). cbn [fst].
  destruct (itercell_valid lc idx Hwf (Hgrid _)) as [Hv Hi].
  split; [|split].
  - cbn [set_searched_cells m_current_neighbors]. rewrite Hacc. constructor.
  - cbn [set_searched_cells m_current_neighbors]. rewrite Hacc. intros b [].
  - right. cbn [set_searched_cells m_cell_iter m_searched_cells m_current_neighbors].
    rewrite Hcur. split; [exact Hv|]. exists idx. split; [|split; [exact Hin|]].
    + unfold cursor_cell. rewrite Hi.
      destruct (Z.ltb_spec (m_n_points lc + idx) (m_n_points lc)).
      * pose proof (Hgrid (vadd_int (nearest_home lc it)
                              (shell_deref (m_neigh_cell_iter it)))) as Hg.
        fold idx in Hg. unfold in_grid in Hg. apply andb_prop in Hg.
        destruct Hg as [Hg _]. apply Z.leb_le in Hg. lia.
      * f_equal. lia.
    + rewrite Hacc. intros b [].
Qed.

(** [next] keeps the invariant, from a fresh iterator or from one that
    satisfies it. *)
Lemma next_inv (lc : LinkCell) (fuel : nat) (it it' : t) (y : yielded) :
  cell_list_wf lc -> grid_closed lc ->
  fresh lc it \/ search_inv lc it ->
  next fuel lc it = Ok (y, it') ->
  search_inv lc it'.
Proof.
  intros Hwf Hgrid Hstart. unfold next.
  fold (nearest_home lc it).
  set (idx := getCellIndex (m_cell_index lc)
                (vadd_int (nearest_home lc it) (shell_deref (m_neigh_cell_iter it)))).
  set (it0 := set_searched_cells it (fst (insert_cell (m_searched_cells it) idx))).
  assert (Hinv0 : search_inv lc it0).
  { destruct Hstart as [Hf|Hinv].
    - apply fresh_inv; trivial.
    - apply search_inv_searched; trivial.
      pose proof (insert_cell_spec (m_searched_cells it) idx) as Hins.
      destruct (insert_cell (m_searched_cells it) idx) as [cells fr].
      cbn [fst]. apply Hins. }
  intros H. apply bind_Ok in H. destruct H as (it1 & H1 & H).
  assert (Hinv1 : search_inv lc it1).
  { destruct (size it0 =? 0).
    - eapply expand_inv; eauto.
    - inversion H1; subst. exact Hinv0. }
  destruct (_ && _) in H.
  - apply bind_Ok in H. destruct H as (b & _ & H). inversion H; subst.
    exact Hinv1.
  - inversion H; subst. exact Hinv1.
Qed.

Lemma drain_inv (lc : LinkCell) (fuel : nat) :
  cell_list_wf lc -> grid_closed lc ->
  forall (calls : nat) (it it' : t) (bs : list NeighborBond),
    fresh lc it \/ search_inv lc it ->
    drain calls fuel lc it = Ok (bs, it') ->
    search_inv lc it'.
Proof.
  intros Hwf Hgrid. induction calls as [|calls IH]; intros it it' bs Hstart; [discriminate|].
  cbn [drain]. intros H. apply bind_Ok in H. destruct H as ([y it1] & Hn & H).
  apply next_inv in Hn; trivial.
  destruct y as [b|].
  - apply bind_Ok in H. destruct H as ([bs' it2] & Hd & H).
    inversion H; subst. cbn [snd]. eapply IH; [right; exact Hn|exact Hd].
  - inversion H; subst. exact Hn.
Qed.

(** The invariant bounds the accumulator by the number of points. *)
Lemma search_inv_size (lc : LinkCell) (it : t) :
  search_inv lc it -> 0 <= m_n_points lc ->
  size it <= m_n_points lc
  /\ (m_exclude_ii it = true ->
      0 <= m_query_point_idx it < m_n_points lc ->
      size it <= m_n_points lc - 1).
Proof.
  intros (Hnd & Hcand & _) Hn.
  set (all := map Z.of_nat (seq 0 (Z.to_nat (m_n_points lc)))).
  assert (Hall : forall j, 0 <= j < m_n_points lc -> In j all).
  { intros j Hj. unfold all. apply in_map_iff. exists (Z.to_nat j).
    split; [lia|]. apply in_seq. lia. }
  assert (Hlen : Z.of_nat (List.length all) = m_n_points lc).
  { unfold all. rewrite length_map, length_seq. lia. }
  unfold size. rewrite <- (length_map point_idx). split.
  - rewrite <- Hlen. apply inj_le. apply NoDup_incl_length; trivial.
    intros j Hj. apply in_map_iff in Hj. destruct Hj as (b & <- & Hb).
    apply Hall. apply (Hcand b Hb).
  - intros Hex Hq.
    assert (Hrem : (List.length (remove Z.eq_dec (m_query_point_idx it) all)
                    < List.length all)%nat).
    { apply remove_length_lt. apply Hall. exact Hq. }
    assert (Hle : (List.length (map point_idx (m_current_neighbors it))
                   <= List.length (remove Z.eq_dec (m_query_point_idx it) all))%nat).
    { apply NoDup_incl_length; trivial.
      intros j Hj. apply in_map_iff in Hj. destruct Hj as (b & <- & Hb).
      destruct (Hcand b Hb) as (Hr & Hx & _).
      apply in_in_remove; [apply Hx; exact Hex|apply Hall; exact Hr]. }
    lia.
Qed.

(** Once the accumulator holds a candidate, [next] leaves it as it is and
    gives out its entry at [m_count]. *)
Lemma next_stable (lc : LinkCell) (fuel : nat) (it it' : t) (y : yielded) :
  size it <> 0 ->
  next fuel lc it = Ok (y, it') ->
  m_current_neighbors it' = m_current_neighbors it.
Proof.
  unfold next. intros Hs H.
  apply bind_Ok in H. destruct H as (it1 & H1 & H).
  match type of H1 with (if ?c then _ else _) = _ =>
    replace c with false in H1 by (symmetry; apply Z.eqb_neq; exact Hs) end.
  inversion H1; subst it1; clear H1.
  destruct (_ && _) in H.
  - apply bind_Ok in H. destruct H as (b & _ & H). inversion H; subst. reflexivity.
  - inversion H; subst. reflexivity.
Qed.

Lemma next_yielded (lc : LinkCell) (fuel : nat) (it it' : t) (b : NeighborBond) :
  0 <= m_count it -> m_num_neighbors it < 2 ^ 32 ->
  next fuel lc it = Ok (Yield b, it') ->
  nth_error (m_current_neighbors it') (Z.to_nat (m_count it)) = Some b.
Proof.
  unfold next. intros Hc Hk H.
  apply bind_Ok in H. destruct H as (it1 & H1 & H).
  assert (Hq : m_count it1 = m_count it /\ m_num_neighbors it1 = m_num_neighbors it).
  { destruct (_ =? 0).
    - apply expand_frame in H1. destruct H1 as [(_ & _ & _ & Hk1 & Hc1 & _) _].
      split; [exact Hc1|exact Hk1].
    - inversion H1; subst. split; reflexivity. }
  destruct Hq as [Hc1 Hk1].
  destruct (_ && _) eqn:Hlt in H; [|discriminate].
  apply andb_prop in Hlt. destruct Hlt as [H2 _]. apply Z.ltb_lt in H2.
  apply bind_Ok in H. destruct H as (b' & Hb & H). inversion H; subst; clear H.
  apply of_option_Ok in Hb.
  cbn [set_count m_count m_current_neighbors] in *.
  rewrite (u32_small (m_count it1 + 1)) in Hb by lia.
  rewrite u32_small in Hb by lia.
  rewrite read_eq in Hb by lia.
  rewrite <- Hc1. replace (m_count it1) with (m_count it1 + 1 - 1) at 1 by lia.
  exact Hb.
Qed.

Lemma drain_stable (lc : LinkCell) (fuel : nat) :
  forall (calls : nat) (it it' : t) (bs : list NeighborBond),
    size it <> 0 ->
    drain calls fuel lc it = Ok (bs, it') ->
    m_current_neighbors it' = m_current_neighbors it.
Proof.
  induction calls as [|calls IH]; intros it it' bs Hs; [discriminate|].
  cbn [drain]. intros H. apply bind_Ok in H. destruct H as ([y it1] & Hn & H).
  apply next_stable in Hn; trivial.
  destruct y as [b|].
  - apply bind_Ok in H. destruct H as ([bs' it2] & Hd & H).
    inversion H; subst; clear H. cbn [snd].
    apply IH in Hd; [congruence|]. unfold size in *. rewrite Hn. exact Hs.
  - inversion H; subst. exact Hn.
Qed.

Lemma skipn_nth_error {A : Type} (l : list A) :
  forall (n : nat) (x : A),
    nth_error l n = Some x -> skipn n l = x :: skipn (S n) l.
Proof.
  induction l as [|h t IH]; intros [|n] x; simpl; try discriminate.
  - intros H; inversion H; reflexivity.
  - intros H. apply IH in H. exact H.
Qed.

(** The bonds given out are consecutive entries of the accumulator. *)
Lemma drain_entries (lc : LinkCell) (fuel : nat) :
  forall (calls : nat) (it it' : t) (bs : list NeighborBond),
    0 <= m_count it -> m_num_neighbors it < 2 ^ 32 ->
    drain calls fuel lc it = Ok (bs, it') ->
    bs = firstn (List.length bs)
           (skipn (Z.to_nat (m_count it)) (m_current_neighbors it')).
Proof.
  induction calls as [|calls IH]; intros it it' bs Hc Hk; [discriminate|].
  cbn [drain]. intros H. apply bind_Ok in H. destruct H as ([y it1] & Hn & H).
  destruct y as [b|].
  - apply bind_Ok in H. destruct H as ([bs' it2] & Hd & H).
    inversion H; subst; clear H. cbn [fst snd].
    pose proof (next_yielded _ _ _ _ _ Hc Hk Hn) as Hb.
    pose proof (next_count _ _ _ _ _ Hn) as (Hk1 & _ & Hlt & Hlt' & Hc1).
    rewrite u32_small in Hc1 by lia.
    assert (Hs1 : size it1 <> 0) by lia.
    pose proof (drain_stable _ _ _ _ _ _ Hs1 Hd) as Hacc.
    apply IH in Hd; try lia.
    rewrite Hacc in Hd. rewrite Hacc.
    rewrite (skipn_nth_error _ _ _ Hb). cbn [List.length firstn]. f_equal.
    rewrite Hc1 in Hd. replace (Z.to_nat (m_count it + 1)) with (S (Z.to_nat (m_count it))) in Hd by lia.
    exact Hd.
  - inversion H; subst. reflexivity.
Qed.

Lemma NoDup_map_firstn_skipn {A B : Type} (f : A -> B) (l : list A) (n m : nat) :
  NoDup (map f l) -> NoDup (map f (firstn n (skipn m l))).
Proof.
  intros H.
  rewrite <- (firstn_skipn m l), map_app in H. apply NoDup_app_remove_l in H.
  rewrite <- (firstn_skipn n (skipn m l)), map_app in H. apply NoDup_app_remove_r in H.
  exact H.
Qed.

End NearestInvariant.

(** ** The k-nearest iterator: termination *)

Section NearestTermination.
Context {E : Externals}.
Import LinkCellQueryIterator.

Lemma nearest_scan_cell_total (lc : LinkCell) :
  cell_list_wf lc ->
  forall (fuel : nat) (it : t),
    valid_cursor lc (m_cell_iter it) ->
    (remaining lc (m_cell_iter it) <= fuel)%nat ->
    exists it', scan_cell fuel lc it = Ok it'.
Proof.
  intros Hwf. induction fuel as [|fuel IH]; intros it Hcur Hfuel.
  - pose proof (remaining_pos lc _ Hcur). lia.
  - cbn [scan_cell].
    destruct (cell_next_wf lc _ Hwf Hcur) as (j & Hj & Hjs).
    rewrite Hj. cbn [bind].
    destruct (atEnd j) eqn:Hend; [eauto|].
    destruct Hjs as [Hj'|(Hr & _ & _ & Hrem)].
    { apply atEnd_false in Hend. contradiction. }
    assert (Hv : valid_cursor lc j).
    { unfold valid_cursor. destruct Hwf as (_ & HNc & _). lia. }
    destruct (_ && _).
    + apply IH; cbn [set_cell_iter m_cell_iter]; trivial. lia.
    + destruct (point_at_wf lc j Hwf Hr) as (pj & Hpj). rewrite Hpj. cbn [bind].
      apply IH; cbn [set_current_neighbors set_cell_iter m_cell_iter]; trivial. lia.
Qed.

Lemma nearest_next_cell_total (lc : LinkCell) (point_cell : vec3 Z)
    (last : IteratorCellShell) :
  cell_list_wf lc -> grid_closed lc ->
  forall (fuel k : nat) (it : t),
    reaches k last (m_neigh_cell_iter it) = true ->
    (k <= fuel)%nat ->
    exists it',
      next_cell fuel lc point_cell last it = Ok it'
      /\ ((shell_eq (m_neigh_cell_iter it') last = true
           /\ m_cell_iter it' = m_cell_iter it)
          \/ (valid_cursor lc (m_cell_iter it')
              /\ exists k', (k' < k)%nat
                   /\ reaches k' last (m_neigh_cell_iter it') = true)).
Proof.
  intros Hwf Hgrid. induction fuel as [|fuel IH]; intros k it Hk Hfuel.
  - assert (k = 0)%nat by lia. subst k. discriminate.
  - destruct k as [|k]; [discriminate|].
    cbn [reaches] in Hk. cbn [next_cell].
    cbn [set_neigh_cell_iter m_neigh_cell_iter m_searched_cells].
    destruct (shell_eq (shell_incr (m_neigh_cell_iter it)) last) eqn:Hlast.
    + eexists. split; [reflexivity|left].
      cbn [set_neigh_cell_iter m_neigh_cell_iter m_cell_iter]. auto.
    + cbn [orb] in Hk.
      destruct (insert_cell _ _) as [cells fresh]. destruct fresh.
      * eexists. split; [reflexivity|right].
        cbn [set_cell_iter set_searched_cells set_neigh_cell_iter
             m_cell_iter m_neigh_cell_iter].
        split; [apply itercell_valid; trivial|].
        exists k. split; [lia|exact Hk].
      * destruct (IH k (set_neigh_cell_iter it (shell_incr (m_neigh_cell_iter it))))
          as (it' & Hn & Hres); [exact Hk|lia|].
        exists it'. split; [exact Hn|].
        destruct Hres as [?|(Hv & k' & Hlt & Hk')]; [left; trivial|right].
        split; trivial. exists k'. split; [lia|exact Hk'].
Qed.

Lemma enough_total (lc : LinkCell) (it : t) :
  1 <= m_num_neighbors it < 2 ^ 32 ->
  exists stop, enough lc it = Ok stop.
Proof.
  intros Hk. unfold enough.
  destruct (Z.leb_spec (m_num_neighbors it) (size it)) as [Hle|_]; [|eauto].
  rewrite u32_small by lia.
  destruct (read_in_bounds (m_current_neighbors it) (m_num_neighbors it - 1))
    as (b & Hb); [unfold size in Hle; lia|].
  rewrite Hb. cbn [of_option bind]. eauto.
Qed.

(** The widening of the search ends when the shell iterator comes to the
    position it stops at. *)
Lemma expand_total (lc : LinkCell) (point_cell : vec3 Z) (last : IteratorCellShell) :
  cell_list_wf lc -> grid_closed lc ->
  forall (k fuel : nat) (it : t),
    atEnd (m_cell_iter it) = true \/ valid_cursor lc (m_cell_iter it) ->
    shell_eq (m_neigh_cell_iter it) last = true
    \/ reaches k last (m_neigh_cell_iter it) = true ->
    1 <= m_num_neighbors it < 2 ^ 32 ->
    (k + S (Z.to_nat (m_n_points lc)) < fuel)%nat ->
    exists it', expand fuel lc point_cell last it = Ok it'.
Proof.
  intros Hwf Hgrid k. induction k as [k IH] using lt_wf_ind.
  intros fuel it Hcur Hreach Hnn Hfuel.
  destruct fuel as [|fuel]; [lia|]. cbn [expand].
  destruct (shell_eq (m_neigh_cell_iter it) last) eqn:Hlast; [eauto|].
  destruct Hreach as [?|Hreach]; [discriminate|].
  assert (H1 : exists it1,
             (if negb (atEnd (m_cell_iter it)) then scan_cell (S fuel) lc it else Ok it)
             = Ok it1
             /\ atEnd (m_cell_iter it1) = true
             /\ same_nearest_query it it1
             /\ m_neigh_cell_iter it1 = m_neigh_cell_iter it).
  { destruct (atEnd (m_cell_iter it)) eqn:He; cbn [negb].
    - exists it. repeat split; trivial.
    - destruct Hcur as [?|Hv]; [discriminate|].
      destruct (nearest_scan_cell_total lc Hwf (S fuel) it Hv) as (it1 & Hs).
      { pose proof (remaining_bound lc (m_cell_iter it)). unfold valid_cursor in Hv. lia. }
      exists it1. split; [exact Hs|].
      apply scan_cell_frame in Hs. tauto. }
  destruct H1 as (it1 & H1 & He1 & Hq1 & Hs1). rewrite H1. cbn [bind].
  destruct (nearest_next_cell_total lc point_cell last Hwf Hgrid (S fuel) k it1)
    as (it2 & H2 & Hres); [rewrite Hs1; exact Hreach|lia|].
  rewrite H2. cbn [bind].
  apply next_cell_frame in H2. destruct H2 as [Hq2 _].
  assert (Hq : same_nearest_query it it2)
    by exact (same_nearest_query_trans _ _ _ Hq1 Hq2).
  assert (Hnn2 : 1 <= m_num_neighbors it2 < 2 ^ 32).
  { destruct Hq as (_ & _ & _ & -> & _). exact Hnn. }
  destruct (enough_total lc it2 Hnn2) as (stop & H3). rewrite H3. cbn [bind].
  destruct stop; [eauto|].
  destruct Hres as [[Hl Hc]|(Hv & k' & Hlt & Hk')].
  - destruct fuel as [|fuel]; [lia|]. cbn [expand]. rewrite Hl. eauto.
  - apply (IH k' Hlt); auto. lia.
Qed.

(** A call of [next] on a fresh iterator returns. *)
Lemma nearest_next_total (lc : LinkCell) (k fuel : nat) (it : t) :
  cell_list_wf lc -> grid_closed lc -> fresh lc it ->
  shell_eq (m_neigh_cell_iter it) (last_shell lc) = true
  \/ reaches k (last_shell lc) (m_neigh_cell_iter it) = true ->
  1 <= m_num_neighbors it < 2 ^ 32 ->
  (k + S (Z.to_nat (m_n_points lc)) < fuel)%nat ->
  exists y it', next fuel lc it = Ok (y, it').
Proof.
  intros Hwf Hgrid Hfresh Hreach Hnn Hfuel. unfold next.
  fold (nearest_home lc it). fold (last_shell lc).
  set (idx := getCellIndex (m_cell_index lc)
                (vadd_int (nearest_home lc it) (shell_deref (m_neigh_cell_iter it)))).
  set (it0 := set_searched_cells it (fst (insert_cell (m_searched_cells it) idx))).
  assert (H1 : exists it1,
             (if size it0 =? 0
              then expand fuel lc (nearest_home lc it) (last_shell lc) it0
              else Ok it0) = Ok it1
             /\ same_nearest_query it it1).
  { destruct (size it0 =? 0).
    - destruct (expand_total lc (nearest_home lc it) (last_shell lc) Hwf Hgrid k fuel it0)
        as (it1 & Hx); trivial.
      + right. destruct Hfresh as (_ & _ & _ & Hcur).
        cbn [it0 set_searched_cells m_cell_iter]. rewrite Hcur.
        apply itercell_valid; trivial.
      + exists it1. split; [exact Hx|].
        apply expand_frame in Hx. destruct Hx as [Hq _].
        eapply same_nearest_query_trans; [|exact Hq]. repeat split.
    - exists it0. split; [reflexivity|]. repeat split. }
  destruct H1 as (it1 & H1 & Hq). rewrite H1. cbn [bind].
  destruct (_ && _) eqn:Hlt; [|eauto].
  apply andb_prop in Hlt. destruct Hlt as [H2 H3]. apply Z.ltb_lt in H2, H3.
  cbn [set_count m_count m_current_neighbors].
  destruct Hq as (_ & _ & _ & Hk1 & Hc1 & _).
  destruct Hfresh as (_ & Hc0 & _).
  rewrite (u32_small (m_count it1 + 1)) by lia.
  rewrite u32_small by lia.
  destruct (read_in_bounds (m_current_neighbors it1) (m_count it1 + 1 - 1))
    as (b & Hb); [unfold size in H3; lia|].
  rewrite Hb. cbn [of_option bind]. eauto.
Qed.

(** When every point of the array is the excluded query point, a fresh
    iterator has nothing to give out. *)
Lemma nearest_next_no_candidate (lc : LinkCell) (fuel : nat) (it it' : t) (y : yielded) :
  cell_list_wf lc -> grid_closed lc -> fresh lc it ->
  m_exclude_ii it = true ->
  (forall j, 0 <= j < m_n_points lc -> j = m_query_point_idx it) ->
  next fuel lc it = Ok (y, it') ->
  y = ITERATOR_TERMINATOR.
Proof.
  intros Hwf Hgrid Hfresh Hex Hall Hn.
  pose proof (next_inv lc fuel it it' y Hwf Hgrid (or_introl Hfresh) Hn) as (_ & Hcand & _).
  pose proof (next_count _ _ _ _ _ Hn) as (_ & _ & Hy).
  destruct y as [b|]; [exfalso|reflexivity].
  destruct Hy as (_ & Hlt & _). destruct Hfresh as (_ & Hc0 & _).
  unfold size in Hlt.
  destruct (m_current_neighbors it') as [|b' l] eqn:Hacc; [simpl in Hlt; lia|].
  destruct (Hcand b' (or_introl eq_refl)) as (Hr & Hx & _).
  destruct (next_query _ _ _ _ _ Hn) as [Hex' Hq'].
  rewrite Hex in Hex'.
  apply (Hx Hex'). rewrite Hq'. apply Hall. exact Hr.
Qed.

End NearestTermination.

(** ** The constructor builds a well-formed cell list *)

Section ConstructorProperties.
Context {E : Externals}.

Lemma updateInternal_frame (lc lc' : LinkCell) (box : Box) (cell_width : float) :
  updateInternal lc box cell_width = Ok lc' ->
  m_n_points lc' = m_n_points lc /\ m_Nc lc' = m_Nc lc
  /\ m_cell_list lc' = m_cell_list lc /\ m_points lc' = m_points lc.
Proof.
  unfold updateInternal.
  destruct (fne cell_width (m_cell_width lc) || box_ne box (m_box lc)).
  2:{ intros H; inversion H; auto. }
  intros H. apply bind_Ok in H. destruct H as (celldim & _ & H).
  apply bind_Ok in H. destruct H as (lc1 & Hlc1 & H).
  inversion H; subst lc'; clear H.
  destruct (negb _) in Hlc1.
  - destruct (getNumElements _ <? 1); [discriminate|].
    inversion Hlc1; subst lc1. repeat split.
  - inversion Hlc1; subst lc1. repeat split.
Qed.

Lemma LinkCell_of_points_wf (box : Box) (cell_width : float)
    (points : list (vec3 float)) (n : Z) (lc : LinkCell) :
  LinkCell_of_points box cell_width points n = Ok lc ->
  0 < n <= 2 ^ 31 ->
  n <= Z.of_nat (List.length points) ->
  0 <= getNumCells lc -> n + getNumCells lc < 2 ^ 32 ->
  cells_in_grid (m_box lc) (m_cell_index lc) points = true ->
  cell_list_wf lc.
Proof.
  unfold LinkCell_of_points. intros H Hn Hlen HNc Hb Hgrid.
  apply bind_Ok in H. destruct H as (lc1 & H1 & H).
  pose proof H as Hcc. unfold computeCellList in H.
  apply bind_Ok in H. destruct H as (lc2 & H2 & _).
  apply updateInternal_frame in H1. destruct H1 as (Hn1 & _).
  pose proof (updateInternal_frame _ _ _ _ H2) as (Hn2 & _).
  assert (Hfresh : m_n_points lc2 <> n).
  { rewrite Hn2, Hn1. cbn [LinkCell_init m_n_points]. lia. }
  destruct (computeCellList_wf lc1 lc2 lc box points n H2 Hcc Hn Hlen)
    as (Hwf & Hbx & Hix & _ & _ & HNc' & _).
  - unfold computeCellList in Hcc. rewrite H2 in Hcc. cbn [bind] in Hcc.
    destruct (n =? 0); [discriminate|].
    apply bind_Ok in Hcc. destruct Hcc as (l1 & _ & Hcc).
    apply bind_Ok in Hcc. destruct Hcc as (l2 & _ & Hcc).
    inversion Hcc; subst lc. unfold getNumCells in *.
    cbn [set_cell_list m_cell_index] in HNc. exact HNc.
  - unfold computeCellList in Hcc. rewrite H2 in Hcc. cbn [bind] in Hcc.
    destruct (n =? 0); [discriminate|].
    apply bind_Ok in Hcc. destruct Hcc as (l1 & _ & Hcc).
    apply bind_Ok in Hcc. destruct Hcc as (l2 & _ & Hcc).
    inversion Hcc; subst lc. unfold getNumCells in *.
    cbn [set_cell_list m_cell_index] in Hb. exact Hb.
  - intros Hc. contradiction.
  - unfold computeCellList in Hcc. rewrite H2 in Hcc. cbn [bind] in Hcc.
    destruct (n =? 0); [discriminate|].
    apply bind_Ok in Hcc. destruct Hcc as (l1 & _ & Hcc).
    apply bind_Ok in Hcc. destruct Hcc as (l2 & _ & Hcc).
    inversion Hcc; subst lc.
    cbn [set_cell_list m_cell_index m_box] in Hgrid. exact Hgrid.
  - exact Hwf.
Qed.

End ConstructorProperties.

(** ** The sample grid *)

Lemma grid2_built :
  LinkCell_of_points (E := SampleExternals) cube10 (fz 5) three_points 3 = Ok grid2.
Proof. reflexivity. Qed.

Lemma grid2_wf : cell_list_wf grid2.
Proof.
  apply (LinkCell_of_points_wf (E := SampleExternals) cube10 (fz 5) three_points 3).
  - exact grid2_built.
  - split; [lia|]. apply Z.leb_le. reflexivity.
  - apply Z.leb_le. reflexivity.
  - apply Z.leb_le. reflexivity.
  - apply Z.ltb_lt. reflexivity.
  - reflexivity.
Qed.

Lemma grid2_closed : grid_closed grid2.
Proof.
  intros v. unfold in_grid.
  change (m_Nc grid2) with 8.
  change (getCellIndex (m_cell_index grid2) v)
    with ((vz v mod 2 * 2 + vy v mod 2) * 2 + vx v mod 2).
  pose proof (Z.mod_pos_bound (vx v) 2 eq_refl).
  pose proof (Z.mod_pos_bound (vy v) 2 eq_refl).
  pose proof (Z.mod_pos_bound (vz v) 2 eq_refl).
  apply andb_true_intro. split; [apply Z.leb_le|apply Z.ltb_lt]; lia.
Qed.

Lemma nearest_of_origin_fresh : fresh grid2 nearest_of_origin.
Proof. repeat split. Qed.

Lemma nearest_of_foreign_point_fresh : fresh grid2 nearest_of_foreign_point.
Proof. repeat split. Qed.

Lemma lonely_grid_built :
  LinkCell_of_points (E := SampleExternals) cube10 (fz 5) [pt 0 0 0] 1 = Ok lonely_grid.
Proof. reflexivity. Qed.

Lemma lonely_grid_wf : cell_list_wf lonely_grid.
Proof.
  apply (LinkCell_of_points_wf (E := SampleExternals) cube10 (fz 5) [pt 0 0 0] 1).
  - exact lonely_grid_built.
  - split; [lia|]. apply Z.leb_le. reflexivity.
  - apply Z.leb_le. reflexivity.
  - apply Z.leb_le. reflexivity.
  - apply Z.ltb_lt. reflexivity.
  - reflexivity.
Qed.

Lemma lonely_grid_closed : grid_closed lonely_grid.
Proof.
  intros v. unfold in_grid.
  change (m_Nc lonely_grid) with 8.
  change (getCellIndex (m_cell_index lonely_grid) v)
    with ((vz v mod 2 * 2 + vy v mod 2) * 2 + vx v mod 2).
  pose proof (Z.mod_pos_bound (vx v) 2 eq_refl).
  pose proof (Z.mod_pos_bound (vy v) 2 eq_refl).
  pose proof (Z.mod_pos_bound (vz v) 2 eq_refl).
  apply andb_true_intro. split; [apply Z.leb_le|apply Z.ltb_lt]; lia.
Qed.

(** ** The query of a drained k-nearest iterator *)

Section NearestDrainFrame.
Context {E : Externals}.

Lemma drain_query (fuel : nat) (lc : LinkCell) (calls : nat)
    (it it' : LinkCellQueryIterator.t) (bs : list NeighborBond) :
  LinkCellQueryIterator.drain calls fuel lc it = Ok (bs, it') ->
  LinkCellQueryIterator.m_exclude_ii it' = LinkCellQueryIterator.m_exclude_ii it
  /\ LinkCellQueryIterator.m_query_point_idx it'
     = LinkCellQueryIterator.m_query_point_idx it.
Proof.
  revert it it' bs. induction calls as [|calls IH]; intros it it' bs H.
  - discriminate.
  - simpl in H.
    destruct (LinkCellQueryIterator.next fuel lc it) as [[y it1]| | |] eqn:Hn;
      try discriminate.
    apply next_query in Hn. destruct Hn as [He Hq].
    simpl in H. destruct y as [b|].
    + destruct (LinkCellQueryIterator.drain calls fuel lc it1) as [[bs1 it2]| | |] eqn:Hd;
        try discriminate.
      simpl in H. inversion H; subst.
      destruct (IH _ _ _ Hd) as [He' Hq']. split; congruence.
    + inversion H; subst. split; assumption.
Qed.

End NearestDrainFrame.

(* ================================================================== *)
(** * The properties of the specification *)
(* ================================================================== *)

(** C1.  The k-nearest iterator does not always give out the nearest
    points.  On the grid of the three points, asked for the one nearest
    neighbor of the origin, it gives out the bond to point 1, at distance
    sqrt 48, and nothing else; point 2, at distance 1, is in the
    accumulator behind it: the search ran up to [max_range] without the
    early-termination test passing, and the accumulator was never sorted. *)
Theorem nearest_iterator_gives_out_far_point :
  LinkCellQueryIterator.drain 2 100 grid2 nearest_of_origin
  = Ok ([NeighborBond3 0 1 (fsqrt (fz 48))], nearest_of_origin_after)
  /\ LinkCellQueryIterator.m_current_neighbors nearest_of_origin_after
     = [NeighborBond3 0 1 (fsqrt (fz 48)); NeighborBond3 0 2 (fz 1)]
  /\ flt (fz 1) (fsqrt (fz 48)) = true
  /\ LinkCellQueryIterator.m_neigh_cell_iter nearest_of_origin_after = last_shell grid2.
Proof.
  split; [reflexivity|]. split; [reflexivity|]. split; reflexivity.
Qed.

(** C3.  A bond that a call of [next] of the ball iterator yields was built
    for one point [j] of the array: its squared distance after wrapping is
    strictly below [m_r * m_r], its [point_idx] differs from its
    [query_point_idx] when self-exclusion is set, and the call returned at
    that point, where the cell iterator is left for the next call. *)
Theorem ball_next_yields_accepted_bond {E : Externals} (fuel : nat)
    (lc : LinkCell) (it it' : LinkCellQueryBallIterator.t) (b : NeighborBond) :
  LinkCellQueryBallIterator.next fuel lc it = Ok (Yield b, it') ->
  exists j pj,
    point_at lc j = Ok pj
    /\ b = NeighborBond3 (LinkCellQueryBallIterator.m_query_point_idx it) j
             (fsqrt (wrapped_rsq lc (LinkCellQueryBallIterator.m_query_point it) pj))
    /\ flt (wrapped_rsq lc (LinkCellQueryBallIterator.m_query_point it) pj)
           (fmul (LinkCellQueryBallIterator.m_r it) (LinkCellQueryBallIterator.m_r it))
       = true
    /\ (LinkCellQueryBallIterator.m_exclude_ii it = true ->
        point_idx b <> query_point_idx b)
    /\ LinkCellQueryBallIterator.m_cell_iter it' = j.
Proof.
  intros H. apply next_yield in H. destruct H as [(j & pj & Hp & Hb & Hlt & Hex) Hc].
  exists j, pj. repeat split; trivial.
  - subst b. exact Hex.
  - subst b. exact Hc.
Qed.

Lemma ball_next_yields_accepted_bond_witness :
  exists j pj,
    point_at grid2 j = Ok pj
    /\ NeighborBond3 0 2 (fz 1)
       = NeighborBond3 (LinkCellQueryBallIterator.m_query_point_idx (ball5_of_origin 1)) j
           (fsqrt (wrapped_rsq grid2
                     (LinkCellQueryBallIterator.m_query_point (ball5_of_origin 1)) pj))
    /\ flt (wrapped_rsq grid2
              (LinkCellQueryBallIterator.m_query_point (ball5_of_origin 1)) pj)
           (fmul (LinkCellQueryBallIterator.m_r (ball5_of_origin 1))
                 (LinkCellQueryBallIterator.m_r (ball5_of_origin 1)))
       = true
    /\ (LinkCellQueryBallIterator.m_exclude_ii (ball5_of_origin 1) = true ->
        point_idx (NeighborBond3 0 2 (fz 1)) <> query_point_idx (NeighborBond3 0 2 (fz 1)))
    /\ LinkCellQueryBallIterator.m_cell_iter ball5_after_first = j.
Proof.
  apply (ball_next_yields_accepted_bond (E := SampleExternals) 100 grid2
           (ball5_of_origin 1) ball5_after_first (NeighborBond3 0 2 (fz 1))).
  reflexivity.
Defined.

(** C4 (as amended).  For a box that is not the null box and a cell width
    that is not the cached request, [updateInternal] fails with
    InvalidCellWidth when twice the width exceeds the nearest-plane
    distance along x or along y, or along z in a box that is not 2D. *)
Theorem updateInternal_rejects_wide_cells {E : Externals} (lc : LinkCell)
    (box : Box) (cell_width : float) :
  fne cell_width (m_cell_width lc) || box_ne box (m_box lc) = true ->
  box_ne box null_box = true ->
  twice_exceeds cell_width (vx (getNearestPlaneDistance box)) = true
  \/ twice_exceeds cell_width (vy (getNearestPlaneDistance box)) = true
  \/ (is2D box = false
      /\ twice_exceeds cell_width (vz (getNearestPlaneDistance box)) = true) ->
  updateInternal lc box cell_width = Throw InvalidCellWidth.
Proof.
  intros Hg Hn Hs. apply updateInternal_too_small; trivial.
  unfold box_too_small. cbv zeta.
  destruct Hs as [->|[->|[-> ->]]].
  - reflexivity.
  - rewrite orb_true_r. reflexivity.
  - apply orb_true_r.
Qed.

Lemma updateInternal_rejects_wide_cells_witness :
  updateInternal (E := SampleExternals) (LinkCell_init (E := SampleExternals) cube10 []) cube10 (fz 6)
  = Throw InvalidCellWidth.
Proof.
  apply (updateInternal_rejects_wide_cells (E := SampleExternals)
           (LinkCell_init (E := SampleExternals) cube10 []) cube10 (fz 6)).
  - reflexivity.
  - reflexivity.
  - left. reflexivity.
Defined.

(** C4 as stated fails for a 2D box: the square box of sides 10 has no
    extent along z, twice the cell width 1 exceeds its nearest-plane
    distance along z, and the cell list is built all the same. *)
Lemma flat_box_z_distance_is_not_checked :
  box_ne (Externals := SampleExternals) square10 null_box = true
  /\ twice_exceeds (fz 1) (vz (getNearestPlaneDistance (Externals := SampleExternals) square10))
     = true
  /\ exists lc,
       LinkCell_of_points (E := SampleExternals) square10 (fz 1) [pt 0 0 0] 1 = Ok lc.
Proof.
  split; [reflexivity|]. split; [reflexivity|].
  eexists. run_lhs. reflexivity.
Qed.

(** C5 (as amended).  A k-nearest iterator driven from its initial state to
    exhaustion over a well-formed cell list yields at most k bonds and at
    most n_points bonds, no two of them to the same point; with
    self-exclusion set and the index of the query point among the indices
    of the points, it yields at most n_points - 1 bonds. *)
Theorem nearest_iterator_bond_count {E : Externals} (lc : LinkCell)
    (calls fuel : nat) (it it' : LinkCellQueryIterator.t) (bs : list NeighborBond) :
  cell_list_wf lc ->
  grid_closed lc ->
  fresh lc it ->
  0 <= LinkCellQueryIterator.m_num_neighbors it < 2 ^ 32 ->
  LinkCellQueryIterator.drain calls fuel lc it = Ok (bs, it') ->
  Z.of_nat (List.length bs) <= LinkCellQueryIterator.m_num_neighbors it
  /\ Z.of_nat (List.length bs) <= m_n_points lc
  /\ (LinkCellQueryIterator.m_exclude_ii it = true ->
      0 <= LinkCellQueryIterator.m_query_point_idx it < m_n_points lc ->
      Z.of_nat (List.length bs) <= m_n_points lc - 1)
  /\ NoDup (map point_idx bs).
Proof.
  intros Hwf Hcl Hfr Hk Hd.
  assert (Hc : LinkCellQueryIterator.m_count it = 0) by apply Hfr.
  assert (Hn : 0 <= m_n_points lc) by apply Hwf.
  pose proof (drain_inv lc fuel Hwf Hcl calls it it' bs (or_introl Hfr) Hd) as Hinv.
  destruct (search_inv_size lc it' Hinv Hn) as [Hs Hs'].
  destruct (drain_query fuel lc calls it it' bs Hd) as [He Hq].
  rewrite He, Hq in Hs'.
  assert (Hc0 : 0 <= LinkCellQueryIterator.m_count it) by lia.
  destruct (drain_count fuel lc calls it it' bs (proj2 Hk) Hc0 Hd) as (_ & _ & Hb).
  pose proof (drain_entries lc fuel calls it it' bs Hc0 (proj2 Hk) Hd) as Hbs.
  repeat split.
  - destruct Hb as [->|[Hb _]]; simpl; lia.
  - destruct Hb as [->|[_ Hb]]; simpl; lia.
  - intros Hex Hin. specialize (Hs' Hex Hin).
    destruct Hb as [->|[_ Hb]]; simpl; lia.
  - rewrite Hbs. apply NoDup_map_firstn_skipn. apply Hinv.
Qed.

Lemma nearest_iterator_bond_count_witness :
  Z.of_nat (List.length [NeighborBond3 0 1 (fsqrt (fz 48))])
    <= LinkCellQueryIterator.m_num_neighbors nearest_of_origin
  /\ Z.of_nat (List.length [NeighborBond3 0 1 (fsqrt (fz 48))]) <= m_n_points grid2
  /\ (LinkCellQueryIterator.m_exclude_ii nearest_of_origin = true ->
      0 <= LinkCellQueryIterator.m_query_point_idx nearest_of_origin < m_n_points grid2 ->
      Z.of_nat (List.length [NeighborBond3 0 1 (fsqrt (fz 48))]) <= m_n_points grid2 - 1)
  /\ NoDup (map point_idx [NeighborBond3 0 1 (fsqrt (fz 48))]).
Proof.
  apply (nearest_iterator_bond_count (E := SampleExternals) grid2 2 100
           nearest_of_origin nearest_of_origin_after).
  - exact grid2_wf.
  - exact grid2_closed.
  - exact nearest_of_origin_fresh.
  - simpl. lia.
  - reflexivity.
Defined.

(** C5 as stated fails for a query point that is not one of the points:
    with self-exclusion set and the query point numbered 5, the iterator
    over the three points yields three bonds, more than n_points - 1. *)
Lemma self_exclusion_of_foreign_index_excludes_nothing :
  LinkCellQueryIterator.m_exclude_ii nearest_of_foreign_point = true
  /\ m_n_points grid2 = 3
  /\ exists bs it',
       LinkCellQueryIterator.drain 4 100 grid2 nearest_of_foreign_point = Ok (bs, it')
       /\ List.length bs = 3%nat.
Proof.
  split; [reflexivity|]. split; [reflexivity|].
  eexists. eexists. split; [run_lhs; reflexivity|reflexivity].
Qed.







(** C9.  When the box and the cell width pass [updateBox], building the
    cell list of zero points fails with EmptyPointSet. *)
Theorem computeCellList_rejects_empty_point_set {E : Externals}
    (lc lc' : LinkCell) (box : Box) (points : list (vec3 float)) :
  updateBox lc box = Ok lc' ->
  computeCellList lc box points 0 = Throw EmptyPointSet.
Proof.
  intros H. exact (computeCellList_no_points lc lc' box points H).
Qed.

Lemma computeCellList_rejects_empty_point_set_witness :
  computeCellList (E := SampleExternals) grid2 cube10 [] 0 = Throw EmptyPointSet.
Proof.
  apply (computeCellList_rejects_empty_point_set (E := SampleExternals)
           grid2 grid2 cube10 []).
  reflexivity.
Defined.

(* ================================================================== *)
(** * Further properties of the code *)
(* ================================================================== *)

(** ** NeighborBond: the other comparators, equality and the setters *)

Lemma fne_false_key (a b : float) :
  is_nan a = false -> is_nan b = false ->
  (fne a b = false <-> key_eq (float_key a) (float_key b)).
Proof.
  intros Ha Hb. rewrite <- key_eq_iff, <- (feq_key a b Ha Hb).
  unfold fne, feq. destruct (SFeqb a b); simpl; split; congruence.
Qed.

Lemma less_id_ref_weight_key (a n : NeighborBond) :
  weight_ordered a -> weight_ordered n ->
  (less_id_ref_weight a n = true <-> ref_weight_key_lt a n).
Proof.
  intros Hwa Hwn. unfold less_id_ref_weight, ref_weight_key_lt.
  pose proof (flt_key _ _ Hwa Hwn) as Kw.
  destruct (Z.eqb_spec (query_point_idx a) (query_point_idx n)) as [Hq|Hq]; simpl.
  - destruct (Z.eqb_spec (point_idx a) (point_idx n)) as [Hp|Hp]; simpl.
    + rewrite Kw. split; [intros; right; split; trivial; right; split; trivial|].
      intros [?|[_ [?|[_ ?]]]]; trivial; lia.
    + rewrite Z.ltb_lt. split; [intros; right; split; trivial; left; trivial|].
      intros [?|[_ [?|[? _]]]]; trivial; lia.
  - rewrite Z.ltb_lt. split; [intros; left; trivial|]. intros [?|[? _]]; trivial; lia.
Qed.

Lemma less_id_ref_weight_false_key (a n : NeighborBond) :
  weight_ordered a -> weight_ordered n ->
  (less_id_ref_weight a n = false <-> ~ ref_weight_key_lt a n).
Proof.
  intros Ha Hn. rewrite <- (less_id_ref_weight_key a n Ha Hn).
  destruct (less_id_ref_weight a n); split; congruence.
Qed.

Lemma less_as_distance_key (a n : NeighborBond) :
  tuple_ordered a -> tuple_ordered n ->
  (less_as_distance a n = true <-> distance_key_lt a n).
Proof.
  intros [Hda Hwa] [Hdn Hwn]. unfold less_as_distance, distance_key_lt.
  pose proof (flt_key _ _ Hwa Hwn) as Kw.
  pose proof (flt_key _ _ Hda Hdn) as Kd.
  destruct (Z.eqb_spec (query_point_idx a) (query_point_idx n)) as [Hq|Hq]; simpl.
  - destruct (fne (distance a) (distance n)) eqn:Hd.
    + apply (fne_key _ _ Hda Hdn) in Hd. rewrite Kd.
      split; [intros; right; split; trivial; left; trivial|].
      intros [?|[_ [?|[? _]]]]; trivial; try lia; contradiction.
    + apply (fne_false_key _ _ Hda Hdn) in Hd.
      assert (Hnl : ~ key_lt (float_key (distance a)) (float_key (distance n))).
      { destruct (float_key (distance a)) as [[a1 a2] a3],
          (float_key (distance n)) as [[b1 b2] b3]; simpl in *; lia. }
      destruct (Z.eqb_spec (point_idx a) (point_idx n)) as [Hp|Hp]; simpl.
      * rewrite Kw.
        split; [intros; right; split; trivial; right; split; trivial;
                right; split; trivial|].
        intros [?|[_ [?|[_ [?|[_ ?]]]]]]; trivial; try lia; contradiction.
      * rewrite Z.ltb_lt.
        split; [intros; right; split; trivial; right; split; trivial; left; trivial|].
        intros [?|[_ [?|[_ [?|[? _]]]]]]; trivial; try lia; contradiction.
  - rewrite Z.ltb_lt. split; [intros; left; trivial|]. intros [?|[? _]]; trivial; lia.
Qed.

Lemma less_as_distance_false_key (a n : NeighborBond) :
  tuple_ordered a -> tuple_ordered n ->
  (less_as_distance a n = false <-> ~ distance_key_lt a n).
Proof.
  intros Ha Hn. rewrite <- (less_as_distance_key a n Ha Hn).
  destruct (less_as_distance a n); split; congruence.
Qed.

Lemma less_id_ref_weight_lex (a n : NeighborBond) :
  less_id_ref_weight a n = lex_ref_weight a n.
Proof.
  unfold less_id_ref_weight, lex_ref_weight.
  destruct (Z.eqb_spec (query_point_idx a) (query_point_idx n)) as [Hq|Hq]; simpl.
  - rewrite Hq, Z.ltb_irrefl; simpl.
    destruct (Z.eqb_spec (point_idx a) (point_idx n)) as [Hp|Hp]; simpl.
    + rewrite Hp, Z.ltb_irrefl; reflexivity.
    + rewrite orb_false_r; reflexivity.
  - rewrite orb_false_r; reflexivity.
Qed.

Lemma less_as_distance_lex (a n : NeighborBond) :
  less_as_distance a n = lex_distance a n.
Proof.
  unfold less_as_distance, lex_distance, fne.
  destruct (Z.eqb_spec (query_point_idx a) (query_point_idx n)) as [Hq|Hq]; simpl.
  - rewrite Hq, Z.ltb_irrefl; simpl.
    destruct (feq (distance a) (distance n)) eqn:Hd; unfold feq in Hd; rewrite Hd; simpl.
    + rewrite (feq_flt_false _ _ Hd); simpl.
      destruct (Z.eqb_spec (point_idx a) (point_idx n)) as [Hp|Hp]; simpl.
      * rewrite Hp, Z.ltb_irrefl; reflexivity.
      * rewrite orb_false_r; reflexivity.
    + rewrite orb_false_r; reflexivity.
  - rewrite orb_false_r; reflexivity.
Qed.

(** X1.  [less_id_ref_weight] is the lexicographic order on
    [(query_point_idx, point_idx, weight)], for all bonds; it is a strict
    weak ordering on the bonds whose weight is a number; and the distance
    of neither bond has a part in it. *)
Theorem less_id_ref_weight_strict_weak_order :
  (forall a n, less_id_ref_weight a n = lex_ref_weight a n)
  /\ strict_weak_order weight_ordered less_id_ref_weight
  /\ (forall a n d d',
        less_id_ref_weight (with_distance a d) (with_distance n d')
        = less_id_ref_weight a n).
Proof.
  split; [exact less_id_ref_weight_lex|]. split; [|reflexivity].
  unfold strict_weak_order. repeat split.
  - intros a Ha. apply less_id_ref_weight_false_key; trivial.
    unfold ref_weight_key_lt. open_keys; simpl; lia.
  - intros a b c Ha Hb Hc. rewrite !less_id_ref_weight_key by assumption.
    unfold ref_weight_key_lt. open_keys; simpl; lia.
  - revert H2 H3 H4 H5. rewrite !less_id_ref_weight_false_key by assumption.
    unfold ref_weight_key_lt. open_keys; simpl; lia.
  - revert H2 H3 H4 H5. rewrite !less_id_ref_weight_false_key by assumption.
    unfold ref_weight_key_lt. open_keys; simpl; lia.
Qed.

(** X2.  [less_as_distance] is the lexicographic order on
    [(query_point_idx, distance, point_idx, weight)], for all bonds; it is
    a strict weak ordering on the bonds whose distance and weight are
    numbers. *)
Theorem less_as_distance_strict_weak_order :
  (forall a n, less_as_distance a n = lex_distance a n)
  /\ strict_weak_order tuple_ordered less_as_distance.
Proof.
  split; [exact less_as_distance_lex|].
  unfold strict_weak_order. repeat split.
  - intros a Ha. apply less_as_distance_false_key; trivial.
    unfold distance_key_lt. open_keys; simpl; lia.
  - intros a b c Ha Hb Hc. rewrite !less_as_distance_key by assumption.
    unfold distance_key_lt. open_keys; simpl; lia.
  - revert H2 H3 H4 H5. rewrite !less_as_distance_false_key by assumption.
    unfold distance_key_lt. open_keys; simpl; lia.
  - revert H2 H3 H4 H5. rewrite !less_as_distance_false_key by assumption.
    unfold distance_key_lt. open_keys; simpl; lia.
Qed.

Lemma flt_fne (a b : float) : flt a b = true -> fne a b = true.
Proof.
  unfold flt, fne, SFltb, SFeqb. destruct (SFcompare a b) as [[]|]; simpl; congruence.
Qed.

Lemma flt_asym (a b : float) : flt a b = true -> flt b a = false.
Proof.
  intros H. destruct (flt b a) eqn:Hba; trivial.
  pose proof (flt_trans _ _ _ H Hba) as Haa. rewrite flt_irrefl in Haa. discriminate.
Qed.

Lemma fne_sym (a b : float) : fne a b = fne b a.
Proof.
  destruct (is_nan a) eqn:Ha; [destruct a; try discriminate; destruct b; reflexivity|].
  destruct (is_nan b) eqn:Hb; [destruct b; try discriminate; destruct a; reflexivity|].
  destruct (fne a b) eqn:H1, (fne b a) eqn:H2; trivial.
  - apply (fne_key _ _ Ha Hb) in H1. apply (fne_false_key _ _ Hb Ha) in H2.
    exfalso. apply H1. revert H2. open_keys. simpl. intuition congruence.
  - apply (fne_key _ _ Hb Ha) in H2. apply (fne_false_key _ _ Ha Hb) in H1.
    exfalso. apply H2. revert H1. open_keys. simpl. intuition congruence.
Qed.

(** X3.  [less_as_tuple] refines [less_id_ref_weight] on all bonds, NaN
    fields included: two bonds that [less_id_ref_weight] orders are ordered
    the same way by [less_as_tuple], and not the other way round. *)
Theorem less_as_tuple_refines_less_id_ref_weight (a n : NeighborBond) :
  less_id_ref_weight a n = true ->
  less_as_tuple a n = true /\ less_as_tuple n a = false.
Proof.
  unfold less_id_ref_weight, less_as_tuple.
  rewrite (Z.eqb_sym (query_point_idx n)), (Z.eqb_sym (point_idx n)).
  destruct (Z.eqb_spec (query_point_idx a) (query_point_idx n)) as [Hq|Hq]; simpl.
  - destruct (Z.eqb_spec (point_idx a) (point_idx n)) as [Hp|Hp]; simpl.
    + intros Hw. rewrite (fne_sym (weight n)), (flt_fne _ _ Hw), Hw.
      split; [reflexivity|]. apply flt_asym, Hw.
    + intros H. split; [exact H|]. apply Z.ltb_lt in H. apply Z.ltb_ge. lia.
  - intros H. split; [exact H|]. apply Z.ltb_lt in H. apply Z.ltb_ge. lia.
Qed.

Lemma less_as_tuple_refines_less_id_ref_weight_witness :
  less_as_tuple (bond_of_weight f_one) (bond_of_weight f_two) = true
  /\ less_as_tuple (bond_of_weight f_two) (bond_of_weight f_one) = false.
Proof.
  apply (less_as_tuple_refines_less_id_ref_weight
           (bond_of_weight f_one) (bond_of_weight f_two)).
  reflexivity.
Defined.

(** X4.  A bond whose distance is NaN is equal to no bond under
    [operator==], itself included, and [operator!=] holds of it and any
    bond. *)
Theorem bond_of_nan_distance_equals_nothing
    (vec3_eq : vec3 float -> vec3 float -> bool) (a b : NeighborBond) :
  is_nan (distance a) = true ->
  bond_eq vec3_eq a b = false
  /\ bond_eq vec3_eq b a = false
  /\ bond_eq vec3_eq a a = false
  /\ bond_ne vec3_eq a b = true.
Proof.
  intros Ha. destruct (distance a) eqn:Hd; try discriminate.
  assert (H1 : bond_eq vec3_eq a b = false).
  { unfold bond_eq. rewrite Hd. unfold feq. simpl.
    rewrite andb_false_r. reflexivity. }
  assert (H2 : bond_eq vec3_eq b a = false).
  { unfold bond_eq. rewrite Hd. unfold feq, SFeqb.
    destruct (distance b); simpl; rewrite andb_false_r; reflexivity. }
  assert (H3 : bond_eq vec3_eq a a = false).
  { unfold bond_eq. rewrite Hd. unfold feq. simpl.
    rewrite andb_false_r. reflexivity. }
  unfold bond_ne. rewrite H1. auto.
Qed.

Lemma bond_of_nan_distance_equals_nothing_witness :
  bond_eq vec3_feq (bond_at_distance S754_nan) (bond_at_distance f_one) = false
  /\ bond_eq vec3_feq (bond_at_distance f_one) (bond_at_distance S754_nan) = false
  /\ bond_eq vec3_feq (bond_at_distance S754_nan) (bond_at_distance S754_nan) = false
  /\ bond_ne vec3_feq (bond_at_distance S754_nan) (bond_at_distance f_one) = true.
Proof.
  apply (bond_of_nan_distance_equals_nothing vec3_feq
           (bond_at_distance S754_nan) (bond_at_distance f_one)).
  reflexivity.
Defined.

(** The result of rounding with a positive sign is never below zero. *)
Lemma binary_round_aux_not_negative (mx ex : Z) (lx : location) :
  SFltb (binary_round_aux prec32 emax32 false mx ex lx) (S754_zero false) = false.
Proof.
  unfold binary_round_aux.
  destruct (shr_fexp prec32 emax32 mx ex lx) as [mrs' e'].
  destruct (shr_fexp prec32 emax32 _ e' loc_Exact) as [mrs'' e''].
  destruct (shr_m mrs''); try reflexivity.
  destruct (e'' <=? emax32 - prec32); reflexivity.
Qed.

Lemma fsqrt_not_negative (x : float) : flt (fsqrt x) f_zero = false.
Proof.
  unfold flt, fsqrt, f_zero, SFsqrt.
  destruct x as [s|s| |s m e]; try reflexivity.
  - destruct s; reflexivity.
  - destruct s; [reflexivity|].
    destruct (SFsqrt_core_binary prec32 emax32 (Z.pos m) e) as [[mz ez] lz].
    apply binary_round_aux_not_negative.
Qed.

(** X5.  [setVector] stores the vector and recomputes the distance as the
    square root of its squared length, whatever [dot] gives: the distance it
    leaves is never below zero (it is zero, positive or NaN), and the
    indices and the weight are kept. *)
Theorem setVector_distance_not_negative
    (dot : vec3 float -> vec3 float -> float) (b : NeighborBond) (v : vec3 float) :
  flt (getDistance (setVector dot b v)) f_zero = false
  /\ getVector (setVector dot b v) = v
  /\ getDistance (setVector dot b v) = fsqrt (dot (getVector (setVector dot b v))
                                                  (getVector (setVector dot b v)))
  /\ getQueryPointIdx (setVector dot b v) = getQueryPointIdx b
  /\ getPointIdx (setVector dot b v) = getPointIdx b
  /\ getWeight (setVector dot b v) = getWeight b.
Proof.
  split; [apply fsqrt_not_negative|]. repeat split.
Qed.

(** ** Building the grid and the cell list *)

Section GridProperties.
Context {E : Externals}.

Lemma computeDimensions_nonzero (box : Box) (cell_width : float) :
  vx (computeDimensions box cell_width) <> 0
  /\ vy (computeDimensions box cell_width) <> 0
  /\ vz (computeDimensions box cell_width) <> 0.
Proof.
  unfold computeDimensions. cbn [vx vy vz].
  repeat split.
  - destruct (Z.eqb_spec (float_to_uint (fdiv (vx (getNearestPlaneDistance box)) cell_width)) 0);
      [discriminate|assumption].
  - destruct (Z.eqb_spec (float_to_uint (fdiv (vy (getNearestPlaneDistance box)) cell_width)) 0);
      [discriminate|assumption].
  - destruct (is2D box); [discriminate|].
    destruct (Z.eqb_spec (float_to_uint (fdiv (vz (getNearestPlaneDistance box)) cell_width)) 0);
      [discriminate|assumption].
Qed.

Lemma computeDimensions_2D (box : Box) (cell_width : float) :
  is2D box = true -> vz (computeDimensions box cell_width) = 1.
Proof.
  intros H. unfold computeDimensions. cbn [vz]. rewrite H. reflexivity.
Qed.

(** The dimensions [updateInternal] takes are those [computeDimensions]
    gives: its own 2D case sets a depth that is 1 already. *)
Lemma updateInternal_celldim (box : Box) (cell_width : float) :
  (if is2D box
   then mk_vec3 (vx (computeDimensions box cell_width))
                (vy (computeDimensions box cell_width)) 1
   else computeDimensions box cell_width)
  = computeDimensions box cell_width.
Proof.
  destruct (is2D box) eqn:H2; [|reflexivity].
  rewrite <- (computeDimensions_2D box cell_width H2). apply vec3_eta.
Qed.

Lemma updateInternal_outcome (lc : LinkCell) (box : Box) (cell_width : float) :
  (exists lc', updateInternal lc box cell_width = Ok lc')
  \/ updateInternal lc box cell_width = Throw InvalidCellWidth
  \/ updateInternal lc box cell_width = Throw NoCells.
Proof.
  unfold updateInternal.
  destruct (fne cell_width (m_cell_width lc) || box_ne box (m_box lc)); [|eauto].
  destruct (box_ne box null_box); [destruct (box_too_small box cell_width)|];
    cbn [bind]; auto;
    destruct (negb _); cbn [bind]; eauto;
    destruct (getNumElements _ <? 1); cbn [bind]; eauto.
Qed.

Lemma updateInternal_changed (lc lc' : LinkCell) (box : Box) (cell_width : float) :
  grid_built lc \/ m_celldim lc = mk_vec3 0 0 0 ->
  fne cell_width (m_cell_width lc) || box_ne box (m_box lc) = true ->
  updateInternal lc box cell_width = Ok lc' ->
  grid_built lc'
  /\ m_box lc' = box
  /\ m_cell_width lc' = cell_width
  /\ m_celldim lc' = computeDimensions box cell_width
  /\ (box_ne box null_box = true -> box_too_small box cell_width = false).
Proof.
  intros Hst Hg H. unfold updateInternal in H. rewrite Hg in H.
  apply bind_Ok in H. destruct H as (celldim & Hdim & H).
  apply bind_Ok in H. destruct H as (lc1 & Hlc1 & H).
  inversion H; subst lc'; clear H.
  assert (Hd : celldim = computeDimensions box cell_width
               /\ (box_ne box null_box = true -> box_too_small box cell_width = false)).
  { destruct (box_ne box null_box).
    - destruct (box_too_small box cell_width); [discriminate|].
      split; [|reflexivity].
      rewrite <- (updateInternal_celldim box cell_width). congruence.
    - split; [congruence|discriminate]. }
  destruct Hd as [-> Hsmall].
  destruct (computeDimensions_nonzero box cell_width) as (Hx & Hy & Hz).
  destruct (negb _) eqn:Hcmp in Hlc1.
  - destruct (Z.ltb_spec (getNumElements (mkIndex3D (vx (computeDimensions box cell_width))
                                                     (vy (computeDimensions box cell_width))
                                                     (vz (computeDimensions box cell_width)))) 1)
      as [Hlt|Hge]; [discriminate|].
    inversion Hlc1; subst lc1.
    unfold grid_built, getNumCells.
    cbn [set_cell_width set_cells set_box m_box m_cell_width m_celldim m_cell_index].
    repeat split; trivial.
  - inversion Hlc1; subst lc1.
    apply negb_false_iff in Hcmp. cbn [set_box m_celldim] in Hcmp.
    apply andb_prop in Hcmp. destruct Hcmp as [Hxy Hz'].
    apply andb_prop in Hxy. destruct Hxy as [Hx' Hy'].
    apply Z.eqb_eq in Hx', Hy', Hz'.
    assert (Hsame : m_celldim lc = computeDimensions box cell_width).
    { destruct (m_celldim lc) as [cx cy cz]. cbn [vx vy vz] in Hx', Hy', Hz'.
      subst cx cy cz. apply vec3_eta. }
    destruct Hst as [(Hix & Hnum & _)|Hzero].
    + unfold grid_built, getNumCells in *.
      cbn [set_cell_width set_box m_box m_cell_width m_celldim m_cell_index].
      split; [|repeat split; trivial].
      split; [exact Hix|]. split; [exact Hnum|]. rewrite Hsame. auto.
    + exfalso. rewrite Hzero in Hsame. rewrite <- Hsame in Hx. apply Hx. reflexivity.
Qed.

End GridProperties.



(** X7.  [updateInternal] is idempotent: after a call that succeeded, the
    same call again succeeds and changes nothing, for a width that is a
    number and a box that [operator!=] does not tell from itself. *)
Theorem updateInternal_idempotent {E : Externals} (lc lc' : LinkCell)
    (box : Box) (cell_width : float) :
  fne cell_width cell_width = false ->
  box_ne box box = false ->
  updateInternal lc box cell_width = Ok lc' ->
  updateInternal lc' box cell_width = Ok lc'.
Proof.
  intros Hw Hb H.
  destruct (updateInternal_Ok _ _ _ _ H) as [[Hg ->]|(Hbox & Hwidth & _)].
  - unfold updateInternal. rewrite Hg. reflexivity.
  - unfold updateInternal. rewrite Hbox, Hwidth, Hw, Hb. reflexivity.
Qed.

Lemma updateInternal_idempotent_witness :
  updateInternal (E := SampleExternals) cube10_cells cube10 (fz 5) = Ok cube10_cells.
Proof.
  apply (updateInternal_idempotent (E := SampleExternals)
           (LinkCell_init (E := SampleExternals) cube10 []) cube10_cells cube10 (fz 5)).
  - reflexivity.
  - reflexivity.
  - reflexivity.
Defined.


(** ** The members of a cell *)

Section CellMembers.
Context {E : Externals}.

Lemma indices_from_nil (n : Z) : indices_from n n = [].
Proof. unfold indices_from. rewrite Z.sub_diag. reflexivity. Qed.

Lemma indices_from_cons (m n : Z) :
  m < n -> indices_from m n = m :: indices_from (m + 1) n.
Proof.
  intros H. unfold indices_from.
  replace (Z.to_nat (n - m)) with (S (Z.to_nat (n - (m + 1)))) by lia.
  cbn [seq map]. f_equal; [lia|].
  rewrite <- seq_shift, map_map. apply map_ext. intros k. lia.
Qed.

Lemma indices_from_In (m n x : Z) : In x (indices_from m n) <-> m <= x < n.
Proof.
  unfold indices_from. rewrite in_map_iff. split.
  - intros (k & <- & Hk). apply in_seq in Hk. lia.
  - intros H. exists (Z.to_nat (x - m)). split; [lia|]. apply in_seq. lia.
Qed.

Lemma indices_from_sorted (m n : Z) : StronglySorted Z.lt (indices_from m n).
Proof.
  remember (Z.to_nat (n - m)) as k eqn:Hk. revert m Hk.
  induction k as [|k IH]; intros m Hk.
  - unfold indices_from. rewrite <- Hk. constructor.
  - rewrite indices_from_cons by lia. constructor.
    + apply IH. lia.
    + apply Forall_forall. intros x Hx. apply indices_from_In in Hx. lia.
Qed.

Lemma filter_sorted (f : Z -> bool) (l : list Z) :
  StronglySorted Z.lt l -> StronglySorted Z.lt (filter f l).
Proof.
  induction 1 as [|a l Hs IH Ha]; simpl; [constructor|].
  destruct (f a); [|exact IH].
  constructor; [exact IH|].
  apply Forall_forall. intros x Hx. apply filter_In in Hx.
  rewrite Forall_forall in Ha. apply Ha, Hx.
Qed.

Lemma chain_move (l l' : list Z) (xs : list Z) :
  forall cur cur',
    chain l cur xs ->
    read l' cur' = read l cur ->
    (forall x, In x xs -> read l' x = read l x) ->
    chain l' cur' xs.
Proof.
  induction xs as [|x xs IH]; intros cur cur' Hc Hr Hxs; simpl in *.
  - congruence.
  - destruct Hc as (Hrd & Hne & Hc). split; [congruence|]. split; [exact Hne|].
    apply (IH x x); auto.
Qed.

Lemma cell_in_of (lc : LinkCell) (points : list (vec3 float)) (c i : Z) (p : vec3 float) :
  read points i = Some p ->
  cell_in lc points c i = (getCell (m_box lc) (m_cell_index lc) p =? c).
Proof. intros H. unfold cell_in. rewrite H. reflexivity. Qed.

Lemma fill_cells_chain (lc : LinkCell) (points : list (vec3 float)) (n Nc : Z) :
  forall (todo : nat) (l l' : list Z),
    Z.of_nat todo <= n -> 0 <= Nc -> n + Nc < 2 ^ 32 ->
    ~ (0 <= LINK_CELL_TERMINATOR < n) ->
    cells_in_grid (m_box lc) (m_cell_index lc) points = true ->
    Nc = getNumElements (m_cell_index lc) ->
    chained_from lc points n Nc (Z.of_nat todo) l ->
    fill_cells todo lc points n l = Ok l' ->
    chained_from lc points n Nc 0 l'.
Proof.
  induction todo as [|todo IH]; intros l l' Htodo HNc Hb Hterm Hgrid HNcE Hinv; simpl.
  - intros H; inversion H; subst. exact Hinv.
  - intros H. apply bind_Ok in H. destruct H as (p & Hp & H).
    apply of_option_Ok in Hp.
    apply bind_Ok in H. destruct H as (head & Hhead & H).
    apply of_option_Ok in Hhead.
    apply bind_Ok in H. destruct H as (l1 & Hw1 & H).
    apply of_option_Ok in Hw1.
    apply bind_Ok in H. destruct H as (l2 & Hw2 & H).
    apply of_option_Ok in Hw2.
    set (i := Z.of_nat todo) in *.
    set (cell := getCell (m_box lc) (m_cell_index lc) p) in *.
    assert (Hcell : 0 <= cell < Nc).
    { unfold cells_in_grid in Hgrid. rewrite forallb_forall in Hgrid.
      assert (Hin : In p points).
      { pose proof (read_Some _ _ _ Hp) as Hpb.
        rewrite read_eq in Hp by lia. eapply nth_error_In; eauto. }
      specialize (Hgrid p Hin). apply andb_prop in Hgrid.
      destruct Hgrid as [H1 H2]. apply Z.leb_le in H1. apply Z.ltb_lt in H2.
      subst cell Nc. lia. }
    rewrite u32_small in Hhead, Hw2 by lia.
    apply write_Some in Hw1. destruct Hw1 as (Hi1 & Hlen1 & Hrd1 & Hoth1).
    apply write_Some in Hw2. destruct Hw2 as (Hi2 & Hlen2 & Hrd2 & Hoth2).
    assert (Hi : Z.of_nat (S todo) = i + 1) by lia.
    rewrite Hi in *.
    apply (IH l2 l'); trivial; try lia.
    intros c Hc. fold i. rewrite indices_from_cons by lia.
    cbn [filter]. rewrite (cell_in_of lc points c i p Hp). fold cell.
    assert (Hrest : forall x, In x (filter (cell_in lc points c) (indices_from (i + 1) n)) ->
                              read l2 x = read l x).
    { intros x Hx. apply filter_In in Hx. destruct Hx as [Hx _].
      apply indices_from_In in Hx.
      rewrite Hoth2 by lia. apply Hoth1. lia. }
    destruct (Z.eqb_spec cell c) as [Hcc|Hcc].
    + subst c. cbn [chain]. split; [exact Hrd2|]. split; [intros Ht; apply Hterm; lia|].
      apply (chain_move l l2 _ (n + cell) i); trivial.
      * apply Hinv. exact Hcell.
      * rewrite Hoth2 by lia. congruence.
    + apply (chain_move l l2 _ (n + c) (n + c)); trivial.
      * apply Hinv. exact Hc.
      * rewrite Hoth2 by lia. apply Hoth1. lia.
Qed.

Lemma cell_members_chain (lc : LinkCell) (xs : list Z) :
  forall (fuel : nat) (cur : Z),
    chain (m_cell_list lc) cur xs ->
    (List.length xs < fuel)%nat ->
    cell_members fuel lc cur = Ok xs.
Proof.
  induction xs as [|x xs IH]; intros fuel cur Hc Hf.
  - destruct fuel as [|fuel]; [simpl in Hf; lia|].
    simpl in *. unfold cell_next. rewrite Hc. cbn [of_option bind].
    unfold atEnd. rewrite Z.eqb_refl. reflexivity.
  - destruct fuel as [|fuel]; [simpl in Hf; lia|].
    simpl in Hc. destruct Hc as (Hrd & Hne & Hc).
    cbn [cell_members]. unfold cell_next. rewrite Hrd. cbn [of_option bind].
    unfold atEnd. destruct (Z.eqb_spec x LINK_CELL_TERMINATOR) as [He|_]; [contradiction|].
    rewrite (IH fuel x Hc) by (simpl in Hf; lia). reflexivity.
Qed.

Lemma filter_length_le {A : Type} (f : A -> bool) (l : list A) :
  (List.length (filter f l) <= List.length l)%nat.
Proof.
  induction l as [|a l IH]; simpl; [lia|]. destruct (f a); simpl; lia.
Qed.

Lemma indices_from_length (m n : Z) : List.length (indices_from m n) = Z.to_nat (n - m).
Proof. unfold indices_from. rewrite length_map, length_seq. reflexivity. Qed.

(** The cell list [computeCellList] leaves links, from the head of every
    cell, the points of the cell by increasing index. *)
Lemma computeCellList_chained (lc0 lc1 lc : LinkCell) (box : Box)
    (points : list (vec3 float)) (n : Z) :
  updateBox lc0 box = Ok lc1 ->
  computeCellList lc0 box points n = Ok lc ->
  0 < n <= 2 ^ 31 ->
  n <= Z.of_nat (List.length points) ->
  0 <= getNumCells lc1 -> n + getNumCells lc1 < 2 ^ 32 ->
  (m_n_points lc1 = n -> m_Nc lc1 = getNumCells lc1 ->
   Z.of_nat (List.length (m_cell_list lc1)) = n + getNumCells lc1) ->
  cells_in_grid (m_box lc1) (m_cell_index lc1) points = true ->
  ~ (0 <= LINK_CELL_TERMINATOR < n) ->
  forall c, 0 <= c < getNumCells lc1 ->
    chain (m_cell_list lc) (n + c) (points_of_cell lc c).
Proof.
  intros Hupd H Hn Hpts HNc Hb Hcached Hgrid Hterm.
  unfold computeCellList in H. rewrite Hupd in H. cbn [bind] in H.
  destruct (Z.eqb_spec n 0) as [->|_]; [lia|].
  apply bind_Ok in H. destruct H as (l1 & Hinit & H).
  apply bind_Ok in H. destruct H as (l2 & Hfill & H).
  inversion H; subst lc; clear H.
  set (Nc := getNumCells lc1) in *.
  set (l0 := if negb (m_n_points lc1 =? n) || negb (m_Nc lc1 =? Nc)
             then repeat 0 (Z.to_nat (u32 (n + Nc)))
             else m_cell_list lc1) in *.
  assert (Hl0 : Z.of_nat (List.length l0) = n + Nc).
  { subst l0. destruct (Z.eqb_spec (m_n_points lc1) n) as [He1|He1];
      destruct (Z.eqb_spec (m_Nc lc1) Nc) as [He2|He2]; simpl;
      try (rewrite repeat_length, u32_small by lia; lia).
    apply Hcached; assumption. }
  apply init_heads_spec in Hinit; try lia.
  destruct Hinit as (Hlen1 & Hheads1 & _).
  rewrite Z2Nat.id in Hheads1 by lia.
  assert (Htodo : Z.to_nat (s32 (u32 (n - 1)) + 1) = Z.to_nat n).
  { rewrite u32_small by lia. rewrite s32_small by lia. f_equal. lia. }
  rewrite Htodo in Hfill.
  intros c Hc. unfold points_of_cell.
  cbn [set_cell_list m_cell_list m_points m_n_points].
  change (cell_in (set_cell_list lc1 n Nc l2 points) points c)
    with (cell_in lc1 points c).
  refine (fill_cells_chain lc1 points n Nc (Z.to_nat n) l1 l2 _ HNc Hb Hterm Hgrid
            eq_refl _ Hfill c Hc); [lia|].
  rewrite Z2Nat.id by lia.
  intros c' Hc'. rewrite indices_from_nil. cbn [filter chain].
  apply Hheads1. lia.
Qed.

Lemma feq_refl_right (a b : float) : feq a b = true -> fne b b = false.
Proof.
  unfold feq, fne, SFeqb.
  destruct a as [sa|sa| |sa ma ea], b as [sb|sb| |sb mb eb]; simpl;
    try discriminate; intros _; try (destruct sb); try reflexivity;
    rewrite Z.compare_refl, Pos.compare_cont_refl; reflexivity.
Qed.

Lemma LinkCell_eta (lc : LinkCell) :
  mkLinkCell (m_box lc) (m_n_points lc) (m_cell_width lc) (m_celldim lc)
             (m_cell_index lc) (m_cell_list lc) (m_Nc lc) (m_points lc) = lc.
Proof. destruct lc; reflexivity. Qed.

(** [updateBox] with the box of an object that an update has just left
    changes nothing. *)
Lemma updateBox_after_update (lc lc1 : LinkCell) (box : Box) (cell_width : float) :
  updateInternal lc box cell_width = Ok lc1 ->
  updateBox lc1 box = Ok lc1.
Proof.
  intros H. unfold updateBox.
  destruct (updateInternal_Ok _ _ _ _ H) as [[Hg ->]|(Hbox & Hwidth & Hs & Hd)].
  - apply orb_false_elim in Hg. destruct Hg as [Hw Hb].
    unfold updateInternal. rewrite Hb.
    unfold fne in Hw. apply negb_false_iff in Hw.
    rewrite (feq_refl_right _ _ Hw). reflexivity.
  - unfold updateInternal.
    destruct (fne (m_cell_width lc1) (m_cell_width lc1) || box_ne box (m_box lc1));
      [|reflexivity].
    rewrite Hwidth.
    assert (Hdim : (if box_ne box null_box
                    then if box_too_small box cell_width then Throw InvalidCellWidth
                         else Ok (if is2D box
                                  then mk_vec3 (vx (computeDimensions box cell_width))
                                               (vy (computeDimensions box cell_width)) 1
                                  else computeDimensions box cell_width)
                    else Ok (computeDimensions box cell_width))
                   = Ok (m_celldim lc1)).
    { rewrite Hd. destruct (box_ne box null_box); simpl.
      - rewrite Hs by reflexivity. reflexivity.
      - reflexivity. }
    rewrite Hdim. cbn [bind set_box m_celldim]. rewrite !Z.eqb_refl. cbn [andb negb bind].
    f_equal. unfold set_cell_width, set_box.
    cbn [m_box m_n_points m_cell_width m_celldim m_cell_index m_cell_list m_Nc m_points].
    rewrite <- Hbox at 1. rewrite <- Hwidth. apply LinkCell_eta.
Qed.

Lemma init_heads_total (todo : nat) (n : Z) :
  forall (cell : Z) (l : list Z),
    0 <= n -> 0 <= cell ->
    n + cell + Z.of_nat todo <= Z.of_nat (List.length l) ->
    n + cell + Z.of_nat todo < 2 ^ 32 ->
    exists l', init_heads todo n cell l = Ok l'.
Proof.
  induction todo as [|todo IH]; intros cell l Hn Hc Hlen Hb; simpl.
  - eauto.
  - rewrite u32_small by lia.
    destruct (write_in_bounds l (n + cell) LINK_CELL_TERMINATOR) as [l1 Hw]; [lia|].
    rewrite Hw. cbn [of_option bind]. rewrite u32_small by lia.
    apply write_Some in Hw. destruct Hw as (_ & Hlen1 & _).
    apply IH; try lia.
Qed.

Lemma fill_cells_total (lc : LinkCell) (points : list (vec3 float)) (n Nc : Z) :
  forall (todo : nat) (l : list Z),
    Z.of_nat todo <= n -> n <= Z.of_nat (List.length points) ->
    0 <= Nc -> n + Nc < 2 ^ 32 ->
    cells_in_grid (m_box lc) (m_cell_index lc) points = true ->
    Nc = getNumElements (m_cell_index lc) ->
    Z.of_nat (List.length l) = n + Nc ->
    exists l', fill_cells todo lc points n l = Ok l'.
Proof.
  induction todo as [|todo IH]; intros l Htodo Hpts HNc Hb Hgrid HNcE Hlen; simpl.
  - eauto.
  - destruct (read_in_bounds points (Z.of_nat todo)) as [p Hp]; [lia|].
    rewrite Hp. cbn [of_option bind].
    set (cell := getCell (m_box lc) (m_cell_index lc) p).
    assert (Hcell : 0 <= cell < Nc).
    { unfold cells_in_grid in Hgrid. rewrite forallb_forall in Hgrid.
      assert (Hin : In p points).
      { rewrite read_eq in Hp by lia. eapply nth_error_In; eauto. }
      specialize (Hgrid p Hin). apply andb_prop in Hgrid.
      destruct Hgrid as [H1 H2]. apply Z.leb_le in H1. apply Z.ltb_lt in H2.
      subst cell Nc. lia. }
    rewrite u32_small by lia.
    destruct (read_in_bounds l (n + cell)) as [head Hhead]; [lia|].
    rewrite Hhead. cbn [of_option bind].
    destruct (write_in_bounds l (Z.of_nat todo) head) as [l1 Hw1]; [lia|].
    rewrite Hw1. cbn [of_option bind].
    apply write_Some in Hw1. destruct Hw1 as (_ & Hlen1 & _).
    destruct (write_in_bounds l1 (n + cell) (Z.of_nat todo)) as [l2 Hw2]; [lia|].
    rewrite Hw2. cbn [of_option bind].
    apply write_Some in Hw2. destruct Hw2 as (_ & Hlen2 & _).
    apply IH; trivial; lia.
Qed.

Lemma computeCellList_total (lc0 lc1 : LinkCell) (box : Box)
    (points : list (vec3 float)) (n : Z) :
  updateBox lc0 box = Ok lc1 ->
  0 < n <= 2 ^ 31 ->
  n <= Z.of_nat (List.length points) ->
  0 <= getNumCells lc1 -> n + getNumCells lc1 < 2 ^ 32 ->
  (m_n_points lc1 = n -> m_Nc lc1 = getNumCells lc1 ->
   Z.of_nat (List.length (m_cell_list lc1)) = n + getNumCells lc1) ->
  cells_in_grid (m_box lc1) (m_cell_index lc1) points = true ->
  exists lc, computeCellList lc0 box points n = Ok lc.
Proof.
  intros Hupd Hn Hpts HNc Hb Hcached Hgrid.
  unfold computeCellList. rewrite Hupd. cbn [bind].
  destruct (Z.eqb_spec n 0) as [->|_]; [lia|].
  set (Nc := getNumCells lc1) in *.
  set (l0 := if negb (m_n_points lc1 =? n) || negb (m_Nc lc1 =? Nc)
             then repeat 0 (Z.to_nat (u32 (n + Nc)))
             else m_cell_list lc1) in *.
  assert (Hl0 : Z.of_nat (List.length l0) = n + Nc).
  { subst l0. destruct (Z.eqb_spec (m_n_points lc1) n) as [He1|He1];
      destruct (Z.eqb_spec (m_Nc lc1) Nc) as [He2|He2]; simpl;
      try (rewrite repeat_length, u32_small by lia; lia).
    apply Hcached; assumption. }
  destruct (init_heads_total (Z.to_nat Nc) n 0 l0) as [l1 Hinit]; try lia.
  rewrite Hinit. cbn [bind].
  apply init_heads_spec in Hinit; try lia. destruct Hinit as (Hlen1 & _).
  assert (Htodo : Z.to_nat (s32 (u32 (n - 1)) + 1) = Z.to_nat n).
  { rewrite u32_small by lia. rewrite s32_small by lia. f_equal. lia. }
  rewrite Htodo.
  destruct (fill_cells_total lc1 points n Nc (Z.to_nat n) l1) as [l2 Hfill];
    trivial; try lia.
  rewrite Hfill. cbn [bind]. eauto.
Qed.

End CellMembers.

(** X9.  The constructor from points stays inside its arrays: once the
    grid is set, for a count of points that is positive, at most 2^31 (so
    that [n_points - 1] is the value of the [int] the filing loop counts
    down from), at most the length of the array and small enough for the
    cell list to be indexed by an unsigned int, and points that [getCell]
    all puts in the grid, it returns an object with a well-formed cell list
    of [n_points + Nc] entries. *)
Theorem LinkCell_of_points_builds {E : Externals} (box : Box) (cell_width : float)
    (points : list (vec3 float)) (n : Z) (lc1 : LinkCell) :
  updateInternal (LinkCell_init box points) box cell_width = Ok lc1 ->
  0 < n <= 2 ^ 31 ->
  n <= Z.of_nat (List.length points) ->
  0 <= getNumCells lc1 -> n + getNumCells lc1 < 2 ^ 32 ->
  cells_in_grid (m_box lc1) (m_cell_index lc1) points = true ->
  exists lc,
    LinkCell_of_points box cell_width points n = Ok lc
    /\ cell_list_wf lc
    /\ m_n_points lc = n /\ m_Nc lc = getNumCells lc1 /\ m_points lc = points
    /\ m_box lc = m_box lc1 /\ m_cell_index lc = m_cell_index lc1
    /\ m_cell_width lc = m_cell_width lc1
    /\ Z.of_nat (List.length (m_cell_list lc)) = n + getNumCells lc1.
Proof.
  intros H1 Hn Hpts HNc Hb Hgrid.
  pose proof (updateBox_after_update _ _ _ _ H1) as H2.
  pose proof (updateInternal_frame _ _ _ _ H1) as (Hn1 & _).
  cbn [LinkCell_init m_n_points] in Hn1.
  assert (Hcached : m_n_points lc1 = n -> m_Nc lc1 = getNumCells lc1 ->
                    Z.of_nat (List.length (m_cell_list lc1)) = n + getNumCells lc1) by lia.
  destruct (computeCellList_total lc1 lc1 box points n H2 Hn Hpts HNc Hb Hcached Hgrid)
    as [lc Hcc].
  exists lc. unfold LinkCell_of_points. rewrite H1. cbn [bind].
  split; [exact Hcc|].
  destruct (computeCellList_wf lc1 lc1 lc box points n H2 Hcc Hn Hpts HNc Hb Hcached Hgrid)
    as (Hwf & Hbx & Hix & Hcw & Hnp & HNc' & Hp).
  pose proof Hwf as (_ & _ & _ & Hlen & _). cbv zeta in Hlen.
  rewrite Hnp, HNc' in Hlen.
  split; [exact Hwf|]. split; [exact Hnp|]. split; [exact HNc'|]. split; [exact Hp|].
  split; [exact Hbx|]. split; [exact Hix|]. split; [exact Hcw|exact Hlen].
Qed.

Lemma LinkCell_of_points_builds_witness :
  exists lc,
    LinkCell_of_points (E := SampleExternals) cube10 (fz 5) three_points 3 = Ok lc
    /\ cell_list_wf lc
    /\ m_n_points lc = 3 /\ m_Nc lc = getNumCells three_points_cells
    /\ m_points lc = three_points
    /\ m_box lc = m_box three_points_cells /\ m_cell_index lc = m_cell_index three_points_cells
    /\ m_cell_width lc = m_cell_width three_points_cells
    /\ Z.of_nat (List.length (m_cell_list lc)) = 3 + getNumCells three_points_cells.
Proof.
  apply (LinkCell_of_points_builds (E := SampleExternals) cube10 (fz 5) three_points 3
           three_points_cells).
  - reflexivity.
  - lia.
  - apply Z.leb_le. reflexivity.
  - apply Z.leb_le. reflexivity.
  - apply Z.ltb_lt. reflexivity.
  - reflexivity.
Defined.

(** X10.  In the cell list the constructor builds of a positive number of
    points, at most 2^31 (so that [n_points - 1] is the value of the [int]
    the filing loop counts down from), the iterator of a cell visits
    exactly the points that [getCell] puts in that cell, each once and by
    increasing index, and then reaches its end; the terminator must not be
    the index of a point. *)
Theorem cell_iterator_visits_the_points_of_the_cell {E : Externals} (box : Box)
    (cell_width : float) (points : list (vec3 float)) (n : Z) (lc : LinkCell) (c : Z) :
  LinkCell_of_points box cell_width points n = Ok lc ->
  0 < n <= 2 ^ 31 ->
  n <= Z.of_nat (List.length points) ->
  0 <= getNumCells lc -> n + getNumCells lc < 2 ^ 32 ->
  cells_in_grid (m_box lc) (m_cell_index lc) points = true ->
  ~ (0 <= LINK_CELL_TERMINATOR < n) ->
  0 <= c < getNumCells lc ->
  cell_members (S (Z.to_nat n)) lc (itercell lc c) = Ok (points_of_cell lc c)
  /\ (forall i, In i (points_of_cell lc c) <->
                0 <= i < n /\ cell_of lc i = Some c)
  /\ StronglySorted Z.lt (points_of_cell lc c).
Proof.
  unfold LinkCell_of_points. intros H Hn Hlen HNc Hb Hgrid Hterm Hc.
  apply bind_Ok in H. destruct H as (lc1 & H1 & Hcc).
  pose proof (updateBox_after_update _ _ _ _ H1) as H2.
  pose proof (updateInternal_frame _ _ _ _ H1) as (Hn1 & _).
  cbn [LinkCell_init m_n_points] in Hn1.
  assert (Hcached : m_n_points lc1 = n -> m_Nc lc1 = getNumCells lc1 ->
                    Z.of_nat (List.length (m_cell_list lc1)) = n + getNumCells lc1) by lia.
  assert (Hsame : m_box lc = m_box lc1 /\ m_cell_index lc = m_cell_index lc1
                  /\ m_n_points lc = n /\ m_points lc = points).
  { pose proof Hcc as Hcc'. unfold computeCellList in Hcc'. rewrite H2 in Hcc'.
    cbn [bind] in Hcc'. destruct (n =? 0); [discriminate|].
    apply bind_Ok in Hcc'. destruct Hcc' as (l1 & _ & Hcc').
    apply bind_Ok in Hcc'. destruct Hcc' as (l2 & _ & Hcc').
    inversion Hcc'; subst lc. repeat split. }
  destruct Hsame as (Hbx & Hix & Hnp & Hp).
  unfold getNumCells in *. rewrite Hix in HNc, Hb, Hc. rewrite Hbx, Hix in Hgrid.
  pose proof (computeCellList_chained lc1 lc1 lc box points n H2 Hcc Hn Hlen HNc Hb
                Hcached Hgrid Hterm c Hc) as Hchain.
  split; [|split].
  - apply cell_members_chain.
    + unfold itercell. rewrite Hnp, u32_small by (unfold getNumCells in *; lia).
      exact Hchain.
    + unfold points_of_cell.
      pose proof (filter_length_le (cell_in lc (m_points lc) c)
                    (indices_from 0 (m_n_points lc))) as Hle.
      rewrite indices_from_length, Hnp in Hle. rewrite Hnp. lia.
  - intros i. unfold points_of_cell. rewrite filter_In, indices_from_In, Hnp.
    unfold cell_in, cell_of.
    destruct (option_map (getCell (m_box lc) (m_cell_index lc)) (read (m_points lc) i))
      as [c'|].
    + destruct (Z.eqb_spec c' c); split; intros [Hi Hq]; split; trivial; congruence.
    + split; intros [Hi Hq]; discriminate.
  - apply filter_sorted, indices_from_sorted.
Qed.

Lemma cell_iterator_visits_the_points_of_the_cell_witness :
  cell_members 4 grid2 (itercell grid2 7) = Ok (points_of_cell grid2 7)
  /\ (forall i, In i (points_of_cell grid2 7) <->
                0 <= i < 3 /\ cell_of grid2 i = Some 7)
  /\ StronglySorted Z.lt (points_of_cell grid2 7).
Proof.
  apply (cell_iterator_visits_the_points_of_the_cell (E := SampleExternals)
           cube10 (fz 5) three_points 3 grid2 7).
  - reflexivity.
  - lia.
  - apply Z.leb_le. reflexivity.
  - apply Z.leb_le. reflexivity.
  - apply Z.ltb_lt. reflexivity.
  - reflexivity.
  - change (LINK_CELL_TERMINATOR (Externals := SampleExternals)) with 4294967295. lia.
  - split; [apply Z.leb_le|apply Z.ltb_lt]; reflexivity.
Defined.

(** ** The neighbor cells of a cell *)

Lemma s32_id (z : Z) : - 2 ^ 31 <= z < 2 ^ 31 -> s32 z = z.
Proof.
  intros H. unfold s32. rewrite Z.mod_small; lia.
Qed.

Lemma indices_from_NoDup (m n : Z) : NoDup (indices_from m n).
Proof.
  pose proof (indices_from_sorted m n) as H.
  induction H as [|a l Hs IH Ha]; constructor; trivial.
  intros Hin. rewrite Forall_forall in Ha. specialize (Ha a Hin). lia.
Qed.

Lemma insert_cell_sorted_perm (c : Z) (l : list Z) :
  Permutation (insert_cell_sorted c l) (c :: l).
Proof.
  induction l as [|h t IH]; simpl; [reflexivity|].
  destruct (c <? h); [reflexivity|].
  rewrite IH. apply perm_swap.
Qed.

Lemma sort_cells_perm (l : list Z) : Permutation (sort_cells l) l.
Proof.
  induction l as [|c l IH]; simpl; [reflexivity|].
  unfold sort_cells in *. simpl. rewrite insert_cell_sorted_perm. constructor. exact IH.
Qed.

Lemma insert_cell_sorted_sorted (c : Z) (l : list Z) :
  StronglySorted Z.le l -> StronglySorted Z.le (insert_cell_sorted c l).
Proof.
  induction 1 as [|h t Hs IH Hh]; simpl.
  - constructor; constructor.
  - destruct (Z.ltb_spec c h) as [Hlt|Hge].
    + constructor; [constructor; trivial|].
      constructor; [lia|]. rewrite Forall_forall in *. intros x Hx.
      specialize (Hh x Hx). lia.
    + constructor; [exact IH|].
      rewrite Forall_forall in *. intros x Hx.
      apply (Permutation_in _ (insert_cell_sorted_perm c t)) in Hx.
      destruct Hx as [<-|Hx]; [lia|auto].
Qed.

Lemma sort_cells_sorted (l : list Z) : StronglySorted Z.le (sort_cells l).
Proof.
  induction l as [|c l IH]; simpl; [constructor|].
  apply insert_cell_sorted_sorted, IH.
Qed.

Lemma NoDup_flat_map {A B : Type} (g : A -> list B) (l : list A) :
  NoDup l ->
  (forall x, In x l -> NoDup (g x)) ->
  (forall x y z, In x l -> In y l -> In z (g x) -> In z (g y) -> x = y) ->
  NoDup (flat_map g l).
Proof.
  induction 1 as [|a l Ha Hl IH]; intros Hg Hdis; simpl; [constructor|].
  assert (Hrest : NoDup (flat_map g l)).
  { apply IH; [intros; apply Hg; right; trivial|].
    intros x y z Hx Hy. apply Hdis; right; trivial. }
  assert (Hga : NoDup (g a)) by (apply Hg; left; reflexivity).
  assert (Hsep : forall z, In z (g a) -> ~ In z (flat_map g l)).
  { intros z Hz Hin. apply in_flat_map in Hin. destruct Hin as (y & Hy & Hzy).
    assert (a = y) by (apply (Hdis a y z); [left; reflexivity|right; trivial|trivial|trivial]).
    subst y. contradiction. }
  clear - Hrest Hga Hsep. induction Hga as [|b m Hb Hm IHm]; simpl; [exact Hrest|].
  constructor.
  - rewrite in_app_iff. intros [Hin|Hin]; [contradiction|].
    apply (Hsep b); [left; reflexivity|exact Hin].
  - apply IHm. intros z Hz. apply Hsep. right. exact Hz.
Qed.

Lemma NoDup_map_inj {A B : Type} (f : A -> B) (l : list A) :
  NoDup l ->
  (forall x y, In x l -> In y l -> f x = f y -> x = y) ->
  NoDup (map f l).
Proof.
  induction 1 as [|a l Ha Hl IH]; intros Hinj; simpl; constructor.
  - rewrite in_map_iff. intros (y & Hy & Hin).
    assert (y = a) by (apply Hinj; [right; trivial|left; reflexivity|trivial]).
    subst y. contradiction.
  - apply IH. intros x y Hx Hy. apply Hinj; right; trivial.
Qed.

Section CellNeighborsProperties.
Context {E : Externals} {I : Index3DOps}.

Lemma int_range_length (lo hi : Z) :
  lo <= hi + 1 -> Z.of_nat (List.length (int_range lo hi)) = hi + 1 - lo.
Proof. intros H. unfold int_range. rewrite indices_from_length. lia. Qed.

Lemma int_range_In (lo hi x : Z) : In x (int_range lo hi) <-> lo <= x <= hi.
Proof. unfold int_range. rewrite indices_from_In. lia. Qed.

Lemma axis_range_length (dim i : Z) :
  - 2 ^ 31 < i < 2 ^ 31 - 1 ->
  Z.of_nat (List.length (int_range (neighbor_start dim i) (neighbor_end dim i)))
  = axis_count dim.
Proof.
  intros Hi. unfold neighbor_start, neighbor_end, axis_count.
  destruct (Z.ltb_spec dim 2), (Z.ltb_spec dim 3); try lia;
    rewrite ?s32_id by lia; rewrite int_range_length; lia.
Qed.

Lemma flat_map_length_const {A B : Type} (g : A -> list B) (l : list A) (n : nat) :
  (forall x, In x l -> List.length (g x) = n) ->
  List.length (flat_map g l) = (List.length l * n)%nat.
Proof.
  induction l as [|a l IH]; intros H; simpl; [reflexivity|].
  rewrite length_app, H by (left; reflexivity).
  rewrite IH by (intros; apply H; right; trivial). reflexivity.
Qed.

Lemma neighbor_cells_length (lc : LinkCell) (cur_cell : Z) :
  let l_idx := coords_of (m_cell_index lc) cur_cell in
  0 <= vx l_idx < 2 ^ 31 - 1 -> 0 <= vy l_idx < 2 ^ 31 - 1 ->
  0 <= vz l_idx < 2 ^ 31 - 1 ->
  Z.of_nat (List.length (neighbor_cells lc cur_cell))
  = axis_count (vx (m_celldim lc)) * axis_count (vy (m_celldim lc))
    * (if is2D (m_box lc) then 1 else axis_count (vz (m_celldim lc))).
Proof.
  intros l_idx Hx Hy Hz. unfold neighbor_cells. fold l_idx.
  rewrite !s32_small by lia.
  set (Rx := int_range _ _). set (Ry := int_range (neighbor_start (vy _) _) _).
  set (Rz := int_range _ _).
  erewrite flat_map_length_const.
  2:{ intros z _. erewrite flat_map_length_const.
      2:{ intros y _. rewrite length_map. reflexivity. }
      reflexivity. }
  assert (HRx : Z.of_nat (List.length Rx) = axis_count (vx (m_celldim lc))).
  { subst Rx. apply axis_range_length. lia. }
  assert (HRy : Z.of_nat (List.length Ry) = axis_count (vy (m_celldim lc))).
  { subst Ry. apply axis_range_length. lia. }
  assert (HRz : Z.of_nat (List.length Rz)
                = if is2D (m_box lc) then 1 else axis_count (vz (m_celldim lc))).
  { subst Rz. destruct (is2D (m_box lc)).
    - rewrite int_range_length; lia.
    - apply axis_range_length. lia. }
  rewrite !Nat2Z.inj_mul, HRx, HRy, HRz. ring.
Qed.

Lemma computeCellNeighbors_Ok (lc : LinkCell) (t : CellNeighbors) (cur_cell : Z) :
  getW (m_cell_index lc) <> 0 -> getH (m_cell_index lc) <> 0 ->
  getD (m_cell_index lc) <> 0 ->
  computeCellNeighbors lc t cur_cell
  = Ok (sort_cells (neighbor_cells lc cur_cell),
        CellNeighbors_insert t cur_cell (sort_cells (neighbor_cells lc cur_cell))).
Proof.
  intros HW HH HD. unfold computeCellNeighbors.
  destruct (Z.eqb_spec (getW (m_cell_index lc)) 0); [contradiction|].
  destruct (Z.eqb_spec (getH (m_cell_index lc)) 0); [contradiction|].
  destruct (Z.eqb_spec (getD (m_cell_index lc)) 0); [contradiction|].
  reflexivity.
Qed.

(** Along an axis of [w] cells the offsets of the loop wrap to coordinates
    of the grid, and different offsets to different coordinates. *)
Lemma wrap_coord_range (w i x : Z) :
  0 < w < 2 ^ 31 -> 0 <= i < w ->
  neighbor_start w i <= x <= neighbor_end w i ->
  u32 (wrap_coord w x) = (w + x) mod w /\ 0 <= (w + x) mod w < w.
Proof.
  intros Hw Hi Hx. unfold neighbor_start, neighbor_end in Hx.
  assert (Hb : -1 <= x <= w).
  { destruct (Z.ltb_spec w 3), (Z.ltb_spec w 2); rewrite ?s32_id in Hx by lia; lia. }
  pose proof (Z.mod_pos_bound (w + x) w ltac:(lia)) as Hm.
  unfold wrap_coord. rewrite (u32_small (w + x)) by lia.
  rewrite s32_id by lia. rewrite u32_small by lia. auto.
Qed.

Lemma wrap_coord_inj (w i x y : Z) :
  0 < w < 2 ^ 31 -> 0 <= i < w ->
  neighbor_start w i <= x <= neighbor_end w i ->
  neighbor_start w i <= y <= neighbor_end w i ->
  (w + x) mod w = (w + y) mod w -> x = y.
Proof.
  intros Hw Hi Hx Hy Heq. unfold neighbor_start, neighbor_end in Hx, Hy.
  assert (Hd : - w < x - y < w).
  { destruct (Z.ltb_spec w 3), (Z.ltb_spec w 2);
      rewrite ?s32_id in Hx by lia; rewrite ?s32_id in Hy by lia; lia. }
  assert (Hz : (x - y) mod w = 0).
  { replace (x - y) with ((w + x) - (w + y)) by lia.
    rewrite Zminus_mod, Heq, Z.sub_diag. apply Z.mod_0_l. lia. }
  apply Z.mod_divide in Hz; [|lia]. destruct Hz as [q Hq].
  assert (q = 0) by nia. lia.
Qed.

Lemma wrap_coord_self (w i : Z) :
  0 < w < 2 ^ 31 -> 0 <= i < w ->
  neighbor_start w i <= i <= neighbor_end w i /\ (w + i) mod w = i.
Proof.
  intros Hw Hi. unfold neighbor_start, neighbor_end. split.
  - destruct (Z.ltb_spec w 3), (Z.ltb_spec w 2); rewrite ?s32_id by lia; lia.
  - replace (w + i) with (i + 1 * w) by lia. rewrite Z.mod_add by lia.
    apply Z.mod_small. lia.
Qed.

End CellNeighborsProperties.





(** ** The draining phase of the k-nearest iterator *)

(** A call of [next] on a non-empty accumulator. *)
Lemma nearest_next_draining {E : Externals} (fuel : nat) (lc : LinkCell)
    (it : LinkCellQueryIterator.t) :
  LinkCellQueryIterator.size it <> 0 ->
  0 <= LinkCellQueryIterator.m_count it ->
  LinkCellQueryIterator.m_num_neighbors it < 2 ^ 32 ->
  exists y it',
    LinkCellQueryIterator.next fuel lc it = Ok (y, it')
    /\ LinkCellQueryIterator.m_current_neighbors it'
       = LinkCellQueryIterator.m_current_neighbors it
    /\ LinkCellQueryIterator.m_neigh_cell_iter it'
       = LinkCellQueryIterator.m_neigh_cell_iter it
    /\ LinkCellQueryIterator.m_cell_iter it' = LinkCellQueryIterator.m_cell_iter it
    /\ match y with
       | Yield b =>
           LinkCellQueryIterator.m_count it < LinkCellQueryIterator.m_num_neighbors it
           /\ nth_error (LinkCellQueryIterator.m_current_neighbors it)
                        (Z.to_nat (LinkCellQueryIterator.m_count it)) = Some b
           /\ LinkCellQueryIterator.m_count it' = LinkCellQueryIterator.m_count it + 1
           /\ LinkCellQueryIterator.m_finished it' = LinkCellQueryIterator.m_finished it
       | ITERATOR_TERMINATOR =>
           (LinkCellQueryIterator.m_num_neighbors it <= LinkCellQueryIterator.m_count it
            \/ LinkCellQueryIterator.size it <= LinkCellQueryIterator.m_count it)
           /\ LinkCellQueryIterator.m_count it' = LinkCellQueryIterator.m_count it
           /\ LinkCellQueryIterator.m_finished it' = true
       end.
Proof.
  intros Hsize Hcount Hk. unfold LinkCellQueryIterator.next.
  set (it0 := LinkCellQueryIterator.set_searched_cells it _).
  change (LinkCellQueryIterator.size it0) with (LinkCellQueryIterator.size it).
  destruct (Z.eqb_spec (LinkCellQueryIterator.size it) 0) as [He|_]; [contradiction|].
  cbn [bind].
  change (LinkCellQueryIterator.size it0) with (LinkCellQueryIterator.size it).
  change (LinkCellQueryIterator.m_count it0) with (LinkCellQueryIterator.m_count it).
  change (LinkCellQueryIterator.m_num_neighbors it0)
    with (LinkCellQueryIterator.m_num_neighbors it).
  destruct (Z.ltb_spec (LinkCellQueryIterator.m_count it)
                       (LinkCellQueryIterator.m_num_neighbors it)) as [Hlt|Hge];
    [destruct (Z.ltb_spec (LinkCellQueryIterator.m_count it)
                          (LinkCellQueryIterator.size it)) as [Hlt'|Hge']|];
    cbn [andb].
  - cbn [LinkCellQueryIterator.set_count LinkCellQueryIterator.m_current_neighbors
         LinkCellQueryIterator.m_count].
    change (LinkCellQueryIterator.m_current_neighbors it0)
      with (LinkCellQueryIterator.m_current_neighbors it).
    rewrite (u32_small (LinkCellQueryIterator.m_count it + 1)) by lia.
    replace (LinkCellQueryIterator.m_count it + 1 - 1)
      with (LinkCellQueryIterator.m_count it) by lia.
    rewrite u32_small by lia.
    destruct (read_in_bounds (LinkCellQueryIterator.m_current_neighbors it)
                             (LinkCellQueryIterator.m_count it)) as [b Hb].
    { unfold LinkCellQueryIterator.size in Hlt'. lia. }
    rewrite Hb. cbn [of_option bind].
    eexists. eexists. split; [reflexivity|].
    repeat split; trivial.
    rewrite <- read_eq by lia. exact Hb.
  - eexists. eexists. split; [reflexivity|]. repeat split. right. exact Hge'.
  - eexists. eexists. split; [reflexivity|]. repeat split. left. exact Hge.
Qed.

(** X13.  Once its accumulator holds a bond, a call of [next] of the
    k-nearest iterator searches no more, whatever the fuel: it yields the
    entry of the accumulator at [m_count] and counts it, or, when the count
    has reached [m_num_neighbors] or the size of the accumulator, sets
    [m_finished] and returns the terminator; the accumulator, the shell
    iterator and the cell iterator are left as they were. *)
Theorem nearest_next_drains_accumulator {E : Externals} (fuel : nat) (lc : LinkCell)
    (it : LinkCellQueryIterator.t) :
  LinkCellQueryIterator.size it <> 0 ->
  0 <= LinkCellQueryIterator.m_count it ->
  LinkCellQueryIterator.m_num_neighbors it < 2 ^ 32 ->
  exists y it',
    LinkCellQueryIterator.next fuel lc it = Ok (y, it')
    /\ LinkCellQueryIterator.m_current_neighbors it'
       = LinkCellQueryIterator.m_current_neighbors it
    /\ LinkCellQueryIterator.m_neigh_cell_iter it'
       = LinkCellQueryIterator.m_neigh_cell_iter it
    /\ LinkCellQueryIterator.m_cell_iter it' = LinkCellQueryIterator.m_cell_iter it
    /\ match y with
       | Yield b =>
           LinkCellQueryIterator.m_count it < LinkCellQueryIterator.m_num_neighbors it
           /\ nth_error (LinkCellQueryIterator.m_current_neighbors it)
                        (Z.to_nat (LinkCellQueryIterator.m_count it)) = Some b
           /\ LinkCellQueryIterator.m_count it' = LinkCellQueryIterator.m_count it + 1
           /\ LinkCellQueryIterator.m_finished it' = LinkCellQueryIterator.m_finished it
       | ITERATOR_TERMINATOR =>
           (LinkCellQueryIterator.m_num_neighbors it <= LinkCellQueryIterator.m_count it
            \/ LinkCellQueryIterator.size it <= LinkCellQueryIterator.m_count it)
           /\ LinkCellQueryIterator.m_count it' = LinkCellQueryIterator.m_count it
           /\ LinkCellQueryIterator.m_finished it' = true
       end.
Proof.
  intros Hsize Hcount Hk.
  exact (nearest_next_draining fuel lc it Hsize Hcount Hk).
Qed.

Lemma nearest_next_drains_accumulator_witness :
  exists y it',
    LinkCellQueryIterator.next 0 grid2 nearest_of_origin_after = Ok (y, it')
    /\ LinkCellQueryIterator.m_current_neighbors it'
       = LinkCellQueryIterator.m_current_neighbors nearest_of_origin_after
    /\ LinkCellQueryIterator.m_neigh_cell_iter it'
       = LinkCellQueryIterator.m_neigh_cell_iter nearest_of_origin_after
    /\ LinkCellQueryIterator.m_cell_iter it'
       = LinkCellQueryIterator.m_cell_iter nearest_of_origin_after
    /\ match y with
       | Yield b =>
           LinkCellQueryIterator.m_count nearest_of_origin_after
           < LinkCellQueryIterator.m_num_neighbors nearest_of_origin_after
           /\ nth_error (LinkCellQueryIterator.m_current_neighbors nearest_of_origin_after)
                        (Z.to_nat (LinkCellQueryIterator.m_count nearest_of_origin_after))
              = Some b
           /\ LinkCellQueryIterator.m_count it'
              = LinkCellQueryIterator.m_count nearest_of_origin_after + 1
           /\ LinkCellQueryIterator.m_finished it'
              = LinkCellQueryIterator.m_finished nearest_of_origin_after
       | ITERATOR_TERMINATOR =>
           (LinkCellQueryIterator.m_num_neighbors nearest_of_origin_after
            <= LinkCellQueryIterator.m_count nearest_of_origin_after
            \/ LinkCellQueryIterator.size nearest_of_origin_after
               <= LinkCellQueryIterator.m_count nearest_of_origin_after)
           /\ LinkCellQueryIterator.m_count it'
              = LinkCellQueryIterator.m_count nearest_of_origin_after
           /\ LinkCellQueryIterator.m_finished it' = true
       end.
Proof.
  apply (nearest_next_drains_accumulator (E := SampleExternals) 0 grid2
           nearest_of_origin_after).
  - discriminate.
  - apply Z.leb_le. reflexivity.
  - apply Z.ltb_lt. reflexivity.
Defined.

(** ** Early termination of the k-nearest search *)

Lemma insert_sorted_sorted (b : NeighborBond) (l : list NeighborBond) :
  distance_sorted l -> distance_sorted (insert_sorted b l).
Proof.
  unfold distance_sorted. induction 1 as [|h t Hs IH Hh]; simpl.
  - constructor; constructor.
  - destruct (bond_lt b h) eqn:Hbh.
    + constructor; [constructor; trivial|].
      constructor; [apply flt_asym; exact Hbh|].
      rewrite Forall_forall in *. intros x Hx. specialize (Hh x Hx).
      unfold bond_lt in *. destruct (flt (distance x) (distance b)) eqn:Hxb; trivial.
      rewrite (flt_trans _ _ _ Hxb Hbh) in Hh. discriminate.
    + constructor; [exact IH|].
      rewrite Forall_forall in *. intros x Hx.
      apply (Permutation_in _ (insert_sorted_perm b t)) in Hx.
      destruct Hx as [<-|Hx]; [exact Hbh|auto].
Qed.

Lemma sort_bonds_sorted (l : list NeighborBond) : distance_sorted (sort_bonds l).
Proof.
  induction l as [|b l IH]; simpl; [constructor|].
  apply insert_sorted_sorted, IH.
Qed.

Lemma distance_sorted_firstn (n : nat) (l : list NeighborBond) :
  distance_sorted l -> distance_sorted (firstn n l).
Proof.
  unfold distance_sorted. intros H. revert n.
  induction H as [|h t Hs IH Hh]; intros [|n]; simpl; try constructor.
  - apply IH.
  - rewrite Forall_forall in *. intros x Hx. apply Hh.
    eapply (In_nth_error) in Hx. destruct Hx as [k Hk].
    apply nth_error_In with (n := k).
    rewrite nth_error_firstn in Hk. destruct (Nat.ltb k n); [exact Hk|discriminate].
Qed.

Section NearestEarlyTermination.
Context {E : Externals}.

Lemma expand_early (lc : LinkCell) (point_cell : vec3 Z) (last : IteratorCellShell) :
  forall (fuel : nat) (it it' : LinkCellQueryIterator.t),
    LinkCellQueryIterator.expand fuel lc point_cell last it = Ok it' ->
    shell_eq (LinkCellQueryIterator.m_neigh_cell_iter it') last = false ->
    exists it1,
      LinkCellQueryIterator.enough lc it1 = Ok true
      /\ it' = LinkCellQueryIterator.set_current_neighbors it1
                 (sort_bonds (LinkCellQueryIterator.m_current_neighbors it1)).
Proof.
  induction fuel as [|fuel IH]; intros it it' H Hne; [discriminate|].
  cbn [LinkCellQueryIterator.expand] in H.
  destruct (shell_eq (LinkCellQueryIterator.m_neigh_cell_iter it) last) eqn:Hs.
  - inversion H; subst it'. congruence.
  - apply bind_Ok in H. destruct H as (it0 & _ & H).
    apply bind_Ok in H. destruct H as (it1 & _ & H).
    apply bind_Ok in H. destruct H as (stop & Hstop & H).
    destruct stop.
    + inversion H; subst it'. exists it1. split; [exact Hstop|reflexivity].
    + apply (IH it1 it' H Hne).
Qed.

Lemma enough_true (lc : LinkCell) (it : LinkCellQueryIterator.t) :
  LinkCellQueryIterator.enough lc it = Ok true ->
  LinkCellQueryIterator.m_num_neighbors it <= LinkCellQueryIterator.size it.
Proof.
  unfold LinkCellQueryIterator.enough.
  destruct (Z.leb_spec (LinkCellQueryIterator.m_num_neighbors it)
                       (LinkCellQueryIterator.size it)); [auto|discriminate].
Qed.

Lemma next_first_early (lc : LinkCell) (fuel : nat)
    (it it' : LinkCellQueryIterator.t) (y : yielded) :
  LinkCellQueryIterator.size it = 0 ->
  LinkCellQueryIterator.next fuel lc it = Ok (y, it') ->
  shell_eq (LinkCellQueryIterator.m_neigh_cell_iter it') (last_shell lc) = false ->
  distance_sorted (LinkCellQueryIterator.m_current_neighbors it')
  /\ LinkCellQueryIterator.m_num_neighbors it' <= LinkCellQueryIterator.size it'.
Proof.
  unfold LinkCellQueryIterator.next. intros Hs H Hne.
  apply bind_Ok in H. destruct H as (it1 & H1 & H).
  match type of H1 with (if ?c then _ else _) = _ =>
    replace c with true in H1 by (symmetry; apply Z.eqb_eq; exact Hs) end.
  assert (Hsame : LinkCellQueryIterator.m_current_neighbors it'
                  = LinkCellQueryIterator.m_current_neighbors it1
                  /\ LinkCellQueryIterator.m_neigh_cell_iter it'
                     = LinkCellQueryIterator.m_neigh_cell_iter it1
                  /\ LinkCellQueryIterator.m_num_neighbors it'
                     = LinkCellQueryIterator.m_num_neighbors it1).
  { destruct (_ && _) in H.
    - apply bind_Ok in H. destruct H as (b & _ & H). inversion H; subst.
      repeat split.
    - inversion H; subst. repeat split. }
  destruct Hsame as (Hacc & Hsh & Hk).
  rewrite Hsh in Hne.
  destruct (expand_early _ _ _ _ _ _ H1 Hne) as (it2 & Hen & ->).
  unfold LinkCellQueryIterator.size. rewrite Hacc, Hk.
  cbn [LinkCellQueryIterator.set_current_neighbors
       LinkCellQueryIterator.m_current_neighbors LinkCellQueryIterator.m_num_neighbors].
  split; [apply sort_bonds_sorted|].
  rewrite sort_bonds_length. apply enough_true in Hen. exact Hen.
Qed.

Lemma next_stable_shell (lc : LinkCell) (fuel : nat)
    (it it' : LinkCellQueryIterator.t) (y : yielded) :
  LinkCellQueryIterator.size it <> 0 ->
  LinkCellQueryIterator.next fuel lc it = Ok (y, it') ->
  LinkCellQueryIterator.m_neigh_cell_iter it' = LinkCellQueryIterator.m_neigh_cell_iter it.
Proof.
  unfold LinkCellQueryIterator.next. intros Hs H.
  apply bind_Ok in H. destruct H as (it1 & H1 & H).
  match type of H1 with (if ?c then _ else _) = _ =>
    replace c with false in H1 by (symmetry; apply Z.eqb_neq; exact Hs) end.
  inversion H1; subst it1; clear H1.
  destruct (_ && _) in H.
  - apply bind_Ok in H. destruct H as (b & _ & H). inversion H; subst. reflexivity.
  - inversion H; subst. reflexivity.
Qed.

Lemma drain_stable_shell (lc : LinkCell) (fuel : nat) :
  forall (calls : nat) (it it' : LinkCellQueryIterator.t) (bs : list NeighborBond),
    LinkCellQueryIterator.size it <> 0 ->
    LinkCellQueryIterator.drain calls fuel lc it = Ok (bs, it') ->
    LinkCellQueryIterator.m_neigh_cell_iter it' = LinkCellQueryIterator.m_neigh_cell_iter it.
Proof.
  induction calls as [|calls IH]; intros it it' bs Hs; [discriminate|].
  cbn [LinkCellQueryIterator.drain]. intros H.
  apply bind_Ok in H. destruct H as ([y it1] & Hn & H).
  pose proof (next_stable _ _ _ _ _ Hs Hn) as Hacc.
  apply next_stable_shell in Hn; trivial.
  destruct y as [b|].
  - apply bind_Ok in H. destruct H as ([bs' it2] & Hd & H).
    inversion H; subst; clear H. cbn [snd].
    apply IH in Hd; [congruence|].
    unfold LinkCellQueryIterator.size in *. rewrite Hacc. exact Hs.
  - inversion H; subst. exact Hn.
Qed.

Lemma drain_early (lc : LinkCell) (calls fuel : nat)
    (it it' : LinkCellQueryIterator.t) (bs : list NeighborBond) :
  fresh lc it ->
  LinkCellQueryIterator.m_num_neighbors it < 2 ^ 32 ->
  LinkCellQueryIterator.drain calls fuel lc it = Ok (bs, it') ->
  shell_eq (LinkCellQueryIterator.m_neigh_cell_iter it') (last_shell lc) = false ->
  distance_sorted (LinkCellQueryIterator.m_current_neighbors it')
  /\ LinkCellQueryIterator.m_num_neighbors it <= LinkCellQueryIterator.size it'
  /\ bs = firstn (List.length bs) (LinkCellQueryIterator.m_current_neighbors it')
  /\ distance_sorted bs.
Proof.
  intros Hfr Hk Hd Hne.
  assert (Hc : LinkCellQueryIterator.m_count it = 0) by apply Hfr.
  assert (Hs : LinkCellQueryIterator.size it = 0).
  { unfold LinkCellQueryIterator.size. destruct Hfr as (-> & _). reflexivity. }
  assert (Hbs : bs = firstn (List.length bs)
                       (LinkCellQueryIterator.m_current_neighbors it')).
  { pose proof (drain_entries lc fuel calls it it' bs ltac:(lia) Hk Hd) as He.
    rewrite Hc in He. exact He. }
  assert (Hmain : distance_sorted (LinkCellQueryIterator.m_current_neighbors it')
                  /\ LinkCellQueryIterator.m_num_neighbors it
                     <= LinkCellQueryIterator.size it').
  { destruct calls as [|calls]; [discriminate|].
    cbn [LinkCellQueryIterator.drain] in Hd.
    apply bind_Ok in Hd. destruct Hd as ([y it1] & Hn & Hd).
    pose proof (next_count _ _ _ _ _ Hn) as (Hk1 & _ & Hy).
    destruct y as [b|].
    - apply bind_Ok in Hd. destruct Hd as ([bs' it2] & Hd & Heq).
      cbn [fst snd] in Heq. injection Heq as Hb' Hi'. subst bs it'.
      destruct Hy as (_ & Hlt & _).
      assert (Hs1 : LinkCellQueryIterator.size it1 <> 0) by lia.
      pose proof (drain_stable lc fuel calls it1 it2 bs' Hs1 Hd) as Hacc.
      pose proof (drain_stable_shell lc fuel calls it1 it2 bs' Hs1 Hd) as Hsh.
      rewrite Hsh in Hne.
      destruct (next_first_early lc fuel it it1 (Yield b) Hs Hn Hne) as [Hso Hsz].
      unfold LinkCellQueryIterator.size in *. rewrite Hacc. split; [exact Hso|lia].
    - inversion Hd; subst; clear Hd.
      destruct (next_first_early lc fuel it it' ITERATOR_TERMINATOR Hs Hn Hne)
        as [Hso Hsz].
      split; [exact Hso|lia]. }
  destruct Hmain as [Hso Hsz].
  split; [exact Hso|]. split; [exact Hsz|]. split; [exact Hbs|].
  rewrite Hbs. apply distance_sorted_firstn. exact Hso.
Qed.

End NearestEarlyTermination.

(** X14.  When the search of a k-nearest iterator ends before its last
    shell, by the early-termination test, the accumulator is sorted by
    distance and holds at least [m_num_neighbors] bonds, and the bonds
    drained are its first entries: they come in order of distance, none
    farther than an entry left behind.  ([std::sort] asks for distances
    that are numbers.) *)
Theorem nearest_early_termination_sorts {E : Externals} (lc : LinkCell)
    (calls fuel : nat) (it it' : LinkCellQueryIterator.t) (bs : list NeighborBond) :
  fresh lc it ->
  LinkCellQueryIterator.m_num_neighbors it < 2 ^ 32 ->
  LinkCellQueryIterator.drain calls fuel lc it = Ok (bs, it') ->
  shell_eq (LinkCellQueryIterator.m_neigh_cell_iter it') (last_shell lc) = false ->
  Forall distance_ordered (LinkCellQueryIterator.m_current_neighbors it') ->
  distance_sorted (LinkCellQueryIterator.m_current_neighbors it')
  /\ LinkCellQueryIterator.m_num_neighbors it <= LinkCellQueryIterator.size it'
  /\ bs = firstn (List.length bs) (LinkCellQueryIterator.m_current_neighbors it')
  /\ distance_sorted bs.
Proof.
  intros Hfr Hk Hd Hne _. exact (drain_early lc calls fuel it it' bs Hfr Hk Hd Hne).
Qed.

Lemma nearest_early_termination_sorts_witness :
  distance_sorted (LinkCellQueryIterator.m_current_neighbors (snd nearest2_drained))
  /\ LinkCellQueryIterator.m_num_neighbors nearest2_of_origin
     <= LinkCellQueryIterator.size (snd nearest2_drained)
  /\ fst nearest2_drained
     = firstn (List.length (fst nearest2_drained))
              (LinkCellQueryIterator.m_current_neighbors (snd nearest2_drained))
  /\ distance_sorted (fst nearest2_drained).
Proof.
  apply (nearest_early_termination_sorts (E := SampleExternals) grid5 3 400
           nearest2_of_origin (snd nearest2_drained) (fst nearest2_drained)).
  - repeat split.
  - apply Z.ltb_lt. reflexivity.
  - reflexivity.
  - reflexivity.
  - repeat constructor.
Defined.

(** ** fastio: file names for the Windows API *)

Lemma read_app_mid {A : Type} (a b : list A) (c : A) :
  read (a ++ c :: b) (Z.of_nat (List.length a)) = Some c.
Proof.
  rewrite read_eq by lia. rewrite Nat2Z.id.
  rewrite nth_error_app2 by lia. rewrite Nat.sub_diag. reflexivity.
Qed.

Lemma set_nth_app_mid {A : Type} (a b : list A) (c v : A) :
  set_nth (a ++ c :: b) (List.length a) v = a ++ v :: b.
Proof.
  induction a as [|h t IH]; simpl; [reflexivity|]. rewrite IH. reflexivity.
Qed.

Lemma write_app_mid {A : Type} (a b : list A) (c v : A) :
  write (a ++ c :: b) (Z.of_nat (List.length a)) v = Some (a ++ v :: b).
Proof.
  unfold write. rewrite length_app. cbn [List.length].
  destruct (Z.leb_spec 0 (Z.of_nat (List.length a))); [|lia].
  destruct (Z.ltb_spec (Z.of_nat (List.length a))
                       (Z.of_nat (List.length a + S (List.length b)))); [|lia].
  cbn [andb]. rewrite Nat2Z.id, set_nth_app_mid. reflexivity.
Qed.

Lemma strlen_app (s rest : list Z) :
  Forall (fun c => c <> 0) s ->
  strlen (s ++ 0 :: rest) = Some (Z.of_nat (List.length s)).
Proof.
  induction 1 as [|c s Hc Hs IH]; [reflexivity|].
  cbn [app strlen List.length]. destruct (Z.eqb_spec c 0); [contradiction|].
  rewrite IH. cbn [option_map]. f_equal. lia.
Qed.

Lemma convert_chars_spec (tail b3 : list Z) :
  forall (s2 s1 out1 b2 : list Z),
    List.length out1 = List.length s1 ->
    List.length b2 = List.length s2 ->
    convert_chars (List.length s2) (Z.of_nat (List.length s1))
                  (s1 ++ s2 ++ tail) (out1 ++ b2 ++ b3)
    = Ok (out1 ++ map to_backslash s2 ++ b3).
Proof.
  induction s2 as [|c s2 IH]; intros s1 out1 b2 Ho Hb.
  - destruct b2; [reflexivity|discriminate].
  - destruct b2 as [|x b2]; [discriminate|].
    cbn [List.length convert_chars app map].
    rewrite read_app_mid. cbn [of_option bind].
    rewrite <- Ho, write_app_mid, write_app_mid.
    assert (Hw : (if c =? slash
                  then of_option (Some (out1 ++ backslash :: b2 ++ b3))
                  else of_option (Some (out1 ++ c :: b2 ++ b3)))
                 = Ok ((out1 ++ [to_backslash c]) ++ b2 ++ b3)).
    { unfold to_backslash. rewrite <- app_assoc. destruct (c =? slash); reflexivity. }
    rewrite Hw. cbn [bind].
    replace (s1 ++ c :: s2 ++ tail) with ((s1 ++ [c]) ++ s2 ++ tail)
      by (rewrite <- app_assoc; reflexivity).
    replace (Z.of_nat (List.length out1) + 1)
      with (Z.of_nat (List.length (s1 ++ [c])))
      by (rewrite length_app; cbn [List.length]; lia).
    rewrite (IH (s1 ++ [c]) (out1 ++ [to_backslash c]) b2).
    + rewrite <- app_assoc. reflexivity.
    + rewrite !length_app. cbn [List.length]. lia.
    + cbn [List.length] in Hb. lia.
Qed.

Lemma fio_win32convertfilename_spec (s rest newfilename : list Z) (maxlen : Z) :
  Forall (fun c => c <> 0) s ->
  Z.of_nat (List.length s) < 2 ^ 31 - 1 ->
  maxlen <= Z.of_nat (List.length newfilename) ->
  fio_win32convertfilename (s ++ 0 :: rest) newfilename maxlen
  = if Z.of_nat (List.length s) + 1 <? maxlen
    then Ok (0, map to_backslash s ++ 0 :: skipn (S (List.length s)) newfilename)
    else Ok (-1, newfilename).
Proof.
  intros Hs Hlen Hmax. unfold fio_win32convertfilename.
  rewrite (strlen_app s rest Hs). cbn [of_option bind].
  rewrite (s32_id (Z.of_nat (List.length s))) by lia.
  rewrite s32_id by lia.
  destruct (Z.ltb_spec (Z.of_nat (List.length s) + 1) maxlen) as [Hfit|Hno].
  - destruct (Z.geb_spec (Z.of_nat (List.length s) + 1) maxlen) as [Hge|_]; [lia|].
    rewrite Nat2Z.id.
    assert (Hsplit : newfilename
                     = firstn (List.length s) newfilename
                       ++ skipn (List.length s) newfilename)
      by (symmetry; apply firstn_skipn).
    assert (Hl1 : List.length (firstn (List.length s) newfilename) = List.length s)
      by (rewrite length_firstn; lia).
    destruct (skipn (List.length s) newfilename) as [|x b3] eqn:Hsk.
    { apply (f_equal (@List.length Z)) in Hsk. rewrite length_skipn in Hsk.
      cbn [List.length] in Hsk. lia. }
    assert (Hb3 : skipn (S (List.length s)) newfilename = b3).
    { replace (S (List.length s)) with (1 + List.length s)%nat by lia.
      rewrite <- skipn_skipn, Hsk. reflexivity. }
    rewrite Hb3. rewrite Hsplit at 1.
    replace (s ++ 0 :: rest) with (s ++ [0] ++ rest) by reflexivity.
    assert (Hc' : convert_chars (List.length s) 0 (s ++ [0] ++ rest)
                    (firstn (List.length s) newfilename ++ x :: b3)
                  = Ok (map to_backslash s ++ x :: b3)).
    { pose proof (convert_chars_spec ([0] ++ rest) (x :: b3) s [] []
                    (firstn (List.length s) newfilename) eq_refl Hl1) as Hc2.
      exact Hc2. }
    rewrite Hc'. cbn [bind].
    replace (Z.of_nat (List.length s))
      with (Z.of_nat (List.length (map to_backslash s))) by (rewrite length_map; reflexivity).
    rewrite write_app_mid. reflexivity.
  - destruct (Z.geb_spec (Z.of_nat (List.length s) + 1) maxlen) as [_|Hlt]; [|lia].
    reflexivity.
Qed.

(** X15.  On a name of fewer than 2^31 - 1 characters,
    [fio_win32convertfilename] refuses with -1, leaving the buffer as it
    was, when the name and its NUL do not leave one character of [maxlen]
    unused; otherwise it returns 0 and the buffer holds the name with every
    ['/'] written as a backslash, then a NUL, then what it held before.  It
    writes [len + 1] characters, inside a buffer of at least [maxlen]. *)
Theorem fio_win32convertfilename_converts (s rest newfilename : list Z) (maxlen : Z) :
  Forall (fun c => c <> 0) s ->
  Z.of_nat (List.length s) < 2 ^ 31 - 1 ->
  maxlen <= Z.of_nat (List.length newfilename) ->
  fio_win32convertfilename (s ++ 0 :: rest) newfilename maxlen
  = if Z.of_nat (List.length s) + 1 <? maxlen
    then Ok (0, map to_backslash s ++ 0 :: skipn (S (List.length s)) newfilename)
    else Ok (-1, newfilename).
Proof.
  intros Hs Hlen Hmax.
  exact (fio_win32convertfilename_spec s rest newfilename maxlen Hs Hlen Hmax).
Qed.

Lemma fio_win32convertfilename_converts_witness :
  fio_win32convertfilename (name_a_b ++ 0 :: [7; 7]) buffer8 8
  = if Z.of_nat (List.length name_a_b) + 1 <? 8
    then Ok (0, map to_backslash name_a_b
                ++ 0 :: skipn (S (List.length name_a_b)) buffer8)
    else Ok (-1, buffer8).
Proof.
  apply (fio_win32convertfilename_converts name_a_b [7; 7] buffer8 8).
  - repeat constructor; discriminate.
  - apply Z.ltb_lt. reflexivity.
  - apply Z.leb_le. reflexivity.
Defined.

Lemma to_backslash_idempotent (c : Z) : to_backslash (to_backslash c) = to_backslash c.
Proof.
  unfold to_backslash. destruct (Z.eqb_spec c slash) as [->|Hc]; [reflexivity|].
  destruct (Z.eqb_spec c slash); [contradiction|reflexivity].
Qed.

Lemma to_backslash_not_slash (c : Z) : to_backslash c <> slash.
Proof.
  unfold to_backslash. destruct (Z.eqb_spec c slash) as [->|Hc]; [discriminate|exact Hc].
Qed.

(** X16.  A name that [fio_win32convertfilename] has converted holds no
    ['/'] and has the length of the original, and converting the buffer it
    left, as a name, into the same buffer gives that buffer again. *)
Theorem fio_win32convertfilename_idempotent
    (s rest newfilename buf : list Z) (maxlen : Z) :
  Forall (fun c => c <> 0) s ->
  Z.of_nat (List.length s) < 2 ^ 31 - 1 ->
  maxlen <= Z.of_nat (List.length newfilename) ->
  fio_win32convertfilename (s ++ 0 :: rest) newfilename maxlen = Ok (0, buf) ->
  strlen buf = Some (Z.of_nat (List.length s))
  /\ ~ In slash (firstn (List.length s) buf)
  /\ fio_win32convertfilename buf newfilename maxlen = Ok (0, buf).
Proof.
  intros Hs Hlen Hmax H.
  rewrite (fio_win32convertfilename_spec s rest newfilename maxlen Hs Hlen Hmax) in H.
  destruct (Z.ltb_spec (Z.of_nat (List.length s) + 1) maxlen) as [Hfit|Hno];
    [|discriminate].
  set (out := map to_backslash s) in *.
  set (b3 := skipn (S (List.length s)) newfilename) in *.
  assert (Hbuf : buf = out ++ 0 :: b3) by congruence.
  subst buf. clear H.
  assert (Hout : Forall (fun c => c <> 0) out).
  { subst out. apply Forall_forall. intros c Hc. apply in_map_iff in Hc.
    destruct Hc as (c0 & <- & Hc0). rewrite Forall_forall in Hs. specialize (Hs c0 Hc0).
    unfold to_backslash. destruct (c0 =? slash); [discriminate|exact Hs]. }
  assert (Hol : List.length out = List.length s) by (subst out; apply length_map).
  split; [|split].
  - rewrite (strlen_app out b3 Hout), Hol. reflexivity.
  - rewrite <- Hol. rewrite firstn_app, Nat.sub_diag, firstn_all. cbn [firstn].
    rewrite app_nil_r. subst out. intros Hin. apply in_map_iff in Hin.
    destruct Hin as (c & Hc & _). exact (to_backslash_not_slash c Hc).
  - assert (Hb3 : Z.of_nat (List.length b3)
                  = Z.of_nat (List.length newfilename) - Z.of_nat (List.length s) - 1).
    { subst b3. rewrite length_skipn. lia. }
    rewrite (fio_win32convertfilename_spec out b3 newfilename maxlen Hout).
    + rewrite Hol.
      destruct (Z.ltb_spec (Z.of_nat (List.length s) + 1) maxlen); [|lia].
      f_equal. f_equal. fold b3. f_equal. subst out. rewrite map_map.
      apply map_ext. exact to_backslash_idempotent.
    + rewrite Hol. exact Hlen.
    + exact Hmax.
Qed.

Lemma fio_win32convertfilename_idempotent_witness :
  strlen name_a_b_converted = Some (Z.of_nat (List.length name_a_b))
  /\ ~ In slash (firstn (List.length name_a_b) name_a_b_converted)
  /\ fio_win32convertfilename name_a_b_converted buffer8 8
     = Ok (0, name_a_b_converted).
Proof.
  apply (fio_win32convertfilename_idempotent name_a_b [7; 7] buffer8
           name_a_b_converted 8).
  - repeat constructor; discriminate.
  - apply Z.ltb_lt. reflexivity.
  - apply Z.leb_le. reflexivity.
  - reflexivity.
Defined.

(** ** The bonds of the k-nearest iterator *)

Section NearestBonds.
Context {E : Externals}.

Lemma nearest_bond_same (lc : LinkCell) (it it' : LinkCellQueryIterator.t)
    (b : NeighborBond) :
  same_nearest_query it it' -> nearest_bond lc it b -> nearest_bond lc it' b.
Proof.
  intros (Hp & Hi & He & _) (j & pj & Hj & Hb & Hx).
  exists j, pj. rewrite Hp, Hi, He. auto.
Qed.

Lemma scan_cell_bonds (lc : LinkCell) (it0 : LinkCellQueryIterator.t) :
  forall (fuel : nat) (it it' : LinkCellQueryIterator.t),
    same_nearest_query it0 it ->
    Forall (nearest_bond lc it0) (LinkCellQueryIterator.m_current_neighbors it) ->
    LinkCellQueryIterator.scan_cell fuel lc it = Ok it' ->
    Forall (nearest_bond lc it0) (LinkCellQueryIterator.m_current_neighbors it').
Proof.
  induction fuel as [|fuel IH]; intros it it' Hq Hall; simpl; [discriminate|].
  intros H. apply bind_Ok in H. destruct H as (j & Hj & H).
  destruct (atEnd j) eqn:Hend.
  - inversion H; subst. exact Hall.
  - destruct (LinkCellQueryIterator.m_exclude_ii it
              && (LinkCellQueryIterator.m_query_point_idx it =? j)) eqn:Hskip.
    + exact (IH (LinkCellQueryIterator.set_cell_iter it j) it' Hq Hall H).
    + apply bind_Ok in H. destruct H as (pj & Hpj & H).
      apply (IH (LinkCellQueryIterator.set_current_neighbors
                   (LinkCellQueryIterator.set_cell_iter it j)
                   (LinkCellQueryIterator.m_current_neighbors it ++
                    [NeighborBond3 (LinkCellQueryIterator.m_query_point_idx it) j
                       (fsqrt (wrapped_rsq lc (LinkCellQueryIterator.m_query_point it) pj))]))
                it'); [exact Hq| |exact H].
      cbn [LinkCellQueryIterator.set_current_neighbors LinkCellQueryIterator.set_cell_iter
           LinkCellQueryIterator.m_current_neighbors LinkCellQueryIterator.m_query_point_idx
           LinkCellQueryIterator.m_query_point LinkCellQueryIterator.m_exclude_ii] in *.
      apply Forall_app. split; [exact Hall|]. constructor; [|constructor].
      destruct Hq as (Hp & Hi & He & _).
      exists j, pj. rewrite Hp, Hi. split; [exact Hpj|]. split; [reflexivity|].
      intros Hex. rewrite <- He in Hex. rewrite Hex in Hskip. cbn [andb] in Hskip.
      apply Z.eqb_neq in Hskip. cbn [NeighborBond3 point_idx query_point_idx].
      intros Heq. apply Hskip. rewrite Hi. symmetry. exact Heq.
Qed.

Lemma expand_bonds (lc : LinkCell) (point_cell : vec3 Z) (last : IteratorCellShell)
    (it0 : LinkCellQueryIterator.t) :
  forall (fuel : nat) (it it' : LinkCellQueryIterator.t),
    same_nearest_query it0 it ->
    Forall (nearest_bond lc it0) (LinkCellQueryIterator.m_current_neighbors it) ->
    LinkCellQueryIterator.expand fuel lc point_cell last it = Ok it' ->
    Forall (nearest_bond lc it0) (LinkCellQueryIterator.m_current_neighbors it').
Proof.
  induction fuel as [|fuel IH]; intros it it' Hq Hall H; [discriminate|].
  cbn [LinkCellQueryIterator.expand] in H.
  destruct (shell_eq (LinkCellQueryIterator.m_neigh_cell_iter it) last).
  - inversion H; subst. exact Hall.
  - apply bind_Ok in H. destruct H as (it1 & H1 & H).
    apply bind_Ok in H. destruct H as (it2 & H2 & H).
    apply bind_Ok in H. destruct H as (stop & _ & H).
    assert (Hq1 : same_nearest_query it0 it1
                  /\ Forall (nearest_bond lc it0)
                            (LinkCellQueryIterator.m_current_neighbors it1)).
    { destruct (negb (atEnd (LinkCellQueryIterator.m_cell_iter it))).
      - split.
        + apply scan_cell_frame in H1. destruct H1 as (Hs & _).
          exact (same_nearest_query_trans _ _ _ Hq Hs).
        + exact (scan_cell_bonds lc it0 _ _ _ Hq Hall H1).
      - inversion H1; subst. split; assumption. }
    destruct Hq1 as [Hq1 Hall1].
    apply next_cell_frame in H2. destruct H2 as (Hs2 & Hacc2).
    assert (Hq2 : same_nearest_query it0 it2)
      by exact (same_nearest_query_trans _ _ _ Hq1 Hs2).
    rewrite <- Hacc2 in Hall1.
    destruct stop.
    + inversion H; subst.
      cbn [LinkCellQueryIterator.set_current_neighbors
           LinkCellQueryIterator.m_current_neighbors].
      apply (Permutation_Forall (Permutation_sym (sort_bonds_perm _))). exact Hall1.
    + exact (IH _ _ Hq2 Hall1 H).
Qed.

Lemma next_bonds (lc : LinkCell) (fuel : nat) (it it' : LinkCellQueryIterator.t)
    (y : yielded) :
  Forall (nearest_bond lc it) (LinkCellQueryIterator.m_current_neighbors it) ->
  LinkCellQueryIterator.next fuel lc it = Ok (y, it') ->
  same_nearest_query_point it it'
  /\ Forall (nearest_bond lc it) (LinkCellQueryIterator.m_current_neighbors it')
  /\ match y with
     | Yield b => nearest_bond lc it b
     | ITERATOR_TERMINATOR => True
     end.
Proof.
  unfold LinkCellQueryIterator.next. intros Hall H.
  set (it0 := LinkCellQueryIterator.set_searched_cells it _) in H.
  apply bind_Ok in H. destruct H as (it1 & H1 & H).
  assert (Hq0 : same_nearest_query it it0) by (repeat split).
  assert (Hq1 : same_nearest_query it it1
                /\ Forall (nearest_bond lc it)
                          (LinkCellQueryIterator.m_current_neighbors it1)).
  { destruct (LinkCellQueryIterator.size it0 =? 0).
    - split.
      + apply expand_frame in H1. destruct H1 as (Hs & _).
        exact (same_nearest_query_trans _ _ _ Hq0 Hs).
      + exact (expand_bonds lc _ _ it _ _ _ Hq0 Hall H1).
    - inversion H1; subst. split; assumption. }
  destruct Hq1 as [(Hp & Hi & He & _) Hall1].
  destruct (_ && _) in H.
  - apply bind_Ok in H. destruct H as (b & Hb & H). inversion H; subst; clear H.
    cbn [LinkCellQueryIterator.set_count LinkCellQueryIterator.m_current_neighbors
         LinkCellQueryIterator.m_count] in *.
    split; [repeat split; assumption|]. split; [exact Hall1|].
    apply of_option_Ok in Hb.
    pose proof (read_Some _ _ _ Hb) as Hbound.
    rewrite read_eq in Hb by lia. apply nth_error_In in Hb.
    rewrite Forall_forall in Hall1. exact (Hall1 b Hb).
  - inversion H; subst; clear H.
    split; [repeat split; assumption|]. split; [exact Hall1|exact I].
Qed.

Lemma drain_bonds (lc : LinkCell) (fuel : nat) :
  forall (calls : nat) (it it' : LinkCellQueryIterator.t) (bs : list NeighborBond),
    Forall (nearest_bond lc it) (LinkCellQueryIterator.m_current_neighbors it) ->
    LinkCellQueryIterator.drain calls fuel lc it = Ok (bs, it') ->
    Forall (nearest_bond lc it) bs.
Proof.
  induction calls as [|calls IH]; intros it it' bs Hall; [discriminate|].
  cbn [LinkCellQueryIterator.drain]. intros H.
  apply bind_Ok in H. destruct H as ([y it1] & Hn & H).
  destruct (next_bonds lc fuel it it1 y Hall Hn) as ((Hp & Hi & He) & Hall1 & Hy).
  assert (Hsame : forall b, nearest_bond lc it1 b <-> nearest_bond lc it b).
  { intros b. unfold nearest_bond. rewrite Hp, Hi, He. reflexivity. }
  destruct y as [b|].
  - apply bind_Ok in H. destruct H as ([bs' it2] & Hd & H).
    cbn [fst snd] in H. injection H as Hb' Hi'. subst bs it'.
    constructor; [exact Hy|].
    assert (Hall1' : Forall (nearest_bond lc it1)
                            (LinkCellQueryIterator.m_current_neighbors it1)).
    { rewrite Forall_forall in *. intros x Hx. apply Hsame. auto. }
    pose proof (IH it1 it2 bs' Hall1' Hd) as Hbs.
    rewrite Forall_forall in *. intros x Hx. apply Hsame. auto.
  - inversion H; subst. constructor.
Qed.

End NearestBonds.

(** X17.  Every bond a k-nearest iterator yields, from an empty
    accumulator on, joins the query point to a point of the array, at the
    square root of the squared length of their wrapped separation, and is
    not a bond of the query point to itself when self-exclusion is set. *)
Theorem nearest_iterator_yields_measured_bonds {E : Externals} (lc : LinkCell)
    (calls fuel : nat) (it it' : LinkCellQueryIterator.t) (bs : list NeighborBond) :
  LinkCellQueryIterator.m_current_neighbors it = [] ->
  LinkCellQueryIterator.drain calls fuel lc it = Ok (bs, it') ->
  forall b, In b bs ->
    exists j pj,
      point_at lc j = Ok pj
      /\ b = NeighborBond3 (LinkCellQueryIterator.m_query_point_idx it) j
               (fsqrt (wrapped_rsq lc (LinkCellQueryIterator.m_query_point it) pj))
      /\ (LinkCellQueryIterator.m_exclude_ii it = true ->
          point_idx b <> query_point_idx b).
Proof.
  intros Hacc Hd b Hb.
  assert (Hall : Forall (nearest_bond lc it) (LinkCellQueryIterator.m_current_neighbors it))
    by (rewrite Hacc; constructor).
  pose proof (drain_bonds lc fuel calls it it' bs Hall Hd) as Hbs.
  rewrite Forall_forall in Hbs. exact (Hbs b Hb).
Qed.

Lemma nearest_iterator_yields_measured_bonds_witness :
  exists j pj,
    point_at grid5 j = Ok pj
    /\ NeighborBond3 0 1 (fz 1)
       = NeighborBond3 (LinkCellQueryIterator.m_query_point_idx nearest2_of_origin) j
           (fsqrt (wrapped_rsq grid5
                     (LinkCellQueryIterator.m_query_point nearest2_of_origin) pj))
    /\ (LinkCellQueryIterator.m_exclude_ii nearest2_of_origin = true ->
        point_idx (NeighborBond3 0 1 (fz 1)) <> query_point_idx (NeighborBond3 0 1 (fz 1))).
Proof.
  apply (nearest_iterator_yields_measured_bonds (E := SampleExternals) grid5 3 400
           nearest2_of_origin (snd nearest2_drained) (fst nearest2_drained)).
  - reflexivity.
  - reflexivity.
  - right. left. reflexivity.
Defined.

(** ** The result of a ball query *)

Section BallResult.
Context {E : Externals}.

Lemma points_of_cell_In (lc : LinkCell) (c j : Z) :
  In j (points_of_cell lc c) <-> 0 <= j < m_n_points lc /\ cell_of lc j = Some c.
Proof.
  unfold points_of_cell. rewrite filter_In, indices_from_In.
  unfold cell_in, cell_of.
  destruct (option_map (getCell (m_box lc) (m_cell_index lc)) (read (m_points lc) j))
    as [c'|].
  - destruct (Z.eqb_spec c' c); split; intros [Hi Hq]; split; trivial; congruence.
  - split; intros [Hi Hq]; discriminate.
Qed.

Lemma points_of_cell_NoDup (lc : LinkCell) (c : Z) : NoDup (points_of_cell lc c).
Proof. apply NoDup_filter, indices_from_NoDup. Qed.

Lemma points_of_cell_point (lc : LinkCell) (c j : Z) :
  In j (points_of_cell lc c) -> exists pj, point_at lc j = Ok pj.
Proof.
  intros H. apply points_of_cell_In in H. destruct H as [_ H].
  unfold cell_of in H. unfold point_at.
  destruct (read (m_points lc) j) as [pj|]; [exists pj; reflexivity|discriminate].
Qed.

Lemma points_of_cell_disjoint (lc : LinkCell) (c c' j : Z) :
  In j (points_of_cell lc c) -> In j (points_of_cell lc c') -> c = c'.
Proof.
  intros H H'. apply points_of_cell_In in H, H'. destruct H as [_ H], H' as [_ H'].
  congruence.
Qed.

Lemma ball_accepts_same (lc : LinkCell) (it it' : LinkCellQueryBallIterator.t) (j : Z) :
  same_query it it' -> ball_accepts lc it' j = ball_accepts lc it j.
Proof.
  intros (Hr & Hp & Hi & He & _). unfold ball_accepts, LinkCellQueryBallIterator.accepts.
  rewrite Hr, Hp, Hi, He. reflexivity.
Qed.

Lemma ball_cell_same (lc : LinkCell) (it it' : LinkCellQueryBallIterator.t) :
  same_query it it' ->
  LinkCellQueryBallIterator.m_neigh_cell_iter it'
  = LinkCellQueryBallIterator.m_neigh_cell_iter it ->
  ball_cell lc it' = ball_cell lc it.
Proof.
  intros (_ & Hp & _) Hs. unfold ball_cell, home. rewrite Hp, Hs. reflexivity.
Qed.

(** The [for] loop over the rest [suf] of a cell: it stops at the first
    point that is accepted, with the cell iterator there, or goes through
    all of them. *)
Lemma ball_scan_cell_exact (lc : LinkCell) :
  forall (fuel : nat) (it it' : LinkCellQueryBallIterator.t)
         (found : option NeighborBond) (suf : list Z),
    LinkCellQueryBallIterator.scan_cell fuel lc
      (fmul (LinkCellQueryBallIterator.m_r it) (LinkCellQueryBallIterator.m_r it)) it
    = Ok (found, it') ->
    chain (m_cell_list lc) (LinkCellQueryBallIterator.m_cell_iter it) suf ->
    match found with
    | Some b =>
        exists pre' suf',
          suf = pre' ++ point_idx b :: suf'
          /\ (forall x, In x pre' -> ball_accepts lc it x = false)
          /\ ball_accepts lc it (point_idx b) = true
          /\ chain (m_cell_list lc) (LinkCellQueryBallIterator.m_cell_iter it') suf'
    | None => forall x, In x suf -> ball_accepts lc it x = false
    end.
Proof.
  induction fuel as [|fuel IH]; intros it it' found suf H Hc; [discriminate|].
  cbn [LinkCellQueryBallIterator.scan_cell] in H.
  apply bind_Ok in H. destruct H as (j & Hj & H).
  unfold cell_next in Hj. apply of_option_Ok in Hj.
  destruct suf as [|x suf]; cbn [chain] in Hc.
  - rewrite Hc in Hj. injection Hj as <-.
    unfold atEnd in H. rewrite Z.eqb_refl in H. inversion H; subst.
    intros x [].
  - destruct Hc as (Hrd & Hne & Hc). rewrite Hrd in Hj. injection Hj as <-.
    unfold atEnd in H. destruct (Z.eqb_spec x LINK_CELL_TERMINATOR) as [|_];
      [contradiction|].
    apply bind_Ok in H. destruct H as (pj & Hpj & H).
    assert (Hacc : ball_accepts lc it x
                   = LinkCellQueryBallIterator.accepts
                       (LinkCellQueryBallIterator.set_cell_iter it x)
                       (fmul (LinkCellQueryBallIterator.m_r it)
                             (LinkCellQueryBallIterator.m_r it))
                       (wrapped_rsq lc
                          (LinkCellQueryBallIterator.m_query_point
                             (LinkCellQueryBallIterator.set_cell_iter it x)) pj) x).
    { unfold ball_accepts. unfold point_at in Hpj. apply of_option_Ok in Hpj.
      rewrite Hpj. reflexivity. }
    destruct (LinkCellQueryBallIterator.accepts _ _ _ _) eqn:Ha in H.
    + inversion H; subst; clear H.
      cbn [NeighborBond3 point_idx LinkCellQueryBallIterator.set_cell_iter
           LinkCellQueryBallIterator.m_cell_iter].
      exists [], suf. split; [reflexivity|]. split; [intros ? []|].
      split; [rewrite Hacc; exact Ha|exact Hc].
    + specialize (IH (LinkCellQueryBallIterator.set_cell_iter it x) it' found suf H Hc).
      destruct found as [b|].
      * destruct IH as (pre' & suf' & -> & Hpre & Hb & Hch).
        exists (x :: pre'), suf'. split; [reflexivity|]. split.
        { intros y [<-|Hy]; [rewrite Hacc; exact Ha|].
          exact (Hpre y Hy). }
        split; [exact Hb|exact Hch].
      * intros y [<-|Hy]; [rewrite Hacc; exact Ha|].
        exact (IH y Hy).
Qed.

(** The inner loop: it leaves the cells searched as they were when it runs
    out of range, and otherwise adds the cell it stops at, which had not
    been searched, with the cell iterator at its head. *)
Lemma ball_next_cell_exact (lc : LinkCell) (it0 : LinkCellQueryBallIterator.t) :
  forall (fuel : nat) (it it' : LinkCellQueryBallIterator.t) (out : bool),
    LinkCellQueryBallIterator.next_cell fuel lc (home lc it0) it = Ok (out, it') ->
    same_query it0 it ->
    same_query it0 it'
    /\ if out
       then LinkCellQueryBallIterator.m_searched_cells it'
            = LinkCellQueryBallIterator.m_searched_cells it
       else searched (LinkCellQueryBallIterator.m_searched_cells it) (ball_cell lc it')
            = false
            /\ LinkCellQueryBallIterator.m_searched_cells it'
               = ball_cell lc it' :: LinkCellQueryBallIterator.m_searched_cells it
            /\ LinkCellQueryBallIterator.m_cell_iter it' = itercell lc (ball_cell lc it').
Proof.
  induction fuel as [|fuel IH]; intros it it' out H Hq; [discriminate|].
  cbn [LinkCellQueryBallIterator.next_cell] in H.
  set (it1 := LinkCellQueryBallIterator.set_neigh_cell_iter it _) in H.
  assert (Hq1 : same_query it0 it1) by exact Hq.
  destruct (LinkCellQueryBallIterator.out_of_range lc it1 _).
  - inversion H; subst. split; [exact Hq1|reflexivity].
  - set (c2 := getCellIndex (m_cell_index lc)
                 (vadd_int (home lc it0)
                    (shell_deref (LinkCellQueryBallIterator.m_neigh_cell_iter it1)))) in *.
    pose proof (insert_cell_spec (LinkCellQueryBallIterator.m_searched_cells it1) c2)
      as Hins.
    destruct (insert_cell (LinkCellQueryBallIterator.m_searched_cells it1) c2)
      as [cells fresh].
    destruct Hins as (_ & _ & Hins). destruct fresh.
    + destruct Hins as [Hnew ->].
      assert (Ho : out = false) by congruence.
      assert (Hi : it' = LinkCellQueryBallIterator.set_cell_iter
                           (LinkCellQueryBallIterator.set_searched_cells it1
                              (c2 :: LinkCellQueryBallIterator.m_searched_cells it1))
                           (itercell lc c2)) by congruence.
      subst out it'. clear H.
      split; [exact Hq1|].
      assert (Hcell : ball_cell lc
                        (LinkCellQueryBallIterator.set_cell_iter
                           (LinkCellQueryBallIterator.set_searched_cells it1
                              (c2 :: LinkCellQueryBallIterator.m_searched_cells it1))
                           (itercell lc c2))
                      = c2).
      { unfold ball_cell, home, c2.
        cbn [LinkCellQueryBallIterator.set_cell_iter
             LinkCellQueryBallIterator.set_searched_cells
             LinkCellQueryBallIterator.m_query_point
             LinkCellQueryBallIterator.m_neigh_cell_iter].
        destruct Hq1 as (_ & Hp1 & _). rewrite Hp1. reflexivity. }
      rewrite Hcell. split; [exact Hnew|]. split; reflexivity.
    + subst cells. apply (IH it1 it' out H Hq1).
Qed.

(** The invariant once the current cell is among the cells searched. *)
Lemma ball_search_exact (lc : LinkCell) (it0 : LinkCellQueryBallIterator.t) :
  cell_list_complete lc -> grid_closed lc ->
  forall (fuel : nat) (it it' : LinkCellQueryBallIterator.t) (y : yielded) (ys : list Z),
    LinkCellQueryBallIterator.search fuel lc (home lc it0)
      (fmul (LinkCellQueryBallIterator.m_r it0) (LinkCellQueryBallIterator.m_r it0)) it
    = Ok (y, it') ->
    ball_inv lc it0 it ys ->
    searched (LinkCellQueryBallIterator.m_searched_cells it) (ball_cell lc it) = true ->
    match y with
    | Yield b => ball_inv lc it0 it' (ys ++ [point_idx b])
    | ITERATOR_TERMINATOR => ball_result lc it0 it' ys
    end.
Proof.
  intros (Hn & Hbound & Hcomplete) Hclosed.
  induction fuel as [|fuel IH]; intros it it' y ys H Hinv Hcur; [discriminate|].
  cbn [LinkCellQueryBallIterator.search] in H.
  apply bind_Ok in H. destruct H as ([found it1] & Hscan & H).
  destruct Hinv as (Hq & pre & suf & Hsplit & Hchain & Hnd & Hys).
  pose proof (scan_cell_spec _ _ _ _ _ _ Hscan) as (Hq1 & Hsh1 & Hse1 & _ & _).
  assert (Hq01 : same_query it0 it1) by exact (same_query_trans _ _ _ Hq Hq1).
  assert (Hcell1 : ball_cell lc it1 = ball_cell lc it)
    by exact (ball_cell_same lc it it1 Hq1 Hsh1).
  assert (Hr : fmul (LinkCellQueryBallIterator.m_r it0) (LinkCellQueryBallIterator.m_r it0)
               = fmul (LinkCellQueryBallIterator.m_r it) (LinkCellQueryBallIterator.m_r it)).
  { destruct Hq as (-> & _). reflexivity. }
  rewrite Hr in Hscan.
  pose proof (ball_scan_cell_exact lc _ _ _ _ suf Hscan Hchain) as Hfound.
  assert (Hacc : forall x, ball_accepts lc it x = ball_accepts lc it0 x)
    by (intros x; apply ball_accepts_same; exact Hq).
  destruct found as [b|].
  - inversion H; subst; clear H.
    destruct Hfound as (pre' & suf' & -> & Hpre' & Hb & Hch').
    rewrite Hacc in Hb.
    assert (Hnd' : NoDup (pre ++ pre' ++ point_idx b :: suf')).
    { rewrite <- Hsplit. apply points_of_cell_NoDup. }
    assert (Hbin : In (point_idx b) (points_of_cell lc (ball_cell lc it))).
    { rewrite Hsplit. rewrite !in_app_iff. right. right. left. reflexivity. }
    assert (Hnew : ~ In (point_idx b) ys).
    { intros Hin. apply Hys in Hin. destruct Hin as (_ & [Hp|(c' & Hc' & Hin' & _)]).
      - apply NoDup_app_remove_r in Hnd' as Hndp.
        clear - Hnd' Hp. induction pre as [|a pre IHp]; [destruct Hp|].
        cbn [app] in Hnd'. inversion Hnd' as [|? ? Hna Hnd'']; subst.
        destruct Hp as [->|Hp].
        + apply Hna. rewrite !in_app_iff. right. right. left. reflexivity.
        + exact (IHp Hnd'' Hp).
      - apply Hc'. exact (points_of_cell_disjoint lc _ _ _ Hin' Hbin). }
    split; [exact Hq01|].
    exists (pre ++ pre' ++ [point_idx b]), suf'.
    rewrite Hcell1, Hse1.
    split; [rewrite Hsplit, <- !app_assoc; reflexivity|].
    split; [exact Hch'|]. split.
    { apply NoDup_app_remove_l with (l := []). cbn [app].
      apply (Permutation_NoDup (l := point_idx b :: ys)).
      - apply Permutation_cons_append.
      - constructor; assumption. }
    intros j. rewrite in_app_iff. cbn [In]. split.
    + intros [Hj|[<-|[]]].
      * apply Hys in Hj. destruct Hj as (Ha & [Hp|Ho]); split; trivial.
        -- left. rewrite in_app_iff. left. exact Hp.
        -- right. exact Ho.
      * split; [exact Hb|]. left. rewrite !in_app_iff. right. right. left. reflexivity.
    + intros (Ha & [Hp|Ho]).
      * rewrite !in_app_iff in Hp. destruct Hp as [Hp|[Hp|[<-|[]]]].
        -- left. apply Hys. split; [exact Ha|left; exact Hp].
        -- specialize (Hpre' j Hp). rewrite Hacc in Hpre'. congruence.
        -- right. left. reflexivity.
      * left. apply Hys. split; [exact Ha|right; exact Ho].
  - apply bind_Ok in H. destruct H as ([out it2] & Hmove & H).
    pose proof (ball_next_cell_exact lc it0 _ _ _ _ Hmove Hq01) as (Hq02 & Hout).
    assert (Hdone : forall j, In j ys <->
                      ball_accepts lc it0 j = true
                      /\ exists c, In j (points_of_cell lc c)
                           /\ searched (LinkCellQueryBallIterator.m_searched_cells it) c
                              = true).
    { intros j. rewrite Hys. split; intros (Ha & Hw); split; trivial.
      - destruct Hw as [Hp|(c' & _ & Hin & Hs)].
        + exists (ball_cell lc it). split; [|exact Hcur].
          rewrite Hsplit, in_app_iff. left. exact Hp.
        + exists c'. split; assumption.
      - destruct Hw as (c & Hin & Hs).
        destruct (Z.eq_dec c (ball_cell lc it)) as [->|Hne].
        + left. rewrite Hsplit, in_app_iff in Hin. destruct Hin as [Hp|Hsuf]; [exact Hp|].
          specialize (Hfound j Hsuf). rewrite Hacc in Hfound. congruence.
        + right. exists c. repeat split; assumption. }
    destruct out.
    + inversion H; subst; clear H. split; [exact Hnd|].
      cbn [LinkCellQueryBallIterator.set_finished
           LinkCellQueryBallIterator.m_searched_cells].
      rewrite Hout, Hse1. exact Hdone.
    + destruct Hout as (Hfresh & Hlist & Hcursor).
      apply (IH it2 it' y ys H).
      * split; [exact Hq02|].
        exists [], (points_of_cell lc (ball_cell lc it2)).
        split; [reflexivity|]. split.
        { rewrite Hcursor. unfold itercell.
          pose proof (Hclosed (vadd_int (home lc it2)
                         (shell_deref (LinkCellQueryBallIterator.m_neigh_cell_iter it2))))
            as Hg.
          fold (ball_cell lc it2) in Hg. unfold in_grid in Hg.
          apply andb_prop in Hg. destruct Hg as [Hg1 Hg2].
          apply Z.leb_le in Hg1. apply Z.ltb_lt in Hg2.
          rewrite u32_small by lia. apply Hcomplete. lia. }
        split; [exact Hnd|].
        intros j. rewrite Hdone, Hlist, Hse1. split.
        -- intros (Ha & c & Hin & Hs). split; [exact Ha|]. right.
           exists c. split; [|split; [exact Hin|]].
           ++ intros ->. rewrite Hse1 in Hfresh. congruence.
           ++ rewrite searched_cons, Hs. apply orb_true_r.
        -- intros (Ha & [[]|(c & Hne & Hin & Hs)]). split; [exact Ha|].
           exists c. split; [exact Hin|].
           rewrite searched_cons in Hs. apply orb_prop in Hs.
           destruct Hs as [Hs|Hs]; [apply Z.eqb_eq in Hs; contradiction|exact Hs].
      * rewrite Hlist, searched_cons, Z.eqb_refl. reflexivity.
Qed.

Lemma ball_next_exact (lc : LinkCell) (it0 : LinkCellQueryBallIterator.t)
    (fuel : nat) (it it' : LinkCellQueryBallIterator.t) (y : yielded) (ys : list Z) :
  cell_list_complete lc -> grid_closed lc ->
  LinkCellQueryBallIterator.next fuel lc it = Ok (y, it') ->
  ball_inv lc it0 it ys ->
  match y with
  | Yield b => ball_inv lc it0 it' (ys ++ [point_idx b])
  | ITERATOR_TERMINATOR => ball_result lc it0 it' ys
  end.
Proof.
  intros Hcomplete Hclosed H Hinv. unfold LinkCellQueryBallIterator.next in H.
  destruct Hinv as (Hq & pre & suf & Hsplit & Hchain & Hnd & Hys).
  assert (Hhome : getCellCoord (m_box lc) (m_cell_index lc)
                    (LinkCellQueryBallIterator.m_query_point it) = home lc it0).
  { unfold home. destruct Hq as (_ & -> & _). reflexivity. }
  assert (Hrr : fmul (LinkCellQueryBallIterator.m_r it) (LinkCellQueryBallIterator.m_r it)
                = fmul (LinkCellQueryBallIterator.m_r it0)
                       (LinkCellQueryBallIterator.m_r it0)).
  { destruct Hq as (-> & _). reflexivity. }
  rewrite Hhome, Hrr in H.
  assert (Hcell : getCellIndex (m_cell_index lc)
                    (vadd_int (home lc it0)
                       (shell_deref (LinkCellQueryBallIterator.m_neigh_cell_iter it)))
                  = ball_cell lc it).
  { unfold ball_cell, home. destruct Hq as (_ & -> & _). reflexivity. }
  rewrite Hcell in H.
  pose proof (insert_cell_spec (LinkCellQueryBallIterator.m_searched_cells it)
                (ball_cell lc it)) as Hins.
  destruct (insert_cell (LinkCellQueryBallIterator.m_searched_cells it) (ball_cell lc it))
    as [cells fresh] eqn:Hic.
  cbn [fst] in H. destruct Hins as (Hin & Hmono & Hcase).
  refine (ball_search_exact lc it0 Hcomplete Hclosed fuel _ it' y ys H _ Hin).
  split; [exact Hq|]. exists pre, suf.
  split; [exact Hsplit|]. split; [exact Hchain|]. split; [exact Hnd|].
  intros j. rewrite Hys.
  change (ball_cell lc (LinkCellQueryBallIterator.set_searched_cells it cells))
    with (ball_cell lc it).
  cbn [LinkCellQueryBallIterator.set_searched_cells
       LinkCellQueryBallIterator.m_searched_cells].
  split; intros (Ha & Hw); (split; [exact Ha|]);
    (destruct Hw as [Hp|(c' & Hne & Hin' & Hs)]; [left; exact Hp|right]);
    exists c'; (split; [exact Hne|]); (split; [exact Hin'|]).
  - apply Hmono. exact Hs.
  - destruct fresh.
    + destruct Hcase as [_ ->]. rewrite searched_cons in Hs. apply orb_prop in Hs.
      destruct Hs as [Hs|Hs]; [apply Z.eqb_eq in Hs; contradiction|exact Hs].
    + subst cells. exact Hs.
Qed.

Lemma ball_drain_exact (lc : LinkCell) (it0 : LinkCellQueryBallIterator.t) (fuel : nat) :
  cell_list_complete lc -> grid_closed lc ->
  forall (calls : nat) (it it' : LinkCellQueryBallIterator.t)
         (bs : list NeighborBond) (ys : list Z),
    LinkCellQueryBallIterator.drain calls fuel lc it = Ok (bs, it') ->
    ball_inv lc it0 it ys ->
    ball_result lc it0 it' (ys ++ map point_idx bs).
Proof.
  intros Hcomplete Hclosed.
  induction calls as [|calls IH]; intros it it' bs ys H Hinv; [discriminate|].
  cbn [LinkCellQueryBallIterator.drain] in H.
  apply bind_Ok in H. destruct H as ([y it1] & Hn & H).
  pose proof (ball_next_exact lc it0 fuel it it1 y ys Hcomplete Hclosed Hn Hinv) as Hy.
  destruct y as [b|].
  - apply bind_Ok in H. destruct H as ([bs' it2] & Hd & H).
    cbn [fst snd] in H. injection H as Hb Hi. subst bs it'.
    cbn [map]. replace (ys ++ point_idx b :: map point_idx bs')
      with ((ys ++ [point_idx b]) ++ map point_idx bs')
      by (rewrite <- app_assoc; reflexivity).
    exact (IH it1 it2 bs' _ Hd Hy).
  - injection H as Hb Hi. subst bs it'. cbn [map]. rewrite app_nil_r. exact Hy.
Qed.

Lemma ball_fresh_inv (lc : LinkCell) (it : LinkCellQueryBallIterator.t) :
  cell_list_complete lc -> grid_closed lc ->
  ball_fresh lc it -> ball_inv lc it it [].
Proof.
  intros (Hn & Hbound & Hcomplete) Hclosed (Hs & Hc).
  split; [apply same_query_refl|].
  exists [], (points_of_cell lc (ball_cell lc it)).
  split; [reflexivity|]. split.
  { rewrite Hc. unfold itercell.
    pose proof (Hclosed (vadd_int (home lc it)
                   (shell_deref (LinkCellQueryBallIterator.m_neigh_cell_iter it)))) as Hg.
    fold (ball_cell lc it) in Hg. unfold in_grid in Hg.
    apply andb_prop in Hg. destruct Hg as [Hg1 Hg2].
    apply Z.leb_le in Hg1. apply Z.ltb_lt in Hg2.
    rewrite u32_small by lia. apply Hcomplete. lia. }
  split; [constructor|].
  intros j. split; [intros []|].
  intros (_ & [[]|(c' & _ & _ & Hsc)]). rewrite Hs in Hsc. discriminate.
Qed.

End BallResult.

(** The list the constructor builds is complete. *)
Lemma LinkCell_of_points_complete {E : Externals} (box : Box) (cell_width : float)
    (points : list (vec3 float)) (n : Z) (lc : LinkCell) :
  LinkCell_of_points box cell_width points n = Ok lc ->
  0 < n <= 2 ^ 31 ->
  n <= Z.of_nat (List.length points) ->
  0 <= getNumCells lc -> n + getNumCells lc < 2 ^ 32 ->
  cells_in_grid (m_box lc) (m_cell_index lc) points = true ->
  ~ (0 <= LINK_CELL_TERMINATOR < n) ->
  cell_list_complete lc.
Proof.
  unfold LinkCell_of_points. intros H Hn Hlen HNc Hb Hgrid Hterm.
  apply bind_Ok in H. destruct H as (lc1 & H1 & Hcc).
  pose proof (updateBox_after_update _ _ _ _ H1) as H2.
  pose proof (updateInternal_frame _ _ _ _ H1) as (Hn1 & _).
  cbn [LinkCell_init m_n_points] in Hn1.
  assert (Hcached : m_n_points lc1 = n -> m_Nc lc1 = getNumCells lc1 ->
                    Z.of_nat (List.length (m_cell_list lc1)) = n + getNumCells lc1) by lia.
  assert (Hsame : m_box lc = m_box lc1 /\ m_cell_index lc = m_cell_index lc1
                  /\ m_n_points lc = n /\ m_Nc lc = getNumCells lc1).
  { pose proof Hcc as Hcc'. unfold computeCellList in Hcc'. rewrite H2 in Hcc'.
    cbn [bind] in Hcc'. destruct (n =? 0); [discriminate|].
    apply bind_Ok in Hcc'. destruct Hcc' as (l1 & _ & Hcc').
    apply bind_Ok in Hcc'. destruct Hcc' as (l2 & _ & Hcc').
    inversion Hcc'; subst lc. repeat split. }
  destruct Hsame as (Hbx & Hix & Hnp & HNc').
  unfold getNumCells in *. rewrite Hix in HNc, Hb. rewrite Hbx, Hix in Hgrid.
  unfold cell_list_complete. rewrite Hnp, HNc'. unfold getNumCells.
  split; [lia|]. split; [lia|].
  intros c Hc.
  exact (computeCellList_chained lc1 lc1 lc box points n H2 Hcc Hn Hlen HNc Hb
           Hcached Hgrid Hterm c Hc).
Qed.

Lemma grid2_complete : cell_list_complete grid2.
Proof.
  apply (LinkCell_of_points_complete (E := SampleExternals) cube10 (fz 5) three_points 3).
  - reflexivity.
  - lia.
  - apply Z.leb_le. reflexivity.
  - apply Z.leb_le. reflexivity.
  - apply Z.ltb_lt. reflexivity.
  - reflexivity.
  - change (LINK_CELL_TERMINATOR (Externals := SampleExternals)) with 4294967295. lia.
Qed.

(** X18.  Over a cell list as [computeCellList] builds it, a ball iterator
    driven from its initial state to exhaustion yields exactly the points
    of the cells it searched that pass its test, the squared distance below
    [m_r * m_r] and the index unlike that of the query point under
    self-exclusion: every such point once, and no other. *)
Theorem ball_iterator_yields_the_accepted_points {E : Externals} (lc : LinkCell)
    (calls fuel : nat) (it it' : LinkCellQueryBallIterator.t) (bs : list NeighborBond) :
  cell_list_complete lc ->
  grid_closed lc ->
  ball_fresh lc it ->
  LinkCellQueryBallIterator.drain calls fuel lc it = Ok (bs, it') ->
  NoDup (map point_idx bs)
  /\ forall j, In j (map point_idx bs) <->
       ball_accepts lc it j = true
       /\ exists c, (0 <= j < m_n_points lc /\ cell_of lc j = Some c)
            /\ searched (LinkCellQueryBallIterator.m_searched_cells it') c = true.
Proof.
  intros Hcomplete Hclosed Hfresh Hd.
  pose proof (ball_drain_exact lc it fuel Hcomplete Hclosed calls it it' bs [] Hd
                (ball_fresh_inv lc it Hcomplete Hclosed Hfresh)) as [Hnd Hys].
  cbn [app] in Hnd, Hys. split; [exact Hnd|].
  intros j. rewrite Hys. split; intros (Ha & c & Hin & Hs); (split; [exact Ha|]);
    exists c; (split; [|exact Hs]); apply points_of_cell_In; exact Hin.
Qed.

Lemma ball_iterator_yields_the_accepted_points_witness :
  NoDup (map point_idx (fst ball5_drained))
  /\ forall j, In j (map point_idx (fst ball5_drained)) <->
       ball_accepts grid2 (ball5_of_origin 1) j = true
       /\ exists c, (0 <= j < m_n_points grid2 /\ cell_of grid2 j = Some c)
            /\ searched (LinkCellQueryBallIterator.m_searched_cells (snd ball5_drained)) c
               = true.
Proof.
  apply (ball_iterator_yields_the_accepted_points (E := SampleExternals) grid2 4 200
           (ball5_of_origin 1) (snd ball5_drained) (fst ball5_drained)).
  - exact grid2_complete.
  - exact grid2_closed.
  - split; reflexivity.
  - reflexivity.
Defined.

(** ** The accumulator of a k-nearest query *)

Section NearestResult.
Context {E : Externals}.

Lemma nearest_eligible_same (it it' : LinkCellQueryIterator.t) (j : Z) :
  same_nearest_query_point it it' -> nearest_eligible it' j = nearest_eligible it j.
Proof.
  intros (_ & Hi & He). unfold nearest_eligible. rewrite Hi, He. reflexivity.
Qed.

Lemma same_nearest_query_point_step (a b c : LinkCellQueryIterator.t) :
  same_nearest_query_point a b -> same_nearest_query b c ->
  same_nearest_query_point a c.
Proof.
  intros (Hp & Hi & He) (Hp' & Hi' & He' & _). repeat split; congruence.
Qed.

(** The [for] loop over the rest [suf] of a cell takes the eligible points
    of it, in order, and leaves the cell iterator at its end. *)
Lemma nearest_scan_cell_exact (lc : LinkCell) :
  forall (fuel : nat) (it it' : LinkCellQueryIterator.t) (suf : list Z),
    LinkCellQueryIterator.scan_cell fuel lc it = Ok it' ->
    chain (m_cell_list lc) (LinkCellQueryIterator.m_cell_iter it) suf ->
    map point_idx (LinkCellQueryIterator.m_current_neighbors it')
    = map point_idx (LinkCellQueryIterator.m_current_neighbors it)
      ++ filter (nearest_eligible it) suf.
Proof.
  induction fuel as [|fuel IH]; intros it it' suf H Hc; [discriminate|].
  cbn [LinkCellQueryIterator.scan_cell] in H.
  apply bind_Ok in H. destruct H as (j & Hj & H).
  unfold cell_next in Hj. apply of_option_Ok in Hj.
  destruct suf as [|x suf]; cbn [chain] in Hc.
  - rewrite Hc in Hj. injection Hj as <-.
    unfold atEnd in H. rewrite Z.eqb_refl in H.
    assert (Hi : it' = LinkCellQueryIterator.set_cell_iter it LINK_CELL_TERMINATOR)
      by congruence.
    subst it'. cbn [filter]. rewrite app_nil_r. reflexivity.
  - destruct Hc as (Hrd & Hne & Hc). rewrite Hrd in Hj. injection Hj as <-.
    unfold atEnd in H. destruct (Z.eqb_spec x LINK_CELL_TERMINATOR) as [|_];
      [contradiction|].
    cbn [filter]. unfold nearest_eligible at 1.
    change (LinkCellQueryIterator.m_exclude_ii (LinkCellQueryIterator.set_cell_iter it x))
      with (LinkCellQueryIterator.m_exclude_ii it) in H.
    change (LinkCellQueryIterator.m_query_point_idx
              (LinkCellQueryIterator.set_cell_iter it x))
      with (LinkCellQueryIterator.m_query_point_idx it) in H.
    destruct (LinkCellQueryIterator.m_exclude_ii it
              && (LinkCellQueryIterator.m_query_point_idx it =? x)).
    + cbn [negb].
      exact (IH (LinkCellQueryIterator.set_cell_iter it x) it' suf H Hc).
    + cbn [negb]. apply bind_Ok in H. destruct H as (pj & _ & H).
      pose proof (IH _ it' suf H Hc) as Hrec.
      rewrite Hrec.
      cbn [LinkCellQueryIterator.set_current_neighbors
           LinkCellQueryIterator.set_cell_iter
           LinkCellQueryIterator.m_current_neighbors].
      rewrite map_app. cbn [map NeighborBond3 point_idx].
      rewrite <- app_assoc. reflexivity.
Qed.

Lemma nearest_next_cell_exact (lc : LinkCell) (it0 : LinkCellQueryIterator.t)
    (last : IteratorCellShell) :
  forall (fuel : nat) (it it' : LinkCellQueryIterator.t),
    LinkCellQueryIterator.next_cell fuel lc (nearest_home lc it0) last it = Ok it' ->
    (LinkCellQueryIterator.m_searched_cells it'
     = LinkCellQueryIterator.m_searched_cells it
     /\ LinkCellQueryIterator.m_cell_iter it' = LinkCellQueryIterator.m_cell_iter it)
    \/ exists c2,
         c2 = getCellIndex (m_cell_index lc)
                (vadd_int (nearest_home lc it0)
                   (shell_deref (LinkCellQueryIterator.m_neigh_cell_iter it')))
         /\ searched (LinkCellQueryIterator.m_searched_cells it) c2 = false
         /\ LinkCellQueryIterator.m_searched_cells it'
            = c2 :: LinkCellQueryIterator.m_searched_cells it
         /\ LinkCellQueryIterator.m_cell_iter it' = itercell lc c2.
Proof.
  induction fuel as [|fuel IH]; intros it it' H; [discriminate|].
  cbn [LinkCellQueryIterator.next_cell] in H.
  set (it1 := LinkCellQueryIterator.set_neigh_cell_iter it _) in H.
  destruct (shell_eq (LinkCellQueryIterator.m_neigh_cell_iter it1) last).
  - assert (Hi : it' = it1) by congruence. subst it'. left. split; reflexivity.
  - set (c2 := getCellIndex (m_cell_index lc)
                 (vadd_int (nearest_home lc it0)
                    (shell_deref (LinkCellQueryIterator.m_neigh_cell_iter it1)))) in *.
    pose proof (insert_cell_spec (LinkCellQueryIterator.m_searched_cells it1) c2) as Hins.
    destruct (insert_cell (LinkCellQueryIterator.m_searched_cells it1) c2)
      as [cells fresh].
    destruct Hins as (_ & _ & Hins). destruct fresh.
    + destruct Hins as [Hnew ->].
      assert (Hi : it' = LinkCellQueryIterator.set_cell_iter
                           (LinkCellQueryIterator.set_searched_cells it1
                              (c2 :: LinkCellQueryIterator.m_searched_cells it1))
                           (itercell lc c2)) by congruence.
      subst it'. right. exists c2. repeat split. exact Hnew.
    + subst cells. destruct (IH it1 it' H) as [[Hs Hc]|(c & Hc & Hn & Hl & Hcur)].
      * left. split; [exact Hs|exact Hc].
      * right. exists c. repeat split; assumption.
Qed.

Lemma nearest_expand_exact (lc : LinkCell) (it0 : LinkCellQueryIterator.t)
    (last : IteratorCellShell) :
  cell_list_complete lc -> grid_closed lc ->
  ~ (0 <= LINK_CELL_TERMINATOR < m_n_points lc + m_Nc lc) ->
  forall (fuel : nat) (it it' : LinkCellQueryIterator.t) (p : option Z),
    LinkCellQueryIterator.expand fuel lc (nearest_home lc it0) last it = Ok it' ->
    nearest_inv lc it0 it p ->
    exists p', nearest_inv lc it0 it' p'.
Proof.
  intros (Hn & Hbound & Hcomplete) Hclosed Hterm.
  induction fuel as [|fuel IH]; intros it it' p H Hinv; [discriminate|].
  cbn [LinkCellQueryIterator.expand] in H.
  destruct (shell_eq (LinkCellQueryIterator.m_neigh_cell_iter it) last).
  - assert (Hi : it' = it) by congruence. subst it'. exists p. exact Hinv.
  - apply bind_Ok in H. destruct H as (it1 & H1 & H).
    apply bind_Ok in H. destruct H as (it2 & H2 & H).
    apply bind_Ok in H. destruct H as (stop & _ & H).
    (* the scan of the pending cell *)
    assert (Hinv1 : nearest_inv lc it0 it1 None).
    { destruct Hinv as (Hq & Hp & Hnd & Hacc).
      destruct p as [cp|]; cbn [nearest_pending] in Hp.
      - destruct Hp as (Hne & Hcur & Hcp & Hscp). rewrite Hne in H1. cbn [negb] in H1.
        pose proof (scan_cell_frame _ _ _ _ H1) as (Hq1 & _ & Hse1 & _ & Hend1).
        pose proof (Hcomplete cp Hcp) as Hchain. rewrite <- Hcur in Hchain.
        pose proof (nearest_scan_cell_exact lc _ _ _ _ H1 Hchain) as Hmap.
        assert (Hel : forall x, nearest_eligible it x = nearest_eligible it0 x)
          by (intros x; apply nearest_eligible_same; exact Hq).
        split; [exact (same_nearest_query_point_step _ _ _ Hq Hq1)|].
        split; [exact Hend1|]. rewrite Hmap, Hse1. split.
        + apply NoDup_app; [exact Hnd| |].
          * apply NoDup_filter, points_of_cell_NoDup.
          * intros x Hx Hx'. apply Hacc in Hx. destruct Hx as (_ & c & Hin & _ & Hcne).
            apply filter_In in Hx'. destruct Hx' as [Hx' _].
            apply Hcne. f_equal. exact (points_of_cell_disjoint lc _ _ _ Hin Hx').
        + intros j. rewrite in_app_iff, Hacc, filter_In, Hel. split.
          * intros [(He & c & Hin & Hs & Hc)|[Hin He]]; (split; [exact He|]).
            -- exists c. repeat split; trivial. discriminate.
            -- exists cp. repeat split; trivial. discriminate.
          * intros (He & c & Hin & Hs & _).
            destruct (Z.eq_dec c cp) as [->|Hc].
            -- right. split; assumption.
            -- left. split; [exact He|]. exists c. repeat split; trivial. congruence.
      - rewrite Hp in H1. cbn [negb] in H1.
        assert (Hi : it1 = it) by congruence. subst it1.
        split; [exact Hq|]. split; [exact Hp|]. split; [exact Hnd|exact Hacc]. }
    (* the step to the next cell *)
    assert (Hinv2 : exists p2, nearest_inv lc it0 it2 p2).
    { destruct Hinv1 as (Hq1 & Hp1 & Hnd1 & Hacc1). cbn [nearest_pending] in Hp1.
      pose proof (next_cell_frame _ _ _ _ _ _ H2) as (Hq2 & Hacc2).
      assert (Hq02 : same_nearest_query_point it0 it2)
        by exact (same_nearest_query_point_step _ _ _ Hq1 Hq2).
      destruct (nearest_next_cell_exact lc it0 last _ _ _ H2)
        as [[Hs Hc]|(c2 & Hc2 & Hnew & Hlist & Hcur)].
      - exists None. split; [exact Hq02|]. split; [cbn; rewrite Hc; exact Hp1|].
        rewrite Hacc2, Hs. split; [exact Hnd1|exact Hacc1].
      - assert (Hgrid : 0 <= c2 < m_Nc lc).
        { pose proof (Hclosed (vadd_int (nearest_home lc it0)
                         (shell_deref (LinkCellQueryIterator.m_neigh_cell_iter it2))))
            as Hg.
          rewrite <- Hc2 in Hg. unfold in_grid in Hg.
          apply andb_prop in Hg. destruct Hg as [Hg1 Hg2].
          apply Z.leb_le in Hg1. apply Z.ltb_lt in Hg2. lia. }
        exists (Some c2). split; [exact Hq02|]. split.
        + cbn [nearest_pending]. rewrite Hcur. unfold itercell.
          rewrite u32_small by lia. unfold atEnd.
          split; [apply Z.eqb_neq; intros He; apply Hterm; lia|].
          split; [reflexivity|]. split; [exact Hgrid|].
          rewrite Hlist, searched_cons, Z.eqb_refl. reflexivity.
        + rewrite Hacc2, Hlist. split; [exact Hnd1|].
          intros j. rewrite Hacc1. split.
          * intros (He & c & Hin & Hs & _). split; [exact He|].
            exists c. split; [exact Hin|]. split.
            -- rewrite searched_cons, Hs. apply orb_true_r.
            -- intros Heq. injection Heq as ->. congruence.
          * intros (He & c & Hin & Hs & Hc). split; [exact He|].
            exists c. split; [exact Hin|]. split; [|discriminate].
            rewrite searched_cons in Hs. apply orb_prop in Hs.
            destruct Hs as [Hs|Hs]; [|exact Hs].
            apply Z.eqb_eq in Hs. subst c. contradiction. }
    destruct Hinv2 as [p2 Hinv2].
    destruct stop.
    + assert (Hi : it' = LinkCellQueryIterator.set_current_neighbors it2
                           (sort_bonds (LinkCellQueryIterator.m_current_neighbors it2)))
        by congruence.
      subst it'. exists p2.
      destruct Hinv2 as (Hq2 & Hp2 & Hnd2 & Hacc2).
      assert (Hperm : Permutation
                        (map point_idx
                           (sort_bonds (LinkCellQueryIterator.m_current_neighbors it2)))
                        (map point_idx (LinkCellQueryIterator.m_current_neighbors it2)))
        by (apply Permutation_map, sort_bonds_perm).
      split; [exact Hq2|]. split; [destruct p2; exact Hp2|].
      cbn [LinkCellQueryIterator.set_current_neighbors
           LinkCellQueryIterator.m_current_neighbors
           LinkCellQueryIterator.m_searched_cells].
      split.
      * exact (Permutation_NoDup (Permutation_sym Hperm) Hnd2).
      * intros j. rewrite <- Hacc2. split; intros Hj.
        -- exact (Permutation_in _ Hperm Hj).
        -- exact (Permutation_in _ (Permutation_sym Hperm) Hj).
    + exact (IH it2 it' p2 H Hinv2).
Qed.

Lemma nearest_next_exact (lc : LinkCell) (fuel : nat)
    (it it' : LinkCellQueryIterator.t) (y : yielded) :
  cell_list_complete lc -> grid_closed lc ->
  ~ (0 <= LINK_CELL_TERMINATOR < m_n_points lc + m_Nc lc) ->
  fresh lc it ->
  LinkCellQueryIterator.next fuel lc it = Ok (y, it') ->
  exists p, nearest_inv lc it it' p.
Proof.
  intros Hcomplete Hclosed Hterm (Hacc & Hcount & Hsearched & Hcur) H.
  unfold LinkCellQueryIterator.next in H.
  set (c0 := getCellIndex (m_cell_index lc)
               (vadd_int (getCellCoord (m_box lc) (m_cell_index lc)
                            (LinkCellQueryIterator.m_query_point it))
                         (shell_deref (LinkCellQueryIterator.m_neigh_cell_iter it)))) in *.
  rewrite Hsearched in H. cbn [insert_cell searched existsb fst] in H.
  set (it0 := LinkCellQueryIterator.set_searched_cells it [c0]) in H.
  apply bind_Ok in H. destruct H as (it1 & H1 & H).
  assert (Hgrid : 0 <= c0 < m_Nc lc).
  { pose proof (Hclosed (vadd_int (nearest_home lc it)
                   (shell_deref (LinkCellQueryIterator.m_neigh_cell_iter it)))) as Hg.
    unfold in_grid in Hg. apply andb_prop in Hg. destruct Hg as [Hg1 Hg2].
    apply Z.leb_le in Hg1. apply Z.ltb_lt in Hg2. unfold c0. unfold nearest_home in *.
    lia. }
  destruct Hcomplete as (Hn & Hbound & Hcomplete').
  assert (Hinv0 : nearest_inv lc it it0 (Some c0)).
  { split; [repeat split|]. split.
    - cbn [nearest_pending]. unfold it0.
      cbn [LinkCellQueryIterator.set_searched_cells LinkCellQueryIterator.m_cell_iter
           LinkCellQueryIterator.m_searched_cells].
      unfold nearest_home in Hcur. fold c0 in Hcur. rewrite Hcur. unfold itercell.
      rewrite u32_small by lia. unfold atEnd.
      split; [apply Z.eqb_neq; intros He; apply Hterm; lia|].
      split; [reflexivity|]. split; [exact Hgrid|].
      rewrite searched_cons, Z.eqb_refl. reflexivity.
    - unfold it0.
      cbn [LinkCellQueryIterator.set_searched_cells
           LinkCellQueryIterator.m_current_neighbors
           LinkCellQueryIterator.m_searched_cells].
      rewrite Hacc. cbn [map]. split; [constructor|].
      intros j. split; [intros []|].
      intros (_ & c & _ & Hs & Hc). rewrite searched_cons in Hs. cbn [searched existsb] in Hs.
      rewrite orb_false_r in Hs. apply Z.eqb_eq in Hs. subst c. congruence. }
  assert (Hinv1 : exists p, nearest_inv lc it it1 p).
  { destruct (LinkCellQueryIterator.size it0 =? 0).
    - exact (nearest_expand_exact lc it _ (conj Hn (conj Hbound Hcomplete')) Hclosed Hterm
               fuel it0 it1 (Some c0) H1 Hinv0).
    - assert (Hi : it1 = it0) by congruence. subst it1. exists (Some c0). exact Hinv0. }
  destruct Hinv1 as (p & Hq1 & Hp1 & Hnd1 & Hacc1).
  exists p.
  destruct (_ && _) in H.
  - apply bind_Ok in H. destruct H as (b & _ & H).
    assert (Hi : it' = LinkCellQueryIterator.set_count it1
                         (u32 (LinkCellQueryIterator.m_count it1 + 1))) by congruence.
    subst it'. destruct Hq1 as (Ha & Hb & Hc).
    split; [repeat split; assumption|].
    split; [destruct p; exact Hp1|]. split; [exact Hnd1|exact Hacc1].
  - assert (Hi : it' = LinkCellQueryIterator.set_finished it1) by congruence.
    subst it'. destruct Hq1 as (Ha & Hb & Hc).
    split; [repeat split; assumption|].
    split; [destruct p; exact Hp1|]. split; [exact Hnd1|exact Hacc1].
Qed.

End NearestResult.

(** X19.  Over a cell list as [computeCellList] builds it, the first call
    of [next] on a fresh k-nearest iterator leaves in the accumulator one
    bond for each point, other than the query point under self-exclusion,
    of the cells it has searched, the cell the cell iterator has been
    moved to but not run through apart: every such point once, and no
    other point. *)
Theorem nearest_first_call_accumulates_the_searched_cells {E : Externals}
    (lc : LinkCell) (fuel : nat) (it it' : LinkCellQueryIterator.t) (y : yielded) :
  cell_list_complete lc ->
  grid_closed lc ->
  ~ (0 <= LINK_CELL_TERMINATOR < m_n_points lc + m_Nc lc) ->
  fresh lc it ->
  LinkCellQueryIterator.next fuel lc it = Ok (y, it') ->
  NoDup (map point_idx (LinkCellQueryIterator.m_current_neighbors it'))
  /\ forall j, In j (map point_idx (LinkCellQueryIterator.m_current_neighbors it')) <->
       nearest_eligible it j = true
       /\ exists c, (0 <= j < m_n_points lc /\ cell_of lc j = Some c)
            /\ searched (LinkCellQueryIterator.m_searched_cells it') c = true
            /\ ~ (atEnd (LinkCellQueryIterator.m_cell_iter it') = false
                  /\ LinkCellQueryIterator.m_cell_iter it' = m_n_points lc + c).
Proof.
  intros Hcomplete Hclosed Hterm Hfresh Hn.
  destruct (nearest_next_exact lc fuel it it' y Hcomplete Hclosed Hterm Hfresh Hn)
    as (p & _ & Hp & Hnd & Hacc).
  split; [exact Hnd|]. intros j. rewrite Hacc.
  split; intros (He & c & Hin & Hs & Hc); (split; [exact He|]); exists c.
  - split; [apply points_of_cell_In; exact Hin|]. split; [exact Hs|].
    intros [Hne Hcur]. destruct p as [cp|]; cbn [nearest_pending] in Hp.
    + destruct Hp as (_ & Hcp & _). apply Hc. f_equal. lia.
    + congruence.
  - split; [apply points_of_cell_In; exact Hin|]. split; [exact Hs|].
    intros <-. cbn [nearest_pending] in Hp. destruct Hp as (Hne & Hcur & _).
    apply Hc. split; assumption.
Qed.

Lemma nearest_first_call_accumulates_the_searched_cells_witness :
  NoDup (map point_idx
           (LinkCellQueryIterator.m_current_neighbors (snd nearest_of_origin_first)))
  /\ forall j,
       In j (map point_idx
               (LinkCellQueryIterator.m_current_neighbors (snd nearest_of_origin_first))) <->
       nearest_eligible nearest_of_origin j = true
       /\ exists c, (0 <= j < m_n_points grid2 /\ cell_of grid2 j = Some c)
            /\ searched (LinkCellQueryIterator.m_searched_cells
                           (snd nearest_of_origin_first)) c = true
            /\ ~ (atEnd (E := SampleExternals)
                    (LinkCellQueryIterator.m_cell_iter (snd nearest_of_origin_first))
                  = false
                  /\ LinkCellQueryIterator.m_cell_iter (snd nearest_of_origin_first)
                     = m_n_points grid2 + c).
Proof.
  apply (nearest_first_call_accumulates_the_searched_cells (E := SampleExternals)
           grid2 100 nearest_of_origin (snd nearest_of_origin_first)
           (fst nearest_of_origin_first)).
  - exact grid2_complete.
  - exact grid2_closed.
  - change (LINK_CELL_TERMINATOR (Externals := SampleExternals)) with 4294967295.
    change (m_n_points grid2) with 3. change (m_Nc grid2) with 8. lia.
  - exact nearest_of_origin_fresh.
  - reflexivity.
Defined.
